(** * Voice-streaming bridge (frontend/src/App.jsx): PCM codec and session machine

    A shallow embedding of the React component [App] of
    [frontend/src/App.jsx]: the capture encoder of [onaudioprocess], the
    playback decoder of [playPcmChunk], the message router of
    [wsRef.current.onmessage] and the connection handlers
    [connectWebSocket], [disconnectWebSocket], [startAudioCapture] and
    [stopAudioCapture], with the browser's event loop (socket events,
    promise continuations, timers) written out as explicit inputs.

    Modelling conventions.
    - A JavaScript number that holds an audio sample is a [float]: NaN, an
      infinity or a rational.  Every product the encoder forms is exact in
      binary64 (a binary32 sample has 24 significant bits, [0x7FFF] has 15
      and [0x8000] is a power of two), and so is the decoder's division by
      32768, so rational arithmetic is what the code computes on every
      sample a [Float32Array] can hold.
    - A typed-array byte is a [Z] in [0, 256); [Uint8Array(pcmData.buffer)]
      is read on a little-endian platform.
    - React state setters are applied in program order (all updates of the
      component are constants or functional updates, so batching does not
      change the result); a change of [isNegotiating] runs its effect at
      once.
    - Socket messages are text frames.  [whisperIdCounter] is an unbounded
      integer.
    - A timer callback runs at its due time: letting time pass runs every
      callback due by the new time, in order of due time. *)

From Stdlib Require Import ZArith NArith QArith Qabs String Ascii DecimalString.
From Stdlib Require Import List Sorted Bool Lia Lqa.
Import ListNotations.

Local Open Scope Z_scope.

(* ================================================================== *)
(** * JavaScript numbers holding samples *)
(* ================================================================== *)

Module Js.

Inductive float : Type :=
| NaN
| Infinity (negative : bool)
| Num (q : Q).

(** [Math.min(a, b)] and [Math.max(a, b)]: NaN is contagious. *)
Definition Math_min (a b : float) : float :=
  match a, b with
  | NaN, _ => NaN
  | _, NaN => NaN
  | Infinity true, _ => Infinity true
  | _, Infinity true => Infinity true
  | Infinity false, y => y
  | x, Infinity false => x
  | Num p, Num q => if Qle_bool p q then Num p else Num q
  end.

Definition Math_max (a b : float) : float :=
  match a, b with
  | NaN, _ => NaN
  | _, NaN => NaN
  | Infinity false, _ => Infinity false
  | _, Infinity false => Infinity false
  | Infinity true, y => y
  | x, Infinity true => x
  | Num p, Num q => if Qle_bool q p then Num p else Num q
  end.

(** [a < b]: false as soon as one side is NaN. *)
Definition lt (a b : float) : bool :=
  match a, b with
  | NaN, _ => false
  | _, NaN => false
  | Infinity true, Infinity true => false
  | Infinity true, _ => true
  | _, Infinity true => false
  | Infinity false, _ => false
  | _, Infinity false => true
  | Num p, Num q => negb (Qle_bool q p)
  end.

Definition Qsign_neg (q : Q) : bool := (Qnum q <? 0)%Z.
Definition Qis_zero (q : Q) : bool := (Qnum q =? 0)%Z.

(** [a * b]. *)
Definition mul (a b : float) : float :=
  match a, b with
  | NaN, _ => NaN
  | _, NaN => NaN
  | Infinity s, Infinity t => Infinity (xorb s t)
  | Infinity s, Num q =>
      if Qis_zero q then NaN else Infinity (xorb s (Qsign_neg q))
  | Num p, Infinity t =>
      if Qis_zero p then NaN else Infinity (xorb (Qsign_neg p) t)
  | Num p, Num q => Num (p * q)
  end.

(** [a / b] for a finite non-zero divisor, the only use in the source
    ([int16 / 32768.0]). *)
Definition div_by (a : float) (d : Q) : float :=
  match a with
  | Num p => Num (p / d)
  | other => other
  end.

(** Truncation toward zero (the integer part taken by ToInt16). *)
Definition trunc (q : Q) : Z := Z.quot (Qnum q) (Zpos (Qden q)).

(** Two's-complement reading of a value modulo 2^16. *)
Definition wrap16 (z : Z) : Z :=
  let u := z mod 65536 in
  if u >=? 32768 then u - 65536 else u.

(** The conversion applied by a store into an [Int16Array] (ToInt16):
    NaN and the infinities become 0, a finite value is truncated and
    wrapped. *)
Definition ToInt16 (x : float) : Z :=
  match x with
  | Num q => wrap16 (trunc q)
  | _ => 0
  end.

End Js.

(* ================================================================== *)
(** * Base64: [btoa] and [atob] *)
(* ================================================================== *)

Module Base64.

Definition alphabet : list ascii :=
  list_ascii_of_string
    "ABCDEFGHIJKLMNOPQRSTUVWXYZabcdefghijklmnopqrstuvwxyz0123456789+/".

Definition pad : ascii := "="%char.

Definition char_of_sextet (i : Z) : ascii := nth (Z.to_nat i) alphabet pad.

Fixpoint index_from (n : Z) (l : list ascii) (c : ascii) : option Z :=
  match l with
  | [] => None
  | d :: l' => if Ascii.eqb c d then Some n else index_from (n + 1) l' c
  end.

Definition sextet_of_char (c : ascii) : option Z := index_from 0 alphabet c.

(** The 6-bit groups of a byte sequence, most significant first; a final
    group of one or two bytes is padded with zero bits. *)
Fixpoint sextets (bytes : list Z) : list Z :=
  match bytes with
  | a :: b :: c :: rest =>
      a / 4 :: (a mod 4) * 16 + b / 16 :: (b mod 16) * 4 + c / 64 :: c mod 64
        :: sextets rest
  | [a; b] => [a / 4; (a mod 4) * 16 + b / 16; (b mod 16) * 4]
  | [a] => [a / 4; (a mod 4) * 16]
  | [] => []
  end.

Definition padding (n : nat) : nat :=
  match (n mod 3)%nat with
  | 1%nat => 2%nat
  | 2%nat => 1%nat
  | _ => 0%nat
  end.

(** [btoa(String.fromCharCode(...bytes))]. *)
Definition btoa (bytes : list Z) : string :=
  string_of_list_ascii
    (map char_of_sextet (sextets bytes) ++ repeat pad (padding (length bytes))).

Definition is_ascii_whitespace (c : ascii) : bool :=
  let n := nat_of_ascii c in
  ((n =? 9) || (n =? 10) || (n =? 12) || (n =? 13) || (n =? 32))%nat.

(** Removes one or two trailing [=]. *)
Definition strip_padding (data : list ascii) : list ascii :=
  match rev data with
  | p :: q :: r =>
      if Ascii.eqb p pad then
        if Ascii.eqb q pad then rev r else rev (q :: r)
      else data
  | [p] => if Ascii.eqb p pad then [] else data
  | [] => data
  end.

Fixpoint all_sextets (data : list ascii) : option (list Z) :=
  match data with
  | [] => Some []
  | c :: data' =>
      match sextet_of_char c, all_sextets data' with
      | Some i, Some l => Some (i :: l)
      | _, _ => None
      end
  end.

(** Bytes of a sequence of 6-bit groups; a final group of two or three
    sextets yields one or two bytes, the remaining bits are dropped. *)
Fixpoint octets (ixs : list Z) : list Z :=
  match ixs with
  | i :: j :: k :: l :: rest =>
      i * 4 + j / 16 :: (j mod 16) * 16 + k / 4 :: (k mod 4) * 64 + l
        :: octets rest
  | [i; j; k] => [i * 4 + j / 16; (j mod 16) * 16 + k / 4]
  | [i; j] => [i * 4 + j / 16]
  | _ => []
  end.

(** [atob(s)]: the forgiving-base64 decoding of the platform; [None] is
    the [InvalidCharacterError] it throws. *)
Definition atob (s : string) : option (list Z) :=
  let data :=
    filter (fun c => negb (is_ascii_whitespace c)) (list_ascii_of_string s) in
  let data :=
    if (length data mod 4 =? 0)%nat then strip_padding data else data in
  if (length data mod 4 =? 1)%nat then None
  else option_map octets (all_sextets data).

(** Ranges of the values handled, and the check of one row of the
    alphabet table: the character of a sextet decodes to it and is neither
    the padding character nor white space. *)
Definition is_octet (b : Z) : Prop := 0 <= b < 256.
Definition is_sextet (i : Z) : Prop := 0 <= i < 64.

Definition sextet_ok (n : nat) : bool :=
  match sextet_of_char (char_of_sextet (Z.of_nat n)) with
  | Some j => (j =? Z.of_nat n)
  | None => false
  end
  && negb (Ascii.eqb (char_of_sextet (Z.of_nat n)) pad)
  && negb (is_ascii_whitespace (char_of_sextet (Z.of_nat n))).

End Base64.

(* ================================================================== *)
(** * Capture encoder and playback decoder *)
(* ================================================================== *)

Module Pcm.
Import Js.

(** [Math.max(-1, Math.min(1, inputData[i]))] *)
Definition clamp (x : float) : float :=
  Math_max (Num (-1 # 1)) (Math_min (Num (1 # 1)) x).

(** The value stored in [pcmData[i]]:
    [s < 0 ? s * 0x8000 : s * 0x7FFF], converted by the typed array. *)
Definition pcm16_of_sample (x : float) : Z :=
  let s := clamp x in
  ToInt16 (if lt s (Num (0 # 1)) then mul s (Num (32768 # 1))
           else mul s (Num (32767 # 1))).

(** The two bytes of an int16 in a little-endian buffer. *)
Definition int16_bytes (n : Z) : list Z :=
  let u := n mod 65536 in [u mod 256; u / 256].

(** [new Uint8Array(pcmData.buffer)] *)
Definition Uint8Array_of_Int16Array (pcmData : list Z) : list Z :=
  flat_map int16_bytes pcmData.

(** Lines 158-168 of [onaudioprocess]: the base64 payload of one block. *)
Definition encode_block (inputData : list float) : string :=
  let pcmData := map pcm16_of_sample inputData in
  Base64.btoa (Uint8Array_of_Int16Array pcmData).

(** [dataView.getInt16(offset, true)] inside the bounds of the buffer. *)
Definition getInt16 (bytes : list Z) (offset : nat) : Z :=
  wrap16 (nth offset bytes 0 + 256 * nth (S offset) bytes 0).

(** The contents of [float32Data] after the loop of [playPcmChunk]:
    [byteLength / 2] samples (the typed-array constructor truncates the
    length), sample [i] being [getInt16(i * 2, true) / 32768.0]. *)
Definition decode_bytes (audioBytes : list Z) : list float :=
  map (fun i => div_by (Num (inject_Z (getInt16 audioBytes (i * 2))))
                       (32768 # 1))
      (seq 0 (length audioBytes / 2)).

(** [atob] followed by the conversion loop; [None] when [atob] throws. *)
Definition decode_payload (base64Audio : string) : option (list float) :=
  option_map decode_bytes (Base64.atob base64Audio).

(** The sample the decoder stores for the int16 value [n]. *)
Definition played (n : Z) : float := div_by (Num (inject_Z n)) (32768 # 1).

(** The conversion in the words of the specification: clamp to [-1, 1],
    then scale negative values by 32768 and non-negative values by 32767,
    keeping the integer part. *)
Definition spec_clamp (q : Q) : Q :=
  if Qle_bool q (-1 # 1) then (-1 # 1)
  else if Qle_bool (1 # 1) q then (1 # 1)
  else q.

Definition spec_scale (s : Q) : Z :=
  if Qsign_neg s then trunc (s * (32768 # 1)) else trunc (s * (32767 # 1)).

(** One quantization step of the playback scale. *)
Definition quantum : Q := 1 # 32768.

(** [y] reconstructs the sample [x]: it is finite and lies within [tol] of
    the clamped value of [x] (0 stands for a sample that is not a number). *)
Definition reconstructs (tol : Q) (x y : float) : Prop :=
  exists r : Q,
    y = Num r /\
    match clamp x with
    | Num s => (Qabs (r - s) <= tol)%Q
    | _ => (r == 0)%Q
    end.

(** The precise error of the asymmetric scale: a negative clamped value is
    rounded toward zero by less than one step; a non-negative one is
    scaled by 32767 and read back over 32768, which loses up to two. *)
Definition reconstructs_asym (x y : float) : Prop :=
  exists r : Q,
    y = Num r /\
    match clamp x with
    | Num s =>
        if Qsign_neg s then (s <= r /\ r < s + quantum)%Q
        else (s - (2 # 1) * quantum < r /\ r <= s)%Q
    | _ => (r == 0)%Q
    end.

End Pcm.

(* ================================================================== *)
(** * The component [App]: state, handlers and event loop *)
(* ================================================================== *)

Module App.
Import Js.

Local Open Scope string_scope.
Local Open Scope list_scope.

(** ** Values produced by [JSON.parse].  An object is the list of its own
    properties, each key once. *)

#[local] Set Warnings "-register-all".

Inductive json : Type :=
| JNull
| JBool (b : bool)
| JNumber (n : Q)
| JString (s : string)
| JArray (items : list json)
| JObject (fields : list (string * json)).

Fixpoint lookup (k : string) (fields : list (string * json)) : option json :=
  match fields with
  | [] => None
  | (k', v) :: rest => if String.eqb k k' then Some v else lookup k rest
  end.

(** [data.k] for one of the keys the router reads ([vol], [type], [text],
    [audio]) on a value other than [null]; [None] is [undefined].  Only an
    object can own such a property. *)
Definition prop (data : json) (k : string) : option json :=
  match data with
  | JObject fields => lookup k fields
  | _ => None
  end.

(** ToBoolean. *)
Definition truthy (v : option json) : bool :=
  match v with
  | None => false
  | Some JNull => false
  | Some (JBool b) => b
  | Some (JNumber n) => negb (Qis_zero n)
  | Some (JString s) => negb (String.eqb s EmptyString)
  | Some (JArray _) => true
  | Some (JObject _) => true
  end.

(** [v === "s"] *)
Definition strict_eq_string (v : option json) (s : string) : bool :=
  match v with
  | Some (JString s') => String.eqb s' s
  | _ => false
  end.

(** ** Component state *)

Record Whisper : Type := mkWhisper
  { id : Z; text : json; timestamp : Z }.

Record DebugInfo : Type := mkDebugInfo
  { status : string; lastMessage : string }.

Inductive ReadyState : Type := CONNECTING | OPEN | CLOSING | CLOSED.

(** The callbacks handed to [setTimeout]. *)
Inductive TimerAction : Type :=
| StartAudioCapture              (* () => { startAudioCapture(); } *)
| RemoveWhisper (whisperId : Z)  (* () => { setWhispers(prev => prev.filter(...)) } *)
| StopNegotiating.               (* () => setIsNegotiating(false) *)

(** [{ realtime_input: { media_chunks: [{ mime_type, data }] } }] *)
Record Envelope : Type := mkEnvelope
  { mime_type : string; data : string }.

(** Calls into the platform, in the order they are made. *)
Inductive Effect : Type :=
| WebSocket_new (ws : nat)
| WebSocket_close (ws : nat)
| WebSocket_send (ws : nat) (e : Envelope)
| getUserMedia_called
| AudioContext_new (ctx : nat)
| AudioContext_resume (ctx : nat)
| Pipeline_connected (stream ctx processor : nat)
| Processor_disconnect (processor : nat)
| Tracks_stop (stream : nat)
| AudioContext_close (ctx : nat)
| playPcmChunk_called (base64Audio : json)
| Output_context_new
| Source_start (float32Data : list float).

Record World : Type := mkWorld
  { (* useState *)
    isNegotiating : bool;
    audioLevel : json;
    isConnected : bool;
    whispers : list Whisper;
    debugInfo : DebugInfo;
    (* useRef *)
    wsRef : option nat;
    audioContextRef : option nat;
    mediaStreamRef : option nat;
    processorRef : option nat;
    whisperIdCounter : Z;
    (* browser *)
    sockets : list ReadyState;        (* readyState of every socket created *)
    now : Z;                          (* Date.now(), milliseconds *)
    timers : list (Z * TimerAction);  (* pending timeouts: due time, callback *)
    console : list string;
    effects : list Effect }.

Definition setIsNegotiating_state (b : bool) (w : World) : World :=
  mkWorld b (audioLevel w) (isConnected w) (whispers w) (debugInfo w)
    (wsRef w) (audioContextRef w) (mediaStreamRef w) (processorRef w)
    (whisperIdCounter w) (sockets w) (now w) (timers w) (console w) (effects w).

Definition setAudioLevel (v : json) (w : World) : World :=
  mkWorld (isNegotiating w) v (isConnected w) (whispers w) (debugInfo w)
    (wsRef w) (audioContextRef w) (mediaStreamRef w) (processorRef w)
    (whisperIdCounter w) (sockets w) (now w) (timers w) (console w) (effects w).

Definition setIsConnected (b : bool) (w : World) : World :=
  mkWorld (isNegotiating w) (audioLevel w) b (whispers w) (debugInfo w)
    (wsRef w) (audioContextRef w) (mediaStreamRef w) (processorRef w)
    (whisperIdCounter w) (sockets w) (now w) (timers w) (console w) (effects w).

(** [setWhispers(prev => f(prev))] *)
Definition setWhispers (f : list Whisper -> list Whisper) (w : World) : World :=
  mkWorld (isNegotiating w) (audioLevel w) (isConnected w) (f (whispers w))
    (debugInfo w)
    (wsRef w) (audioContextRef w) (mediaStreamRef w) (processorRef w)
    (whisperIdCounter w) (sockets w) (now w) (timers w) (console w) (effects w).

(** [setDebugInfo(prev => f(prev))] *)
Definition setDebugInfo (f : DebugInfo -> DebugInfo) (w : World) : World :=
  mkWorld (isNegotiating w) (audioLevel w) (isConnected w) (whispers w)
    (f (debugInfo w))
    (wsRef w) (audioContextRef w) (mediaStreamRef w) (processorRef w)
    (whisperIdCounter w) (sockets w) (now w) (timers w) (console w) (effects w).

Definition set_wsRef (r : option nat) (w : World) : World :=
  mkWorld (isNegotiating w) (audioLevel w) (isConnected w) (whispers w)
    (debugInfo w)
    r (audioContextRef w) (mediaStreamRef w) (processorRef w)
    (whisperIdCounter w) (sockets w) (now w) (timers w) (console w) (effects w).

Definition set_audioContextRef (r : option nat) (w : World) : World :=
  mkWorld (isNegotiating w) (audioLevel w) (isConnected w) (whispers w)
    (debugInfo w)
    (wsRef w) r (mediaStreamRef w) (processorRef w)
    (whisperIdCounter w) (sockets w) (now w) (timers w) (console w) (effects w).

Definition set_mediaStreamRef (r : option nat) (w : World) : World :=
  mkWorld (isNegotiating w) (audioLevel w) (isConnected w) (whispers w)
    (debugInfo w)
    (wsRef w) (audioContextRef w) r (processorRef w)
    (whisperIdCounter w) (sockets w) (now w) (timers w) (console w) (effects w).

Definition set_processorRef (r : option nat) (w : World) : World :=
  mkWorld (isNegotiating w) (audioLevel w) (isConnected w) (whispers w)
    (debugInfo w)
    (wsRef w) (audioContextRef w) (mediaStreamRef w) r
    (whisperIdCounter w) (sockets w) (now w) (timers w) (console w) (effects w).

Definition set_whisperIdCounter (n : Z) (w : World) : World :=
  mkWorld (isNegotiating w) (audioLevel w) (isConnected w) (whispers w)
    (debugInfo w)
    (wsRef w) (audioContextRef w) (mediaStreamRef w) (processorRef w)
    n (sockets w) (now w) (timers w) (console w) (effects w).

Definition set_sockets (l : list ReadyState) (w : World) : World :=
  mkWorld (isNegotiating w) (audioLevel w) (isConnected w) (whispers w)
    (debugInfo w)
    (wsRef w) (audioContextRef w) (mediaStreamRef w) (processorRef w)
    (whisperIdCounter w) l (now w) (timers w) (console w) (effects w).

Definition set_now (t : Z) (w : World) : World :=
  mkWorld (isNegotiating w) (audioLevel w) (isConnected w) (whispers w)
    (debugInfo w)
    (wsRef w) (audioContextRef w) (mediaStreamRef w) (processorRef w)
    (whisperIdCounter w) (sockets w) t (timers w) (console w) (effects w).

Definition set_timers (l : list (Z * TimerAction)) (w : World) : World :=
  mkWorld (isNegotiating w) (audioLevel w) (isConnected w) (whispers w)
    (debugInfo w)
    (wsRef w) (audioContextRef w) (mediaStreamRef w) (processorRef w)
    (whisperIdCounter w) (sockets w) (now w) l (console w) (effects w).

(** [console.log] and [console.error]: the line's fixed first argument. *)
Definition console_log (line : string) (w : World) : World :=
  mkWorld (isNegotiating w) (audioLevel w) (isConnected w) (whispers w)
    (debugInfo w)
    (wsRef w) (audioContextRef w) (mediaStreamRef w) (processorRef w)
    (whisperIdCounter w) (sockets w) (now w) (timers w)
    (console w ++ [line]) (effects w).

Definition console_error : string -> World -> World := console_log.

Definition emit (e : Effect) (w : World) : World :=
  mkWorld (isNegotiating w) (audioLevel w) (isConnected w) (whispers w)
    (debugInfo w)
    (wsRef w) (audioContextRef w) (mediaStreamRef w) (processorRef w)
    (whisperIdCounter w) (sockets w) (now w) (timers w) (console w)
    (effects w ++ [e]).

(** [setTimeout(callback, delay)] *)
Definition setTimeout (callback : TimerAction) (delay : Z) (w : World) : World :=
  set_timers (timers w ++ [(now w + delay, callback)]) w.

(** Writes element [i] of a list; no element is added out of range. *)
Fixpoint list_set {A : Type} (i : nat) (x : A) (l : list A) : list A :=
  match l, i with
  | [], _ => []
  | _ :: l', O => x :: l'
  | y :: l', S i' => y :: list_set i' x l'
  end.

Definition readyState (ws : nat) (w : World) : option ReadyState :=
  nth_error (sockets w) ws.

Definition set_readyState (ws : nat) (s : ReadyState) (w : World) : World :=
  set_sockets (list_set ws s (sockets w)) w.

Definition is_OPEN (s : option ReadyState) : bool :=
  match s with Some OPEN => true | _ => false end.

(** The state right after the first render: every [useState] and [useRef]
    at its initial value. *)
Definition init : World :=
  mkWorld false (JNumber (0 # 1)) false [] (mkDebugInfo "Disconnected" EmptyString)
    None None None None 0 [] 0 [] [] [].

(** A settled promise, or the completion of a platform call that may
    throw. *)
Inductive Outcome (A : Type) : Type :=
| Fulfilled (a : A)
| Rejected (message : string).
Arguments Fulfilled {A} a.
Arguments Rejected {A} message.

Section Handlers.

(** The platform: [JSON.parse] ([None] when it throws a SyntaxError), the
    ToString coercion that [atob] applies to an argument that is not a
    string, and whether [navigator.mediaDevices.getUserMedia] exists. *)
Variable JSON_parse : string -> option json.
Variable ToString : json -> string.
Variable has_getUserMedia : bool.

(** ** [stopAudioCapture] (lines 196-213) *)
Definition stopAudioCapture (w : World) : World :=
  let w := console_log "[AUDIO] Stopping audio capture" w in
  let w := match processorRef w with
           | Some p => set_processorRef None (emit (Processor_disconnect p) w)
           | None => w
           end in
  let w := match mediaStreamRef w with
           | Some s => set_mediaStreamRef None (emit (Tracks_stop s) w)
           | None => w
           end in
  match audioContextRef w with
  | Some c => set_audioContextRef None (emit (AudioContext_close c) w)
  | None => w
  end.

(** [ws.close()]: a socket that is connecting or open starts closing. *)
Definition WebSocket_close_call (ws : nat) (w : World) : World :=
  let w := emit (WebSocket_close ws) w in
  match readyState ws w with
  | Some CONNECTING | Some OPEN => set_readyState ws CLOSING w
  | _ => w
  end.

(** ** [disconnectWebSocket] (lines 106-117) *)
Definition disconnectWebSocket (w : World) : World :=
  let w := match wsRef w with
           | Some ws =>
               let w := console_log "[WS] Closing connection" w in
               let w := WebSocket_close_call ws w in
               set_wsRef None w
           | None => w
           end in
  let w := stopAudioCapture w in
  let w := setIsConnected false w in
  let w := setAudioLevel (JNumber (0 # 1)) w in
  let w := setWhispers (fun _ => []) w in
  setDebugInfo (fun _ => mkDebugInfo "Disconnected" EmptyString) w.

(** ** [connectWebSocket] (lines 27-32); the four handlers it installs
    follow. *)
Definition connectWebSocket (w : World) : World :=
  let w := console_log "[WS] Connecting to ws://localhost:8000/ws" w in
  let w := setDebugInfo
             (fun prev => mkDebugInfo "Connecting..." (lastMessage prev)) w in
  let w := setWhispers (fun _ => []) w in
  let ws := length (sockets w) in
  let w := set_sockets (sockets w ++ [CONNECTING]) w in
  let w := emit (WebSocket_new ws) w in
  set_wsRef (Some ws) w.

(** [wsRef.current.onopen] (lines 34-42) *)
Definition onopen (w : World) : World :=
  let w := console_log "[WS] ✅ Connected to Backend" w in
  let w := setDebugInfo
             (fun prev => mkDebugInfo "Connected" (lastMessage prev)) w in
  let w := setIsConnected true w in
  setTimeout StartAudioCapture 100 w.

(** ** [playPcmChunk] (lines 215-238).  The whole body is inside
    [try { } catch], so every failure ends in [console.error]: [atob]
    throwing, and [createBuffer] refusing a length of 0.  The length
    [byteLength / 2] handed to [Float32Array] is truncated by the
    constructor (ToIndex), so an odd last byte is not read.  The output
    context is assumed available. *)
Definition playPcmChunk (base64Audio : json) (w : World) : World :=
  let w := emit (playPcmChunk_called base64Audio) w in
  let arg := match base64Audio with
             | JString s => s
             | other => ToString other
             end in
  match Base64.atob arg with
  | None => console_error "[AUDIO] Error playing audio:" w
  | Some audioBytes =>
      let w := emit Output_context_new w in
      let float32Data := Pcm.decode_bytes audioBytes in
      match float32Data with
      | [] => console_error "[AUDIO] Error playing audio:" w
      | _ => emit (Source_start float32Data) w
      end
  end.

(** The five [if] statements of the [try] block of [onmessage], in
    program order (lines 51-87). *)

(** Volume level for visualization: [if (data.vol !== undefined)]. *)
Definition route_volume (data : json) (w : World) : World :=
  match prop data "vol" with
  | Some vol => setAudioLevel vol w
  | None => w
  end.

(** TEXT whisper from Gemini: [if (data.type === "whisper" && data.text)]. *)
Definition route_whisper (data : json) (w : World) : World :=
  if strict_eq_string (prop data "type") "whisper" && truthy (prop data "text")
  then
    match prop data "text" with
    | Some t =>
        let w := console_log "[WHISPER]" w in
        let newWhisper := mkWhisper (whisperIdCounter w) t (now w) in
        let w := set_whisperIdCounter (whisperIdCounter w + 1) w in
        let w := setWhispers (fun prev => prev ++ [newWhisper]) w in
        (* Auto-remove after 10 seconds *)
        setTimeout (RemoveWhisper (id newWhisper)) 10000 w
    | None => w
    end
  else w.

(** AUDIO whisper from Gemini: [if (data.type === "audio" && data.audio)]. *)
Definition route_audio (data : json) (w : World) : World :=
  if strict_eq_string (prop data "type") "audio" && truthy (prop data "audio")
  then
    match prop data "audio" with
    | Some a => playPcmChunk a (console_log "[WS] Playing audio whisper" w)
    | None => w
    end
  else w.

(** Legacy support: [if (data.audio && !data.type)]. *)
Definition route_legacy_audio (data : json) (w : World) : World :=
  if truthy (prop data "audio") && negb (truthy (prop data "type"))
  then
    match prop data "audio" with
    | Some a => playPcmChunk a w
    | None => w
    end
  else w.

(** [if (data.text && !data.type)]: the console only. *)
Definition route_legacy_text (data : json) (w : World) : World :=
  if truthy (prop data "text") && negb (truthy (prop data "type"))
  then console_log "[WS] Gemini:" w
  else w.

(** The body of the [try] block once [JSON.parse] has returned [data].
    [Rejected] is the TypeError of reading [data.vol] on [null]; nothing
    else in the block throws. *)
Definition route (data : json) (w : World) : Outcome World :=
  match data with
  | JNull => Rejected "Cannot read properties of null (reading 'vol')"
  | _ =>
      Fulfilled
        (route_legacy_text data
           (route_legacy_audio data
              (route_audio data
                 (route_whisper data
                    (route_volume data w)))))
  end.

(** [event.data.length > 50 ? event.data.substring(0, 50) + "..." : event.data] *)
Definition msgPreview (event_data : string) : string :=
  if (50 <? String.length event_data)%nat
  then String.append (String.substring 0 50 event_data) "..."
  else event_data.

(** ** [wsRef.current.onmessage] (lines 44-91), for a text frame. *)
Definition onmessage (event_data : string) (w : World) : World :=
  let w := setDebugInfo
             (fun prev => mkDebugInfo (status prev) (msgPreview event_data)) w in
  match JSON_parse event_data with
  | None => console_error "[WS] Error parsing message:" w
  | Some data =>
      match route data w with
      | Fulfilled w' => w'
      | Rejected _ => console_error "[WS] Error parsing message:" w
      end
  end.

(** [wsRef.current.onerror] (lines 93-96) *)
Definition onerror (w : World) : World :=
  let w := console_error "[WS] ❌ WebSocket error:" w in
  setDebugInfo (fun prev => mkDebugInfo "Error" (lastMessage prev)) w.

(** [`Disconnected (${event.code})`] *)
Definition closed_status (code : N) : string :=
  String.append "Disconnected ("
    (String.append (NilZero.string_of_uint (N.to_uint code)) ")").

(** [wsRef.current.onclose] (lines 98-103) *)
Definition onclose (code : N) (w : World) : World :=
  let w := console_log "[WS] Disconnected" w in
  let w := setDebugInfo
             (fun prev => mkDebugInfo (closed_status code) (lastMessage prev)) w in
  let w := setIsConnected false w in
  stopAudioCapture w.

(** ** [startAudioCapture] (lines 119-194), cut at its two [await]s. *)

(** The [catch] block (lines 188-193). *)
Definition capture_failed (message : string) (w : World) : World :=
  let w := console_error "[AUDIO] ❌ Error:" w in
  let w := setDebugInfo
             (fun prev =>
                mkDebugInfo (status prev) (String.append "Mic Error: " message))
             w in
  let w := setIsConnected false w in
  setTimeout StopNegotiating 2000 w.

(** Up to [await navigator.mediaDevices.getUserMedia(...)]. *)
Definition startAudioCapture (w : World) : World :=
  let w := console_log "[AUDIO] Requesting microphone access..." w in
  if has_getUserMedia then emit getUserMedia_called w
  else capture_failed "getUserMedia is not supported in this browser" w.

(** Lines 150-186: the processing graph.  Reading
    [audioContextRef.current] when it is [null] throws first; [graph] is
    the completion of [createMediaStreamSource(stream)], carrying the
    handle of the script processor created next ([createScriptProcessor]
    and the two [connect] calls get valid arguments). *)
Definition connect_pipeline (stream : nat) (graph : Outcome nat) (w : World)
  : World :=
  match audioContextRef w with
  | None =>
      capture_failed
        "Cannot read properties of null (reading 'createMediaStreamSource')" w
  | Some ctx =>
      match graph with
      | Rejected message => capture_failed message w
      | Fulfilled processor =>
          let w := set_processorRef (Some processor) w in
          let w := emit (Pipeline_connected stream ctx processor) w in
          console_log "[AUDIO] ✅ Audio pipeline connected" w
      end
  end.

(** From the settlement of [getUserMedia] to the next [await] or to the
    end: [context] is the completion of [new AudioContext(...)], its
    boolean telling whether the context starts suspended. *)
Definition after_getUserMedia (stream : Outcome nat)
  (context : Outcome (nat * bool)) (graph : Outcome nat) (w : World) : World :=
  match stream with
  | Rejected message => capture_failed message w
  | Fulfilled stream =>
      let w := console_log "[AUDIO] ✅ Microphone access granted" w in
      let w := set_mediaStreamRef (Some stream) w in
      match context with
      | Rejected message => capture_failed message w
      | Fulfilled (ctx, suspended) =>
          let w := set_audioContextRef (Some ctx) w in
          let w := emit (AudioContext_new ctx) w in
          let w := console_log "[AUDIO] AudioContext state:" w in
          if suspended then emit (AudioContext_resume ctx) w
          else connect_pipeline stream graph w
      end
  end.

(** From the settlement of [audioContextRef.current.resume()] on. *)
Definition after_resume (stream : nat) (resumed : Outcome unit)
  (graph : Outcome nat) (w : World) : World :=
  match resumed with
  | Rejected message => capture_failed message w
  | Fulfilled _ =>
      let w := console_log "[AUDIO] AudioContext resumed" w in
      connect_pipeline stream graph w
  end.

(** ** [processorRef.current.onaudioprocess] (lines 153-182) *)
Definition onaudioprocess (inputData : list float) (w : World) : World :=
  match wsRef w with
  | None => w
  | Some ws =>
      if negb (is_OPEN (readyState ws w)) then w
      else
        let base64Data := Pcm.encode_block inputData in
        emit (WebSocket_send ws (mkEnvelope "audio/pcm" base64Data)) w
  end.

(** ** [setIsNegotiating] and the effect of lines 18-25.  A state update
    to the current value causes no render; a change re-renders and runs
    the previous effect's cleanup ([disconnectWebSocket]) and then the
    effect. *)
Definition setIsNegotiating (b : bool) (w : World) : World :=
  if Bool.eqb (isNegotiating w) b then w
  else
    let w := setIsNegotiating_state b w in
    let w := disconnectWebSocket w in
    if b then connectWebSocket w else disconnectWebSocket w.

(** The effect's first run, after the initial render. *)
Definition mount (w : World) : World := disconnectWebSocket w.

(** ** The event loop *)

Definition fire (a : TimerAction) (w : World) : World :=
  match a with
  | StartAudioCapture => startAudioCapture w
  | RemoveWhisper k =>
      setWhispers (filter (fun x => negb (id x =? k)%Z)) w
  | StopNegotiating => setIsNegotiating false w
  end.

Inductive Event : Type :=
| Click_Start                         (* onClick of "Start Negotiation" *)
| Click_End                           (* onClick of "End Session" *)
| Socket_open (ws : nat)
| Socket_message (ws : nat) (event_data : string)
| Socket_error (ws : nat)
| Socket_close (ws : nat) (code : N)
| GetUserMedia_settled (stream : Outcome nat) (context : Outcome (nat * bool))
    (graph : Outcome nat)
| Resume_settled (stream : nat) (resumed : Outcome unit) (graph : Outcome nat)
| Audio_process (inputData : list float).

(** What the browser can deliver on a socket in a given [readyState]. *)
Definition deliverable (e : Event) (w : World) : bool :=
  match e with
  | Socket_open ws =>
      match readyState ws w with Some CONNECTING => true | _ => false end
  | Socket_message ws _ =>
      match readyState ws w with
      | Some OPEN | Some CLOSING => true
      | _ => false
      end
  | Socket_error ws | Socket_close ws _ =>
      match readyState ws w with
      | Some CONNECTING | Some OPEN | Some CLOSING => true
      | _ => false
      end
  | _ => true
  end.

Definition handle (e : Event) (w : World) : World :=
  if negb (deliverable e w) then w
  else
    match e with
    | Click_Start => setIsNegotiating true w
    | Click_End => setIsNegotiating false w
    | Socket_open ws => onopen (set_readyState ws OPEN w)
    | Socket_message _ event_data => onmessage event_data w
    | Socket_error _ => onerror w
    | Socket_close ws code => onclose code (set_readyState ws CLOSED w)
    | GetUserMedia_settled stream context graph =>
        after_getUserMedia stream context graph w
    | Resume_settled stream resumed graph =>
        after_resume stream resumed graph w
    | Audio_process inputData => onaudioprocess inputData w
    end.

(** The earliest due time among pending timers. *)
Fixpoint earliest (l : list (Z * TimerAction)) : option Z :=
  match l with
  | [] => None
  | (d, _) :: l' =>
      match earliest l' with
      | Some d' => Some (Z.min d d')
      | None => Some d
      end
  end.

(** Removes the first timer due at [d]. *)
Fixpoint take_timer (d : Z) (l : list (Z * TimerAction))
  : option (TimerAction * list (Z * TimerAction)) :=
  match l with
  | [] => None
  | (d', a) :: l' =>
      if (d' =? d)%Z then Some (a, l')
      else
        match take_timer d l' with
        | Some (b, r) => Some (b, (d', a) :: r)
        | None => None
        end
  end.

(** Timers run in order of due time, registration order breaking ties;
    [Date.now()] reads the due time while the callback runs. *)
Fixpoint advance (fuel : nat) (t : Z) (w : World) : World :=
  match fuel with
  | O => set_now (Z.max (now w) t) w
  | S fuel' =>
      match earliest (timers w) with
      | Some d =>
          if (d <=? t)%Z then
            match take_timer d (timers w) with
            | Some (a, rest) =>
                let w := set_timers rest w in
                let w := set_now (Z.max (now w) d) w in
                advance fuel' t (fire a w)
            | None => set_now (Z.max (now w) t) w
            end
          else set_now (Z.max (now w) t) w
      | None => set_now (Z.max (now w) t) w
      end
  end.

(** A bound on the callbacks still to run: a capture start can schedule
    one more timer (the stop of its [catch] block), the others none. *)
Definition timer_weight (tm : Z * TimerAction) : nat :=
  match snd tm with
  | StartAudioCapture => 2
  | _ => 1
  end.

Definition pending_weight (w : World) : nat :=
  list_sum (map timer_weight (timers w)).

(** Letting [dt] milliseconds pass. *)
Definition elapse (dt : Z) (w : World) : World :=
  advance (pending_weight w) (now w + Z.max 0 dt) w.

Inductive Input : Type :=
| Elapse (dt : Z)
| Deliver (e : Event).

Definition step (i : Input) (w : World) : World :=
  match i with
  | Elapse dt => elapse dt w
  | Deliver e => handle e w
  end.

Definition run (inputs : list Input) (w : World) : World :=
  fold_left (fun w i => step i w) inputs w.

End Handlers.
(** ** Observations used by the properties *)

(** [wsRef.current && wsRef.current.readyState === WebSocket.OPEN] *)
Definition socket_open (w : World) : bool :=
  match wsRef w with
  | Some ws => is_OPEN (readyState ws w)
  | None => false
  end.

Definition is_playback_call (e : Effect) : bool :=
  match e with playPcmChunk_called _ => true | _ => false end.

(** How many times [playPcmChunk] has been invoked. *)
Definition playback_calls (w : World) : nat :=
  length (filter is_playback_call (effects w)).

Definition is_capture_request (e : Effect) : bool :=
  match e with getUserMedia_called => true | _ => false end.

(** How many times the microphone has been requested. *)
Definition capture_requests (w : World) : nat :=
  length (filter is_capture_request (effects w)).

(** The branch conditions of the router, on the parsed message. *)
Definition creates_whisper (data : json) : bool :=
  strict_eq_string (prop data "type") "whisper" && truthy (prop data "text").

Definition typed_audio (data : json) : bool :=
  strict_eq_string (prop data "type") "audio" && truthy (prop data "audio").

Definition legacy_audio (data : json) : bool :=
  truthy (prop data "audio") && negb (truthy (prop data "type")).

(** The string handed to [atob] for an audio payload. *)
Definition atob_argument (ToString : json -> string) (a : json) : string :=
  match a with
  | JString s => s
  | other => ToString other
  end.

(** No capture resource is held. *)
Definition capture_stopped (w : World) : Prop :=
  processorRef w = None /\ mediaStreamRef w = None /\ audioContextRef w = None.

(** The phase reached by a stop: the status the component starts with, no
    socket, not connected. *)
Definition Disconnected (w : World) : Prop :=
  debugInfo w = mkDebugInfo "Disconnected" EmptyString /\
  isConnected w = false /\
  wsRef w = None.

Definition torn_down (w : World) : Prop :=
  Disconnected w /\
  audioLevel w = JNumber (0 # 1) /\
  whispers w = [] /\
  capture_stopped w.

(** The sockets after [ws.close()]. *)
Definition after_close (ws : nat) (socks : list ReadyState) : list ReadyState :=
  match nth_error socks ws with
  | Some CONNECTING | Some OPEN => list_set ws CLOSING socks
  | _ => socks
  end.

(** What one call of [playPcmChunk] writes to the console and asks of the
    platform after the call itself. *)
Definition play_lines (ToString : json -> string) (a : json) : list string :=
  match Base64.atob (atob_argument ToString a) with
  | None => ["[AUDIO] Error playing audio:"]
  | Some audioBytes =>
      match Pcm.decode_bytes audioBytes with
      | [] => ["[AUDIO] Error playing audio:"]
      | _ => []
      end
  end.

Definition play_calls (ToString : json -> string) (a : json) : list Effect :=
  match Base64.atob (atob_argument ToString a) with
  | None => []
  | Some audioBytes =>
      match Pcm.decode_bytes audioBytes with
      | [] => [Output_context_new]
      | float32Data => [Output_context_new; Source_start float32Data]
      end
  end.

(** The release calls [stopAudioCapture] makes for the handles held. *)
Definition releases (w : World) : list Effect :=
  match processorRef w with Some p => [Processor_disconnect p] | None => [] end
  ++ match mediaStreamRef w with Some s => [Tracks_stop s] | None => [] end
  ++ match audioContextRef w with Some c => [AudioContext_close c] | None => [] end.

(** The part of the state that makes up the session: connection phase,
    VolumeLevel, live TextAnnotations, socket and capture handles. *)
Record SessionState : Type := mkSessionState
  { s_isNegotiating : bool;
    s_status : string;
    s_isConnected : bool;
    s_audioLevel : json;
    s_whispers : list Whisper;
    s_wsRef : option nat;
    s_sockets : list ReadyState;
    s_audioContextRef : option nat;
    s_mediaStreamRef : option nat;
    s_processorRef : option nat }.

Definition session (w : World) : SessionState :=
  mkSessionState (isNegotiating w) (status (debugInfo w)) (isConnected w)
    (audioLevel w) (whispers w) (wsRef w) (sockets w)
    (audioContextRef w) (mediaStreamRef w) (processorRef w).

(** The annotation with id [k] is in the live list. *)
Definition live (k : Z) (w : World) : bool :=
  existsb (fun x => (id x =? k)%Z) (whispers w).

(** Invariant of the id allocator: annotation ids and the ids held by
    removal timers are below the counter, and the live list is in
    increasing id order. *)
Definition removal_below (c : Z) (tm : Z * TimerAction) : Prop :=
  match snd tm with
  | RemoveWhisper k => (k < c)%Z
  | _ => True
  end.

Record ids_invariant (w : World) : Prop := mkIdsInvariant
  { ids_below : Forall (fun x => (id x < whisperIdCounter w)%Z) (whispers w);
    ids_sorted : StronglySorted (fun x y => (id x < id y)%Z) (whispers w);
    removals_below : Forall (removal_below (whisperIdCounter w)) (timers w) }.

(** [w] with lines appended to the console and calls to the trace. *)
Definition traced (lines : list string) (calls : list Effect) (w : World)
  : World :=
  mkWorld (isNegotiating w) (audioLevel w) (isConnected w) (whispers w)
    (debugInfo w)
    (wsRef w) (audioContextRef w) (mediaStreamRef w) (processorRef w)
    (whisperIdCounter w) (sockets w) (now w) (timers w)
    (console w ++ lines) (effects w ++ calls).

(** The state the annotation lifecycle depends on. *)
Definition loop_state (w : World)
  : bool * list Whisper * Z * list (Z * TimerAction) * Z :=
  (isNegotiating w, whispers w, whisperIdCounter w, timers w, now w).

(** What one step can do to it.  [timer] tells a timer callback from an
    event handler: only a handler creates an annotation or schedules a
    capture start, only a callback removes an annotation, and a callback
    changes [isNegotiating] to false only. *)
Inductive loop_change (timer : bool) (w w' : World) : Prop :=
| unchanged :
    loop_state w' = loop_state w ->
    loop_change timer w w'
| scheduled (a : TimerAction) (delay : Z) :
    (0 < delay)%Z ->
    a = StopNegotiating \/ (timer = false /\ a = StartAudioCapture) ->
    loop_state w' =
      (isNegotiating w, whispers w, whisperIdCounter w,
       timers w ++ [((now w + delay)%Z, a)], now w) ->
    loop_change timer w w'
| cleared :
    (timer = true -> isNegotiating w = true) ->
    loop_state w' =
      (negb (isNegotiating w), [], whisperIdCounter w, timers w, now w) ->
    loop_change timer w w'
| created (t : json) :
    timer = false ->
    loop_state w' =
      (isNegotiating w,
       whispers w ++ [mkWhisper (whisperIdCounter w) t (now w)],
       (whisperIdCounter w + 1)%Z,
       timers w ++ [((now w + 10000)%Z, RemoveWhisper (whisperIdCounter w))],
       now w) ->
    loop_change timer w w'
| removed (k : Z) :
    timer = true ->
    loop_state w' =
      (isNegotiating w,
       filter (fun x => negb (id x =? k)%Z) (whispers w),
       whisperIdCounter w, timers w, now w) ->
    loop_change timer w w'.

(** The trace of the two audio branches of the router: at most one of
    them runs. *)
Definition audio_lines (ToString : json -> string) (data : json)
  : list string :=
  match prop data "audio" with
  | Some a =>
      if typed_audio data
      then "[WS] Playing audio whisper" :: play_lines ToString a
      else if legacy_audio data then play_lines ToString a else []
  | None => []
  end.

Definition audio_calls (ToString : json -> string) (data : json)
  : list Effect :=
  match prop data "audio" with
  | Some a =>
      if typed_audio data || legacy_audio data
      then playPcmChunk_called a :: play_calls ToString a
      else []
  | None => []
  end.

Definition text_lines (data : json) : list string :=
  if truthy (prop data "text") && negb (truthy (prop data "type"))
  then ["[WS] Gemini:"] else [].

(** The annotation branch of the router, in full. *)
Definition with_whisper (t : json) (w : World) : World :=
  mkWorld (isNegotiating w) (audioLevel w) (isConnected w)
    (whispers w ++ [mkWhisper (whisperIdCounter w) t (now w)])
    (debugInfo w)
    (wsRef w) (audioContextRef w) (mediaStreamRef w) (processorRef w)
    (whisperIdCounter w + 1)%Z (sockets w) (now w)
    (timers w ++ [((now w + 10000)%Z, RemoveWhisper (whisperIdCounter w))])
    (console w ++ ["[WHISPER]"]) (effects w).

(** The annotations a parsed message adds. *)
Definition new_whispers (data : json) (w : World) : list Whisper :=
  if creates_whisper data then
    match prop data "text" with
    | Some t => [mkWhisper (whisperIdCounter w) t (now w)]
    | None => []
    end
  else [].

(** The session state a parsed message leaves: VolumeLevel overwritten by
    a [vol] field, the new annotation appended, nothing else touched. *)
Definition session_after (data : json) (w : World) : SessionState :=
  mkSessionState (isNegotiating w) (status (debugInfo w)) (isConnected w)
    (match prop data "vol" with Some v => v | None => audioLevel w end)
    (whispers w ++ new_whispers data w) (wsRef w) (sockets w)
    (audioContextRef w) (mediaStreamRef w) (processorRef w).

(** The first statement of [onmessage]: the preview goes to
    [debugInfo.lastMessage]. *)
Definition preview (raw : string) (w : World) : World :=
  setDebugInfo (fun prev => mkDebugInfo (status prev) (msgPreview raw)) w.

(** One turn of the timer loop: the world on which the callback due at
    [d] runs, its timer removed. *)
Definition pop (d : Z) (rest : list (Z * TimerAction)) (w : World) : World :=
  set_now (Z.max (now w) d) (set_timers rest w).

(** No annotation of the live list has id [k]. *)
Definition not_live (k : Z) (w : World) : Prop :=
  Forall (fun y => id y <> k) (whispers w).

(** The annotation [k] is gone, or its removal is still pending. *)
Definition expiring (k D : Z) (w : World) : Prop :=
  (k < whisperIdCounter w)%Z /\
  (not_live k w \/ In (D, RemoveWhisper k) (timers w)).

(** Between inputs: gone, or pending with the clock before the due time. *)
Definition expires_at (k D : Z) (w : World) : Prop :=
  (k < whisperIdCounter w)%Z /\
  (not_live k w \/ ((now w < D)%Z /\ In (D, RemoveWhisper k) (timers w))).

(** The annotation [x] is live and no timer can remove it before [D]. *)
Definition kept (x : Whisper) (D : Z) (w : World) : Prop :=
  In x (whispers w) /\
  (id x < whisperIdCounter w)%Z /\
  Forall (fun tm => snd tm = RemoveWhisper (id x) -> (D <= fst tm)%Z)
    (timers w).

(** ** Sample platform and messages *)

Definition dq : string := String "034"%char EmptyString.
Definition quoted (s : string) : string := String.append dq (String.append s dq).
Definition cat (l : list string) : string := fold_right String.append EmptyString l.

(** [{"type":"whisper","text":"hello"}] *)
Definition msg_whisper : string :=
  cat ["{"; quoted "type"; ":"; quoted "whisper"; ",";
       quoted "text"; ":"; quoted "hello"; "}"].

(** [{"type":"audio","audio":"AAD/fw=="}] *)
Definition msg_audio : string :=
  cat ["{"; quoted "type"; ":"; quoted "audio"; ",";
       quoted "audio"; ":"; quoted "AAD/fw=="; "}"].

(** [{"audio":"AAD/fw=="}] *)
Definition msg_legacy_audio : string :=
  cat ["{"; quoted "audio"; ":"; quoted "AAD/fw=="; "}"].

(** [{"text":"hi"}] *)
Definition msg_legacy_text : string :=
  cat ["{"; quoted "text"; ":"; quoted "hi"; "}"].

(** [{"vol":50,"type":"audio","audio":"!"}] *)
Definition msg_vol_bad_audio : string :=
  cat ["{"; quoted "vol"; ":50,"; quoted "type"; ":"; quoted "audio"; ",";
       quoted "audio"; ":"; quoted "!"; "}"].

(** [{"type":"audio","audio":"AAD/f"}]: a payload cut after five
    characters. *)
Definition msg_truncated_audio : string :=
  cat ["{"; quoted "type"; ":"; quoted "audio"; ",";
       quoted "audio"; ":"; quoted "AAD/f"; "}"].

(** [{"type":"audio","audio":"AAD/"}]: three bytes. *)
Definition msg_odd_audio : string :=
  cat ["{"; quoted "type"; ":"; quoted "audio"; ",";
       quoted "audio"; ":"; quoted "AAD/"; "}"].

Definition msg_not_json : string := "hello, not json".

(** [JSON.parse] on the sample messages; every other text used below is
    not JSON. *)
Definition sample_parse (s : string) : option json :=
  if String.eqb s msg_whisper then
    Some (JObject [("type", JString "whisper"); ("text", JString "hello")])
  else if String.eqb s msg_audio then
    Some (JObject [("type", JString "audio"); ("audio", JString "AAD/fw==")])
  else if String.eqb s msg_legacy_audio then
    Some (JObject [("audio", JString "AAD/fw==")])
  else if String.eqb s msg_legacy_text then
    Some (JObject [("text", JString "hi")])
  else if String.eqb s msg_vol_bad_audio then
    Some (JObject [("vol", JNumber (50 # 1)); ("type", JString "audio");
                   ("audio", JString "!")])
  else if String.eqb s msg_truncated_audio then
    Some (JObject [("type", JString "audio"); ("audio", JString "AAD/f")])
  else if String.eqb s msg_odd_audio then
    Some (JObject [("type", JString "audio"); ("audio", JString "AAD/")])
  else None.

(** ToString on the values the samples hand to [atob]: strings only, so
    the other cases are never read. *)
Definition sample_ToString (v : json) : string :=
  match v with
  | JString s => s
  | JNull => "null"
  | JBool true => "true"
  | JBool false => "false"
  | _ => "[object Object]"
  end.

(** The component after its first effect run. *)
Definition booted : World := mount init.

(** A session in progress: started, socket 0 open, capture requested after
    the 100 ms delay. *)
Definition connected : World :=
  run sample_parse sample_ToString true
    [Deliver Click_Start; Deliver (Socket_open 0); Elapse 100] booted.

(** The same session with the microphone pipeline running. *)
Definition capturing : World :=
  run sample_parse sample_ToString true
    [Deliver (GetUserMedia_settled (Fulfilled 7%nat)
                (Fulfilled (8%nat, false)) (Fulfilled 9%nat))]
    connected.


(** The start of the sample session, and inputs during which nothing
    stops or restarts it. *)
Definition session_start : list Input :=
  [Deliver Click_Start; Deliver (Socket_open 0); Elapse 100].

Definition quiet_inputs : list Input :=
  [Elapse 5000; Deliver (Socket_message 0 msg_legacy_text); Elapse 4999].

(** ** Further observations *)

(** The part of the state the socket bookkeeping depends on. *)
Definition socket_state (w : World) : bool * option nat * list ReadyState :=
  (isNegotiating w, wsRef w, sockets w).

(** Invariant of the socket bookkeeping: [wsRef] holds the newest socket
    exactly while the session is on, and every other socket ever created
    is closing or closed. *)
Record socket_invariant (w : World) : Prop := mkSocketInvariant
  { current_socket :
      match wsRef w with
      | Some ws => isNegotiating w = true /\ S ws = length (sockets w)
      | None => isNegotiating w = false
      end;
    stale_sockets :
      forall j s,
        nth_error (sockets w) j = Some s -> wsRef w <> Some j ->
        s = CLOSING \/ s = CLOSED }.

(** The pending timer [tm] is a capture start due by [t]. *)
Definition capture_due (t : Z) (tm : Z * TimerAction) : bool :=
  match snd tm with
  | StartAudioCapture => (fst tm <=? t)%Z
  | _ => false
  end.

Definition captures_due (t : Z) (l : list (Z * TimerAction)) : nat :=
  length (filter (capture_due t) l).

(** The annotation [x] was created in the past and its removal is still
    pending, at ten seconds after its timestamp. *)
Definition fresh_annotation (w : World) (x : Whisper) : Prop :=
  (timestamp x <= now w)%Z /\
  In ((timestamp x + 10000)%Z, RemoveWhisper (id x)) (timers w).

(** The [send] call [onaudioprocess] makes for a block on socket [ws]. *)
Definition send_of (ws : nat) (inputData : list float) : Effect :=
  WebSocket_send ws (mkEnvelope "audio/pcm" (Pcm.encode_block inputData)).

(** The sockets after the current one, if any, has been told to close. *)
Definition closed_sockets (w : World) : list ReadyState :=
  match wsRef w with
  | Some ws => after_close ws (sockets w)
  | None => sockets w
  end.

(** [{"type":"ping","vol":30}] *)
Definition msg_ping : string :=
  cat ["{"; quoted "type"; ":"; quoted "ping"; ","; quoted "vol"; ":30}"].

(** [JSON.parse] on some more texts: a message of a type the router does
    not know, a number, the empty object and [null]. *)
Definition sample_parse_more (s : string) : option json :=
  if String.eqb s msg_ping then
    Some (JObject [("type", JString "ping"); ("vol", JNumber (30 # 1))])
  else if String.eqb s "42" then Some (JNumber (42 # 1))
  else if String.eqb s "{}" then Some (JObject [])
  else if String.eqb s "null" then Some JNull
  else sample_parse s.

(** The sample session right after the click on the start button. *)
Definition connecting : World :=
  run sample_parse sample_ToString true [Deliver Click_Start] booted.

(** Two captured blocks. *)
Definition sample_blocks : list (list float) :=
  [[Num (1 # 2); Num (-1 # 1)]; [NaN]].

(** The calls a stop makes on the state [w]: [close()] on the socket
    [wsRef] holds, then the release of each handle the capture refs
    hold. *)
Definition stop_calls (w : World) : list Effect :=
  match wsRef w with Some ws => [WebSocket_close ws] | None => [] end
  ++ releases w.

(** The calls are microphone requests only. *)
Definition only_requests (calls : list Effect) : Prop :=
  Forall (fun e => e = getUserMedia_called) calls.

(** [x] is the session [w] aborted: off, no socket held and the one [w]
    held told to close, nothing captured, nothing displayed; the calls
    made since [w] are the stop's, among microphone requests only. *)
Definition aborted (w x : World) : Prop :=
  isNegotiating x = false /\
  wsRef x = None /\
  status (debugInfo x) = "Disconnected" /\
  isConnected x = false /\
  audioLevel x = JNumber (0 # 1) /\
  whispers x = [] /\
  capture_stopped x /\
  sockets x = closed_sockets w /\
  exists before after,
    effects x = effects w ++ before ++ stop_calls w ++ after /\
    only_requests (before ++ after).

(** [x] is the session [w] still on, its stop pending at [D]. *)
Definition abort_pending (D : Z) (w x : World) : Prop :=
  isNegotiating x = true /\
  wsRef x = wsRef w /\
  processorRef x = processorRef w /\
  mediaStreamRef x = mediaStreamRef w /\
  audioContextRef x = audioContextRef w /\
  sockets x = sockets w /\
  In (D, StopNegotiating) (timers x) /\
  exists before,
    effects x = effects w ++ before /\ only_requests before.



End App.

(* ================================================================== *)
(** * Base64 and the PCM round trip *)
(* ================================================================== *)

Section Base64Facts.
Import Base64.

Lemma list_ind3 {A : Type} (P : list A -> Prop) :
  P [] -> (forall a, P [a]) -> (forall a b, P [a; b]) ->
  (forall a b c l, P l -> P (a :: b :: c :: l)) ->
  forall l, P l.
Proof.
  intros H0 H1 H2 H3.
  fix IH 1.
  intros [|a [|b [|c l]]]; [apply H0 | apply H1 | apply H2 | apply H3, IH].
Qed.

Lemma sextet_table : forallb sextet_ok (seq 0 64) = true.
Proof. vm_compute. reflexivity. Qed.

Lemma sextet_facts (i : Z) :
  0 <= i < 64 ->
  sextet_of_char (char_of_sextet i) = Some i /\
  char_of_sextet i <> pad /\
  is_ascii_whitespace (char_of_sextet i) = false.
Proof.
  intros Hi.
  pose proof sextet_table as T.
  rewrite forallb_forall in T.
  specialize (T (Z.to_nat i)).
  assert (Hin : In (Z.to_nat i) (seq 0 64)) by (apply in_seq; lia).
  apply T in Hin. unfold sextet_ok in Hin.
  rewrite Z2Nat.id in Hin by lia.
  apply andb_true_iff in Hin as [Hin Hws].
  apply andb_true_iff in Hin as [Hix Hpad].
  destruct (sextet_of_char (char_of_sextet i)) as [j|]; [|discriminate].
  apply Z.eqb_eq in Hix. subst j.
  repeat split.
  - intros E. rewrite E, Ascii.eqb_refl in Hpad. discriminate.
  - now apply negb_true_iff in Hws.
Qed.

Lemma sextets_range bytes : Forall is_octet bytes -> Forall is_sextet (sextets bytes).
Proof.
  induction bytes as [| a | a b | a b c l IH] using list_ind3; intros H; simpl.
  - constructor.
  - inversion_clear H. unfold is_octet, is_sextet in *.
    repeat constructor; Z.div_mod_to_equations; lia.
  - inversion_clear H. inversion_clear H1. unfold is_octet, is_sextet in *.
    repeat constructor; Z.div_mod_to_equations; lia.
  - inversion_clear H. inversion_clear H1. inversion_clear H2.
    unfold is_octet, is_sextet in *.
    repeat (constructor; [Z.div_mod_to_equations; lia|]). auto.
Qed.

Lemma octets_sextets bytes : Forall is_octet bytes -> octets (sextets bytes) = bytes.
Proof.
  induction bytes as [| a | a b | a b c l IH] using list_ind3; intros H.
  - reflexivity.
  - inversion_clear H. unfold is_octet in *. simpl. f_equal.
    Z.div_mod_to_equations; lia.
  - inversion_clear H. inversion_clear H1. unfold is_octet in *. simpl.
    f_equal; [|f_equal]; Z.div_mod_to_equations; lia.
  - inversion_clear H. inversion_clear H1. inversion_clear H2.
    unfold is_octet in *.
    change (sextets (a :: b :: c :: l)) with
      (a / 4 :: (a mod 4) * 16 + b / 16 :: (b mod 16) * 4 + c / 64 :: c mod 64
         :: sextets l).
    cbn [octets]. rewrite IH by assumption.
    f_equal; [|f_equal; [|f_equal]]; Z.div_mod_to_equations; lia.
Qed.

Lemma all_sextets_chars ixs :
  Forall is_sextet ixs -> all_sextets (map char_of_sextet ixs) = Some ixs.
Proof.
  induction 1 as [|i l Hi _ IH]; simpl; [reflexivity|].
  destruct (sextet_facts i Hi) as (-> & _). now rewrite IH.
Qed.

Lemma mod4_step n : ((4 + n) mod 4 = n mod 4)%nat.
Proof. replace (4 + n)%nat with (n + 1 * 4)%nat by lia. apply Nat.Div0.mod_add. Qed.

Lemma mod3_step n : ((3 + n) mod 3 = n mod 3)%nat.
Proof. replace (3 + n)%nat with (n + 1 * 3)%nat by lia. apply Nat.Div0.mod_add. Qed.

Lemma sextets_length (bytes : list Z) :
  (length (sextets bytes) mod 4 <> 1)%nat /\
  ((length (sextets bytes) + padding (length bytes)) mod 4 = 0)%nat.
Proof.
  induction bytes as [| a | a b | a b c l IH] using list_ind3;
    try (split; [discriminate | reflexivity]).
  change (length (sextets (a :: b :: c :: l)))
    with (4 + length (sextets l))%nat.
  change (length (a :: b :: c :: l)) with (3 + length l)%nat.
  unfold padding. rewrite mod3_step. fold (padding (length l)).
  rewrite <- Nat.add_assoc, !mod4_step. exact IH.
Qed.

Lemma strip_padding_app body k :
  (k <= 2)%nat -> Forall (fun c => c <> pad) body ->
  strip_padding (body ++ repeat pad k) = body.
Proof.
  intros Hk Hbody.
  assert (Hrev : Forall (fun c => c <> pad) (rev body))
    by (apply Forall_rev; assumption).
  destruct k as [|[|[|k]]]; try lia; simpl repeat.
  - rewrite app_nil_r. unfold strip_padding.
    destruct (rev body) as [|p [|q r]] eqn:E.
    + reflexivity.
    + inversion_clear Hrev. apply Ascii.eqb_neq in H. now rewrite H.
    + inversion_clear Hrev. apply Ascii.eqb_neq in H. now rewrite H.
  - unfold strip_padding. rewrite rev_app_distr. cbn [rev app].
    rewrite ?Ascii.eqb_refl.
    destruct (rev body) as [|q r] eqn:E.
    + rewrite <- (rev_involutive body), E. reflexivity.
    + inversion_clear Hrev. apply Ascii.eqb_neq in H. rewrite H.
      change (rev r ++ [q]) with (rev (q :: r)).
      rewrite <- E. apply rev_involutive.
  - unfold strip_padding. rewrite rev_app_distr. cbn [rev app].
    rewrite ?Ascii.eqb_refl. apply rev_involutive.
Qed.

Lemma padding_le n : (padding n <= 2)%nat.
Proof. unfold padding. destruct (n mod 3)%nat as [|[|[|]]]; lia. Qed.

Lemma filter_id {A} (f : A -> bool) l :
  Forall (fun x => f x = true) l -> filter f l = l.
Proof. induction 1; simpl; [reflexivity|]. rewrite H. now f_equal. Qed.

(** [atob] inverts [btoa] on every byte sequence. *)
Lemma atob_btoa bytes : Forall is_octet bytes -> atob (btoa bytes) = Some bytes.
Proof.
  intros Hb.
  pose proof (sextets_range bytes Hb) as Hs.
  destruct (sextets_length bytes) as [Hne H0].
  set (body := map char_of_sextet (sextets bytes)).
  assert (Hbody : Forall (fun c => c <> pad /\ is_ascii_whitespace c = false) body).
  { unfold body. apply Forall_map. eapply Forall_impl; [|exact Hs].
    intros i Hi. destruct (sextet_facts i Hi) as (_ & ? & ?). auto. }
  unfold atob, btoa. fold body.
  rewrite list_ascii_of_string_of_list_ascii.
  rewrite filter_id.
  2:{ apply Forall_app. split.
      - eapply Forall_impl; [|exact Hbody]. intros c [_ ->]. reflexivity.
      - apply Forall_forall. intros c Hc. apply repeat_spec in Hc. now subst. }
  cbv zeta.
  assert (Hlen : (length (body ++ repeat pad (padding (length bytes))) mod 4
                  = 0)%nat).
  { rewrite length_app, repeat_length. unfold body. rewrite length_map.
    exact H0. }
  rewrite Hlen, Nat.eqb_refl.
  rewrite strip_padding_app.
  2: apply padding_le.
  2:{ eapply Forall_impl; [|exact Hbody]. intros c [? _]. assumption. }
  assert (Hlen1 : (length body mod 4 =? 1)%nat = false).
  { unfold body. rewrite length_map. now apply Nat.eqb_neq. }
  rewrite Hlen1. unfold body.
  rewrite all_sextets_chars by assumption. simpl.
  now rewrite octets_sextets.
Qed.

End Base64Facts.

Section PcmFacts.
Import Js Base64 Pcm.

Lemma wrap16_id n : -32768 <= n <= 32767 -> wrap16 n = n.
Proof.
  intros H. unfold wrap16.
  destruct (n mod 65536 >=? 32768) eqn:E;
    [apply Z.geb_le in E | rewrite Z.geb_leb in E; apply Z.leb_gt in E];
    Z.div_mod_to_equations; lia.
Qed.

(** Truncation moves a rational toward zero by less than one. *)
Lemma trunc_bounds (q : Q) :
  ((0 <= q -> inject_Z (trunc q) <= q /\ q < inject_Z (trunc q) + 1) /\
   (q <= 0 -> q <= inject_Z (trunc q) /\ inject_Z (trunc q) - 1 < q))%Q.
Proof.
  destruct q as [a b]. unfold trunc, Qle, Qlt, inject_Z. simpl.
  pose proof (Z.quot_rem' a (Zpos b)) as E.
  split; intros H; rewrite Z.mul_1_r in H.
  - pose proof (Z.rem_bound_pos a (Zpos b) H ltac:(lia)). nia.
  - pose proof (Z.rem_bound_pos_neg a (Zpos b) ltac:(lia) H). nia.
Qed.

Lemma clamp_Num q : clamp (Num q) = Num (spec_clamp q).
Proof.
  unfold clamp, spec_clamp, Math_min, Math_max.
  destruct (Qle_bool (1 # 1) q) eqn:E1.
  - change (Qle_bool (1 # 1) (-1 # 1)) with false. cbv iota.
    destruct (Qle_bool q (-1 # 1)) eqn:E2; [|reflexivity].
    apply Qle_bool_iff in E1, E2. lra.
  - destruct (Qle_bool q (-1 # 1)); reflexivity.
Qed.

Lemma spec_clamp_range q : (-1 # 1 <= spec_clamp q /\ spec_clamp q <= 1 # 1)%Q.
Proof.
  unfold spec_clamp.
  destruct (Qle_bool q (-1 # 1)) eqn:E2; [lra|].
  destruct (Qle_bool (1 # 1) q) eqn:E1; [lra|].
  assert (~ (q <= -1 # 1)%Q) by (rewrite <- Qle_bool_iff; congruence).
  assert (~ (1 # 1 <= q)%Q) by (rewrite <- Qle_bool_iff; congruence).
  lra.
Qed.

Lemma Qsign_neg_spec s :
  (Qsign_neg s = true -> (s < 0)%Q) /\ (Qsign_neg s = false -> (0 <= s)%Q).
Proof.
  destruct s as [a b]. unfold Qsign_neg, Qlt, Qle. simpl.
  split; intros H; [apply Z.ltb_lt in H | apply Z.ltb_ge in H]; lia.
Qed.

Lemma lt_zero_sign s : lt (Num s) (Num (0 # 1)) = Qsign_neg s.
Proof.
  destruct s as [a b]. unfold lt, Qle_bool, Qsign_neg. simpl.
  rewrite Z.mul_1_r. destruct (a <? 0) eqn:E.
  - apply Z.ltb_lt in E. apply negb_true_iff, Z.leb_gt. lia.
  - apply Z.ltb_ge in E. apply negb_false_iff, Z.leb_le. lia.
Qed.

Lemma quot_scale_range a b k :
  0 < b -> 0 < k -> - b <= a <= b -> - k <= Z.quot (a * k) b <= k.
Proof.
  intros Hb Hk Ha.
  pose proof (Z.quot_rem' (a * k) b) as E.
  assert (a * k < 0 \/ 0 <= a * k) as [Hn|Hp] by lia.
  - pose proof (Z.rem_bound_pos_neg (a * k) b Hb ltac:(lia)). nia.
  - pose proof (Z.rem_bound_pos (a * k) b Hp Hb). nia.
Qed.

Lemma spec_scale_range s :
  (-1 # 1 <= s /\ s <= 1 # 1)%Q -> -32768 <= spec_scale s <= 32767.
Proof.
  destruct s as [a b]. unfold Qle, spec_scale, Qsign_neg, trunc. simpl.
  intros [Hl Hu].
  rewrite Pos.mul_1_r.
  destruct (a <? 0) eqn:E; [apply Z.ltb_lt in E | apply Z.ltb_ge in E].
  - pose proof (quot_scale_range a (Zpos b) 32768 ltac:(lia) ltac:(lia)
                  ltac:(lia)) as R.
    pose proof (Z.quot_rem' (a * 32768) (Zpos b)) as Q.
    pose proof (Z.rem_bound_pos_neg (a * 32768) (Zpos b) ltac:(lia) ltac:(lia)).
    nia.
  - pose proof (quot_scale_range a (Zpos b) 32767 ltac:(lia) ltac:(lia)
                  ltac:(lia)) as R.
    pose proof (Z.quot_rem' (a * 32767) (Zpos b)) as Q.
    pose proof (Z.rem_bound_pos (a * 32767) (Zpos b) ltac:(lia) ltac:(lia)).
    nia.
Qed.

Lemma pcm16_Num q : pcm16_of_sample (Num q) = spec_scale (spec_clamp q).
Proof.
  unfold pcm16_of_sample. rewrite clamp_Num, lt_zero_sign.
  pose proof (spec_scale_range _ (spec_clamp_range q)) as R.
  unfold spec_scale in *.
  destruct (Qsign_neg (spec_clamp q)); simpl; now apply wrap16_id.
Qed.

Lemma pcm16_range x : -32768 <= pcm16_of_sample x <= 32767.
Proof.
  destruct x as [|[|]|q];
    [vm_compute; split; discriminate | vm_compute; split; discriminate
     | vm_compute; split; discriminate |].
  rewrite pcm16_Num. apply spec_scale_range, spec_clamp_range.
Qed.

(** C2: the encoder's sample conversion is the clamp to [-1, 1] followed
    by the asymmetric scale, and always lands in the int16 range. *)
Theorem capture_sample_conversion (x : float) :
  match x with
  | Num q =>
      clamp x = Num (spec_clamp q) /\
      (-1 # 1 <= spec_clamp q /\ spec_clamp q <= 1 # 1)%Q /\
      pcm16_of_sample x = spec_scale (spec_clamp q)
  | Infinity negative =>
      clamp x = Num (if negative then -1 # 1 else 1 # 1) /\
      pcm16_of_sample x = (if negative then -32768 else 32767)
  | NaN => clamp x = NaN /\ pcm16_of_sample x = 0
  end /\
  -32768 <= pcm16_of_sample x <= 32767.
Proof.
  split; [|apply pcm16_range].
  destruct x as [|[|]|q];
    [split; reflexivity | split; reflexivity | split; reflexivity |].
  auto using clamp_Num, spec_clamp_range, pcm16_Num.
Qed.

Lemma int16_bytes_range n : Forall is_octet (int16_bytes n).
Proof.
  unfold int16_bytes, is_octet.
  repeat constructor; Z.div_mod_to_equations; lia.
Qed.

Lemma Uint8Array_range pcmData : Forall is_octet (Uint8Array_of_Int16Array pcmData).
Proof.
  unfold Uint8Array_of_Int16Array.
  induction pcmData as [|n l IH]; simpl; [constructor|].
  pose proof (int16_bytes_range n) as H. unfold int16_bytes in *.
  inversion_clear H. inversion_clear H1. auto.
Qed.

Lemma decode_bytes_pair lo hi rest :
  decode_bytes (lo :: hi :: rest) =
  played (wrap16 (lo + 256 * hi)) :: decode_bytes rest.
Proof.
  unfold decode_bytes.
  replace (length (lo :: hi :: rest)) with (length rest + 1 * 2)%nat
    by (simpl; lia).
  rewrite Nat.div_add by discriminate.
  rewrite Nat.add_1_r. cbn [seq map].
  f_equal. rewrite <- seq_shift, map_map.
  apply map_ext. intros i. reflexivity.
Qed.

Lemma getInt16_int16_bytes n :
  -32768 <= n <= 32767 ->
  wrap16 ((n mod 65536) mod 256 + 256 * ((n mod 65536) / 256)) = n.
Proof.
  intros H.
  replace ((n mod 65536) mod 256 + 256 * ((n mod 65536) / 256))
    with (n mod 65536) by (Z.div_mod_to_equations; lia).
  unfold wrap16. rewrite Z.mod_mod by lia.
  fold (wrap16 n). now apply wrap16_id.
Qed.

Lemma decode_bytes_Uint8Array pcmData :
  Forall (fun n => -32768 <= n <= 32767) pcmData ->
  decode_bytes (Uint8Array_of_Int16Array pcmData) = map played pcmData.
Proof.
  unfold Uint8Array_of_Int16Array.
  induction 1 as [|n l Hn _ IH]; [reflexivity|].
  cbn [flat_map int16_bytes app map].
  rewrite decode_bytes_pair, getInt16_int16_bytes, IH by assumption.
  reflexivity.
Qed.

(** What the playback path computes from the payload of a block. *)
Lemma decode_encode_block inputData :
  decode_payload (encode_block inputData) =
  Some (map (fun x => played (pcm16_of_sample x)) inputData).
Proof.
  unfold decode_payload, encode_block.
  rewrite atob_btoa by apply Uint8Array_range.
  cbn [option_map]. rewrite decode_bytes_Uint8Array.
  - now rewrite map_map.
  - apply Forall_map, Forall_forall. intros x _.
    apply pcm16_range.
Qed.

Lemma played_value n : played n = Num (inject_Z n * (1 # 32768)).
Proof. reflexivity. Qed.

Lemma sample_error x : reconstructs_asym x (played (pcm16_of_sample x)).
Proof.
  exists (inject_Z (pcm16_of_sample x) * (1 # 32768))%Q.
  split; [apply played_value|].
  destruct x as [|[|]|q].
  - vm_compute. reflexivity.
  - vm_compute. split; [discriminate | reflexivity].
  - vm_compute. split; [reflexivity | discriminate].
  - rewrite pcm16_Num, clamp_Num.
    pose proof (spec_clamp_range q) as [Hl Hu].
    set (s := spec_clamp q) in *.
    destruct (Qsign_neg_spec s) as [Hn Hp].
    unfold spec_scale, quantum.
    destruct (Qsign_neg s).
    + specialize (Hn eq_refl).
      destruct (trunc_bounds (s * (32768 # 1))) as [_ B].
      destruct B as [B1 B2]; [lra|]. lra.
    + specialize (Hp eq_refl).
      destruct (trunc_bounds (s * (32767 # 1))) as [B _].
      destruct B as [B1 B2]; [lra|]. lra.
Qed.

Lemma reconstructs_asym_two_steps x y :
  reconstructs_asym x y -> reconstructs ((2 # 1) * quantum) x y.
Proof.
  intros (r & -> & H). exists r. split; [reflexivity|].
  destruct (clamp x) as [| |s]; try assumption.
  apply Qabs_Qle_condition. unfold quantum in *.
  destruct (Qsign_neg s); lra.
Qed.

(** C3 (amended): the round trip returns one sample per input sample, each
    within two quantization steps of the clamped input: less than one
    step above a negative value, less than two steps below a non-negative
    one. *)
Theorem pcm_round_trip (inputData : list float) :
  exists float32Data : list float,
    decode_payload (encode_block inputData) = Some float32Data /\
    Forall2 reconstructs_asym inputData float32Data /\
    Forall2 (reconstructs ((2 # 1) * quantum)) inputData float32Data.
Proof.
  exists (map (fun x => played (pcm16_of_sample x)) inputData).
  split; [apply decode_encode_block|].
  split; induction inputData as [|x l IH]; simpl; constructor;
    auto using sample_error, reconstructs_asym_two_steps.
Qed.

(** C3 as stated fails: the sample 1 - 2^-17 is encoded as 32766 and
    played back as 32766/32768, 1.75 steps below it. *)
Lemma pcm_round_trip_one_step_fails :
  decode_payload (encode_block [Num (131071 # 131072)])
    = Some [Num (32766 # 32768)] /\
  ~ reconstructs quantum (Num (131071 # 131072)) (Num (32766 # 32768)).
Proof.
  split; [vm_compute; reflexivity|].
  intros (r & E & H). injection E as <-.
  rewrite clamp_Num in H. vm_compute in H. apply H. reflexivity.
Qed.

End PcmFacts.

(* ================================================================== *)
(** * The session: teardown, routing, capture failure, annotations *)
(* ================================================================== *)

Section AppFacts.
Import Js App.
Local Open Scope string_scope.
Local Open Scope list_scope.
Local Open Scope Z_scope.

Variable JSON_parse : string -> option json.
Variable ToString : json -> string.
Variable has_getUserMedia : bool.

(** Opens a world into its fields, so that every setter computes. *)
Ltac open_world w :=
  destruct w as [neg lvl conn whs dbg wsr ctx str proc cnt socks tnow tms con eff].

(** Computes setters and projections, and nothing else. *)
Ltac wsimpl :=
  cbv beta iota zeta delta
    [setIsNegotiating_state setAudioLevel setIsConnected setWhispers
     setDebugInfo set_wsRef set_audioContextRef set_mediaStreamRef
     set_processorRef set_whisperIdCounter set_sockets set_now set_timers
     console_log console_error emit setTimeout traced set_readyState
     readyState releases loop_state session
     isNegotiating audioLevel isConnected whispers debugInfo wsRef
     audioContextRef mediaStreamRef processorRef whisperIdCounter sockets
     now timers console effects status lastMessage].

Tactic Notation "wsimpl" "in" hyp(H) :=
  cbv beta iota zeta delta
    [setIsNegotiating_state setAudioLevel setIsConnected setWhispers
     setDebugInfo set_wsRef set_audioContextRef set_mediaStreamRef
     set_processorRef set_whisperIdCounter set_sockets set_now set_timers
     console_log console_error emit setTimeout traced set_readyState
     readyState releases loop_state session
     isNegotiating audioLevel isConnected whispers debugInfo wsRef
     audioContextRef mediaStreamRef processorRef whisperIdCounter sockets
     now timers console effects status lastMessage] in H.

(** *** Shapes of the teardown handlers *)

Lemma stopAudioCapture_shape w :
  stopAudioCapture w =
  set_audioContextRef None
    (set_mediaStreamRef None
       (set_processorRef None
          (traced ["[AUDIO] Stopping audio capture"] (releases w) w))).
Proof.
  open_world w. unfold stopAudioCapture.
  destruct ctx, str, proc; wsimpl;
    rewrite <- ?app_assoc, ?app_nil_r; reflexivity.
Qed.

Lemma WebSocket_close_call_shape ws w :
  WebSocket_close_call ws w =
  set_sockets (after_close ws (sockets w)) (traced [] [WebSocket_close ws] w).
Proof.
  open_world w. unfold WebSocket_close_call, after_close. wsimpl.
  destruct (nth_error socks ws) as [[]|]; wsimpl; rewrite ?app_nil_r;
    reflexivity.
Qed.

Lemma disconnectWebSocket_shape w :
  disconnectWebSocket w =
  mkWorld (isNegotiating w) (JNumber (0 # 1)) false []
    (mkDebugInfo "Disconnected" EmptyString)
    None None None None (whisperIdCounter w)
    (match wsRef w with
     | Some ws => after_close ws (sockets w)
     | None => sockets w
     end)
    (now w) (timers w)
    (console w
     ++ match wsRef w with Some _ => ["[WS] Closing connection"] | None => [] end
     ++ ["[AUDIO] Stopping audio capture"])
    (effects w
     ++ match wsRef w with Some ws => [WebSocket_close ws] | None => [] end
     ++ releases w).
Proof.
  unfold disconnectWebSocket. open_world w.
  destruct wsr as [s|]; cbv beta iota zeta delta [wsRef];
    rewrite ?WebSocket_close_call_shape, stopAudioCapture_shape;
    wsimpl; cbn [app]; rewrite <- ?app_assoc, ?app_nil_r; reflexivity.
Qed.

Lemma onclose_shape code w :
  onclose code w =
  mkWorld (isNegotiating w) (audioLevel w) false (whispers w)
    (mkDebugInfo (closed_status code) (lastMessage (debugInfo w)))
    (wsRef w) None None None (whisperIdCounter w) (sockets w) (now w)
    (timers w)
    (console w ++ ["[WS] Disconnected"; "[AUDIO] Stopping audio capture"])
    (effects w ++ releases w).
Proof.
  unfold onclose. cbv zeta. rewrite stopAudioCapture_shape.
  open_world w. wsimpl. rewrite <- ?app_assoc. reflexivity.
Qed.

Lemma disconnectWebSocket_torn_down w : torn_down (disconnectWebSocket w).
Proof. rewrite disconnectWebSocket_shape. repeat split. Qed.

Lemma torn_down_stop w :
  torn_down w ->
  disconnectWebSocket w = console_log "[AUDIO] Stopping audio capture" w.
Proof.
  rewrite disconnectWebSocket_shape.
  open_world w. unfold torn_down, Disconnected, capture_stopped.
  cbn. intros ((-> & -> & ->) & -> & -> & -> & -> & ->).
  cbn. rewrite app_nil_r. reflexivity.
Qed.

Lemma stop_tears_down w :
  isNegotiating w = true ->
  torn_down (setIsNegotiating false w) /\
  isNegotiating (setIsNegotiating false w) = false.
Proof.
  intros H. unfold setIsNegotiating. rewrite H. cbn [Bool.eqb].
  cbv zeta iota. split.
  - apply disconnectWebSocket_torn_down.
  - now rewrite !disconnectWebSocket_shape.
Qed.

Lemma stop_shape w :
  isNegotiating w = true ->
  setIsNegotiating false w =
  mkWorld false (JNumber (0 # 1)) false []
    (mkDebugInfo "Disconnected" EmptyString)
    None None None None (whisperIdCounter w) (closed_sockets w)
    (now w) (timers w)
    (console w
     ++ match wsRef w with Some _ => ["[WS] Closing connection"] | None => [] end
     ++ ["[AUDIO] Stopping audio capture"; "[AUDIO] Stopping audio capture"])
    (effects w ++ stop_calls w).
Proof.
  intros H. unfold setIsNegotiating. rewrite H. cbn [Bool.eqb].
  cbv zeta iota. rewrite !disconnectWebSocket_shape.
  open_world w. unfold closed_sockets, stop_calls. wsimpl. cbn [app].
  rewrite !app_nil_r, <- !app_assoc. reflexivity.
Qed.

Lemma capture_started_shape stream context processor w :
  after_getUserMedia (Fulfilled stream) (Fulfilled (context, false))
    (Fulfilled processor) w =
  mkWorld (isNegotiating w) (audioLevel w) (isConnected w) (whispers w)
    (debugInfo w) (wsRef w) (Some context) (Some stream) (Some processor)
    (whisperIdCounter w) (sockets w) (now w) (timers w)
    (console w ++ ["[AUDIO] ✅ Microphone access granted";
                   "[AUDIO] AudioContext state:";
                   "[AUDIO] ✅ Audio pipeline connected"])
    (effects w ++ [AudioContext_new context;
                   Pipeline_connected stream context processor]).
Proof.
  open_world w. unfold after_getUserMedia, connect_pipeline. wsimpl.
  rewrite <- !app_assoc. reflexivity.
Qed.

Lemma nth_error_list_set_same {A} i (x y : A) l :
  nth_error l i = Some y -> nth_error (list_set i x l) i = Some x.
Proof.
  revert i. induction l as [|z l IH]; intros [|i]; cbn; try discriminate.
  - reflexivity.
  - apply IH.
Qed.

Lemma closed_readyState ws w :
  wsRef w = Some ws ->
  nth_error (closed_sockets w) ws =
  match readyState ws w with
  | Some CONNECTING | Some OPEN => Some CLOSING
  | other => other
  end.
Proof.
  intros R. unfold closed_sockets, after_close, readyState. rewrite R.
  destruct (nth_error (sockets w) ws) as [[]|] eqn:E;
    try exact E; exact (nth_error_list_set_same _ _ _ _ E).
Qed.




(** *** Capture callback on a socket that is not open *)

Lemma onaudioprocess_not_open inputData w :
  socket_open w = false -> onaudioprocess inputData w = w.
Proof.
  unfold socket_open, onaudioprocess.
  destruct (wsRef w) as [s|]; [|reflexivity].
  now intros ->.
Qed.

(** C7: a block captured while the socket is not open changes nothing, so
    nothing of it can be sent then or by any later input. *)
Theorem closed_socket_drops_block inputData w :
  socket_open w = false ->
  onaudioprocess inputData w = w /\
  effects (onaudioprocess inputData w) = effects w /\
  forall inputs,
    run JSON_parse ToString has_getUserMedia inputs (onaudioprocess inputData w)
    = run JSON_parse ToString has_getUserMedia inputs w.
Proof.
  intros H. rewrite (onaudioprocess_not_open inputData w H). auto.
Qed.

(** *** Idempotence of stop *)

(** C9: a stop on a torn-down session only repeats the console line of
    [stopAudioCapture]; a stop intent on a component that is not
    negotiating does nothing at all; [stopAudioCapture] with no capture
    resource held releases nothing. *)
Theorem stop_idempotent :
  (forall w,
     torn_down w ->
     disconnectWebSocket w = console_log "[AUDIO] Stopping audio capture" w) /\
  (forall w,
     disconnectWebSocket (disconnectWebSocket w) =
     console_log "[AUDIO] Stopping audio capture" (disconnectWebSocket w)) /\
  (forall w, isNegotiating w = false -> setIsNegotiating false w = w) /\
  (forall w,
     setIsNegotiating false (setIsNegotiating false w)
     = setIsNegotiating false w) /\
  (forall w,
     capture_stopped w ->
     stopAudioCapture w = console_log "[AUDIO] Stopping audio capture" w /\
     effects (stopAudioCapture w) = effects w).
Proof.
  split; [|split; [|split; [|split]]].
  - apply torn_down_stop.
  - intros w. apply torn_down_stop, disconnectWebSocket_torn_down.
  - intros w H. unfold setIsNegotiating. now rewrite H.
  - intros w. unfold setIsNegotiating at 2 3.
    destruct (isNegotiating w) eqn:E; cbn [Bool.eqb]; cbv zeta iota.
    + unfold setIsNegotiating.
      rewrite !disconnectWebSocket_shape. reflexivity.
    + unfold setIsNegotiating. now rewrite E.
  - intros w (P & M & C). open_world w. cbn in P, M, C. subst.
    rewrite stopAudioCapture_shape. wsimpl. cbn [app].
    rewrite app_nil_r. split; reflexivity.
Qed.

(** C9, on the component as it is after its first effect run. *)
Lemma stop_idempotent_witness :
  torn_down booted /\ isNegotiating booted = false /\ capture_stopped booted /\
  disconnectWebSocket booted
    = console_log "[AUDIO] Stopping audio capture" booted /\
  setIsNegotiating false booted = booted /\
  stopAudioCapture booted = console_log "[AUDIO] Stopping audio capture" booted.
Proof.
  assert (T : torn_down booted) by (apply disconnectWebSocket_torn_down).
  assert (C : capture_stopped booted) by apply T.
  split; [exact T|]. split; [reflexivity|]. split; [exact C|].
  split; [apply (proj1 stop_idempotent booted T)|].
  split; [apply (proj1 (proj2 (proj2 stop_idempotent)) booted); reflexivity|].
  apply (proj2 (proj2 (proj2 (proj2 stop_idempotent))) booted C).
Defined.

(** *** The router *)

Lemma traced_nil w : traced [] [] w = w.
Proof. open_world w. wsimpl. now rewrite !app_nil_r. Qed.

Lemma traced_traced c1 e1 c2 e2 w :
  traced c2 e2 (traced c1 e1 w) = traced (c1 ++ c2) (e1 ++ e2) w.
Proof. open_world w. wsimpl. now rewrite !app_assoc. Qed.

Lemma playPcmChunk_shape a w :
  playPcmChunk ToString a w =
  traced (play_lines ToString a)
    (playPcmChunk_called a :: play_calls ToString a) w.
Proof.
  open_world w. unfold playPcmChunk, play_lines, play_calls.
  fold (atob_argument ToString a).
  destruct (Base64.atob (atob_argument ToString a)) as [bytes|];
    [destruct (Pcm.decode_bytes bytes)|];
    wsimpl; rewrite <- ?app_assoc, ?app_nil_r; reflexivity.
Qed.

Lemma truthy_Some v : truthy v = true -> exists a, v = Some a.
Proof. destruct v as [a|]; [eauto | discriminate]. Qed.

Lemma typed_excludes_legacy data :
  typed_audio data = true -> legacy_audio data = false.
Proof.
  unfold typed_audio, legacy_audio.
  destruct (prop data "type") as [[| | |s| |]|]; cbn; try discriminate.
  destruct (String.eqb s "audio") eqn:E; [|discriminate].
  apply String.eqb_eq in E. subst. intros _. now rewrite andb_false_r.
Qed.

Lemma whisper_excludes_audio data :
  creates_whisper data = true ->
  typed_audio data = false /\ legacy_audio data = false.
Proof.
  unfold creates_whisper, typed_audio, legacy_audio.
  destruct (prop data "type") as [[| | |s| |]|]; cbn; try discriminate.
  destruct (String.eqb s "whisper") eqn:E; [|discriminate].
  apply String.eqb_eq in E. subst. intros _. cbn.
  now rewrite andb_false_r.
Qed.

Lemma route_audio_stages data w :
  route_legacy_audio ToString data (route_audio ToString data w) =
  traced (audio_lines ToString data) (audio_calls ToString data) w.
Proof.
  unfold route_legacy_audio, route_audio, audio_lines, audio_calls.
  fold (typed_audio data). fold (legacy_audio data).
  destruct (typed_audio data) eqn:T.
  - rewrite (typed_excludes_legacy data T).
    destruct (prop data "audio") as [a|]; cbn [orb].
    + rewrite playPcmChunk_shape. open_world w. wsimpl.
      now rewrite <- !app_assoc.
    + now rewrite traced_nil.
  - destruct (legacy_audio data), (prop data "audio") as [a|]; cbn [orb];
      rewrite ?playPcmChunk_shape, ?traced_nil; reflexivity.
Qed.

Lemma route_legacy_text_shape data w :
  route_legacy_text data w = traced (text_lines data) [] w.
Proof.
  unfold route_legacy_text, text_lines.
  destruct (truthy (prop data "text") && negb (truthy (prop data "type"))).
  - open_world w. wsimpl. now rewrite app_nil_r.
  - now rewrite traced_nil.
Qed.

Lemma route_whisper_cases data w :
  (creates_whisper data = true /\
   exists t, prop data "text" = Some t /\
             route_whisper data w = with_whisper t w) \/
  (creates_whisper data = false /\ route_whisper data w = w).
Proof.
  unfold route_whisper. fold (creates_whisper data).
  destruct (creates_whisper data) eqn:C; [left | right; auto].
  split; [reflexivity|].
  unfold creates_whisper in C. apply andb_true_iff in C as [_ C].
  destruct (truthy_Some _ C) as [t E]. exists t. rewrite E.
  split; [reflexivity|]. open_world w. reflexivity.
Qed.

Lemma route_volume_shape data w :
  route_volume data w =
  setAudioLevel
    (match prop data "vol" with Some v => v | None => audioLevel w end) w.
Proof.
  unfold route_volume. destruct (prop data "vol"); [reflexivity|].
  open_world w. reflexivity.
Qed.

(** The router on a parsed message, as the annotation and volume stages
    followed by console lines and platform calls. *)
Lemma route_shape data w :
  data <> JNull ->
  route ToString data w =
  Fulfilled
    (traced (audio_lines ToString data ++ text_lines data) (audio_calls ToString data)
       (route_whisper data (route_volume data w))).
Proof.
  intros H. unfold route.
  rewrite route_legacy_text_shape, route_audio_stages, traced_traced.
  rewrite app_nil_r.
  destruct data; try reflexivity. contradiction.
Qed.

Lemma onmessage_not_json raw w :
  JSON_parse raw = None ->
  onmessage JSON_parse ToString raw w =
  console_error "[WS] Error parsing message:" (preview raw w).
Proof. intros H. unfold onmessage. now rewrite H. Qed.

Lemma onmessage_null raw w :
  JSON_parse raw = Some JNull ->
  onmessage JSON_parse ToString raw w =
  console_error "[WS] Error parsing message:" (preview raw w).
Proof. intros H. unfold onmessage. now rewrite H. Qed.

Lemma onmessage_parsed raw data w :
  JSON_parse raw = Some data -> data <> JNull ->
  onmessage JSON_parse ToString raw w =
  traced (audio_lines ToString data ++ text_lines data) (audio_calls ToString data)
    (route_whisper data (route_volume data (preview raw w))).
Proof.
  intros H N. unfold onmessage. cbv zeta. rewrite H.
  fold (preview raw w). now rewrite route_shape.
Qed.

Lemma stages_session data w :
  session (route_whisper data (route_volume data w)) = session_after data w.
Proof.
  unfold session_after, new_whispers.
  destruct (route_whisper_cases data (route_volume data w))
    as [(C & t & E & ->) | (C & ->)]; rewrite C, ?E, route_volume_shape.
  - open_world w. reflexivity.
  - open_world w. wsimpl. now rewrite app_nil_r.
Qed.

Lemma stages_effects data w :
  effects (route_whisper data (route_volume data w)) = effects w.
Proof.
  destruct (route_whisper_cases data (route_volume data w))
    as [(C & t & E & ->) | (C & ->)]; rewrite route_volume_shape;
    open_world w; reflexivity.
Qed.

(** A parsed message: the session state it leaves and the platform calls
    it makes. *)
Lemma onmessage_summary raw data w :
  JSON_parse raw = Some data ->
  session (onmessage JSON_parse ToString raw w) = session_after data w /\
  effects (onmessage JSON_parse ToString raw w) = effects w ++ audio_calls ToString data.
Proof.
  intros H.
  assert (D : data = JNull \/ data <> JNull)
    by (destruct data; auto; right; discriminate).
  destruct D as [-> | N].
  - rewrite (onmessage_null raw w H). split.
    + open_world w. unfold session_after. wsimpl. cbn. now rewrite app_nil_r.
    + open_world w. wsimpl. cbn. now rewrite app_nil_r.
  - rewrite (onmessage_parsed raw data w H N). split.
    + change (session (traced ?c ?e ?x)) with (session x).
      rewrite stages_session. open_world w. reflexivity.
    + change (effects (traced ?c ?e ?x)) with (effects x ++ e).
      rewrite stages_effects. open_world w. reflexivity.
Qed.

Lemma play_calls_no_call a : filter is_playback_call (play_calls ToString a) = [].
Proof.
  unfold play_calls.
  destruct (Base64.atob _) as [bytes|]; [destruct (Pcm.decode_bytes bytes)|];
    reflexivity.
Qed.

Lemma playback_calls_app w w' e :
  effects w' = effects w ++ e ->
  playback_calls w' = (playback_calls w + length (filter is_playback_call e))%nat.
Proof.
  intros H. unfold playback_calls. now rewrite H, filter_app, length_app.
Qed.

(** C4: the four dispatch rules of the router. *)
Theorem router_dispatch raw data w :
  JSON_parse raw = Some data ->
  let w' := onmessage JSON_parse ToString raw w in
  (creates_whisper data = true ->
     (exists t, prop data "text" = Some t /\
        whispers w' = whispers w ++ [mkWhisper (whisperIdCounter w) t (now w)]) /\
     playback_calls w' = playback_calls w) /\
  (typed_audio data = true ->
     playback_calls w' = S (playback_calls w) /\ whispers w' = whispers w) /\
  (prop data "type" = None -> truthy (prop data "audio") = true ->
     playback_calls w' = S (playback_calls w) /\ whispers w' = whispers w) /\
  (prop data "type" = None -> truthy (prop data "text") = true ->
     whispers w' = whispers w).
Proof.
  intros H w'. subst w'.
  destruct (onmessage_summary raw data w H) as [S E].
  apply (f_equal s_whispers) in S. cbn [session s_whispers session_after] in S.
  pose proof (playback_calls_app _ _ _ E) as P.
  unfold new_whispers in S. unfold audio_calls in P.
  split; [|split; [|split]].
  - intros C. destruct (whisper_excludes_audio data C) as [T L].
    rewrite C in S. rewrite T, L in P.
    unfold creates_whisper in C. apply andb_true_iff in C as [_ C].
    destruct (truthy_Some _ C) as [t Et]. rewrite Et in S.
    split; [eauto|].
    rewrite P. destruct (prop data "audio"); cbn; lia.
  - intros T.
    assert (C : creates_whisper data = false).
    { destruct (creates_whisper data) eqn:C; [|reflexivity].
      destruct (whisper_excludes_audio data C). congruence. }
    rewrite C, app_nil_r in S. rewrite T in P. split; [|exact S].
    unfold typed_audio in T. apply andb_true_iff in T as [_ T].
    destruct (truthy_Some _ T) as [a Ea]. rewrite Ea in P.
    rewrite P. cbn. rewrite play_calls_no_call. cbn. lia.
  - intros Ty A.
    assert (C : creates_whisper data = false)
      by (unfold creates_whisper; now rewrite Ty).
    assert (L : legacy_audio data = true)
      by (unfold legacy_audio; now rewrite Ty, A).
    rewrite C, app_nil_r in S. rewrite L, orb_true_r in P. split; [|exact S].
    destruct (truthy_Some _ A) as [a Ea]. rewrite Ea in P.
    rewrite P. cbn. rewrite play_calls_no_call. cbn. lia.
  - intros Ty _.
    assert (C : creates_whisper data = false)
      by (unfold creates_whisper; now rewrite Ty).
    now rewrite C, app_nil_r in S.
Qed.



(** *** Effect of every handler on the annotation lifecycle *)

(** A change is a matter of the loop state only. *)
Lemma loop_change_from timer w w0 w' :
  loop_state w0 = loop_state w -> loop_change timer w0 w' ->
  loop_change timer w w'.
Proof.
  unfold loop_state. intros L P. injection L as L1 L2 L3 L4 L5.
  destruct P as [P | a d Hd Ha P | Ht P | t Ht P | k Ht P];
    unfold loop_state in P; rewrite ?L1, ?L2, ?L3, ?L4, ?L5 in *;
    [apply unchanged | apply (scheduled _ _ _ a d) | apply cleared
     | apply (created _ _ _ t) | apply (removed _ _ _ k)];
    unfold loop_state; rewrite ?P; auto.
Qed.

Lemma disconnectWebSocket_loop w :
  loop_state (disconnectWebSocket w) =
  (isNegotiating w, [], whisperIdCounter w, timers w, now w).
Proof. now rewrite disconnectWebSocket_shape. Qed.

Lemma disconnectWebSocket_fields w :
  isNegotiating (disconnectWebSocket w) = isNegotiating w /\
  whispers (disconnectWebSocket w) = [] /\
  whisperIdCounter (disconnectWebSocket w) = whisperIdCounter w /\
  timers (disconnectWebSocket w) = timers w /\
  now (disconnectWebSocket w) = now w.
Proof. rewrite disconnectWebSocket_shape. repeat split. Qed.

Lemma connectWebSocket_loop w :
  loop_state (connectWebSocket w) =
  (isNegotiating w, [], whisperIdCounter w, timers w, now w).
Proof. reflexivity. Qed.

Lemma setIsNegotiating_cases b w :
  (isNegotiating w = b /\ setIsNegotiating b w = w) \/
  (isNegotiating w = negb b /\
   loop_state (setIsNegotiating b w) =
     (b, [], whisperIdCounter w, timers w, now w)).
Proof.
  unfold setIsNegotiating.
  destruct (Bool.eqb (isNegotiating w) b) eqn:E.
  - left. apply eqb_prop in E. auto.
  - right. split.
    + destruct (isNegotiating w), b; try discriminate; reflexivity.
    + cbv zeta.
      destruct (disconnectWebSocket_fields (setIsNegotiating_state b w))
        as (D1 & D2 & D3 & D4 & D5).
      destruct b; cbv iota;
        rewrite ?connectWebSocket_loop, ?disconnectWebSocket_loop;
        rewrite D1, D3, D4, D5; reflexivity.
Qed.

Lemma setIsNegotiating_change timer b w :
  (timer = true -> b = false) ->
  loop_change timer w (setIsNegotiating b w).
Proof.
  intros Ht.
  destruct (setIsNegotiating_cases b w) as [[_ ->] | [E L]].
  - now apply unchanged.
  - apply cleared.
    + intros T. rewrite E, (Ht T). reflexivity.
    + rewrite L, E. now rewrite negb_involutive.
Qed.

Lemma capture_failed_loop message w :
  loop_state (capture_failed message w) =
  (isNegotiating w, whispers w, whisperIdCounter w,
   timers w ++ [(now w + 2000, StopNegotiating)], now w).
Proof. reflexivity. Qed.

Lemma capture_failed_change timer message w :
  loop_change timer w (capture_failed message w).
Proof.
  apply (scheduled _ _ _ StopNegotiating 2000); [lia | auto |].
  apply capture_failed_loop.
Qed.

Lemma startAudioCapture_change timer w :
  loop_change timer w (startAudioCapture has_getUserMedia w).
Proof.
  unfold startAudioCapture. destruct has_getUserMedia.
  - now apply unchanged.
  - apply (scheduled _ _ _ StopNegotiating 2000); [lia | auto | reflexivity].
Qed.

Lemma connect_pipeline_change timer stream graph w :
  loop_change timer w (connect_pipeline stream graph w).
Proof.
  unfold connect_pipeline.
  destruct (audioContextRef w); [destruct graph|];
    try apply capture_failed_change.
  now apply unchanged.
Qed.

Lemma after_getUserMedia_change timer stream context graph w :
  loop_change timer w (after_getUserMedia stream context graph w).
Proof.
  unfold after_getUserMedia.
  destruct stream as [s|m]; [|apply capture_failed_change].
  destruct context as [[c suspended]|m].
  - destruct suspended; [now apply unchanged|].
    cbv zeta. eapply loop_change_from; [|apply connect_pipeline_change].
    reflexivity.
  - apply (scheduled _ _ _ StopNegotiating 2000); [lia | auto | reflexivity].
Qed.

Lemma after_resume_change timer stream resumed graph w :
  loop_change timer w (after_resume stream resumed graph w).
Proof.
  unfold after_resume.
  destruct resumed as [u|m]; [|apply capture_failed_change].
  cbv zeta. eapply loop_change_from; [|apply connect_pipeline_change].
  reflexivity.
Qed.

Lemma onmessage_change raw w :
  loop_change false w (onmessage JSON_parse ToString raw w).
Proof.
  destruct (JSON_parse raw) as [data|] eqn:H.
  - assert (D : data = JNull \/ data <> JNull)
      by (destruct data; auto; right; discriminate).
    destruct D as [-> | N].
    + rewrite (onmessage_null raw w H). now apply unchanged.
    + rewrite (onmessage_parsed raw data w H N).
      set (x := route_volume data (preview raw w)).
      assert (L : loop_state x = loop_state w).
      { unfold x. rewrite route_volume_shape. reflexivity. }
      apply (loop_change_from false w x); [exact L|].
      destruct (route_whisper_cases data x) as [(_ & t & _ & ->) | (_ & ->)].
      * apply (created _ _ _ t); reflexivity.
      * now apply unchanged.
  - rewrite (onmessage_not_json raw w H). now apply unchanged.
Qed.

Lemma handle_change e w :
  loop_change false w (handle JSON_parse ToString e w).
Proof.
  unfold handle. destruct (deliverable e w); cbn [negb];
    [|now apply unchanged].
  destruct e.
  - apply setIsNegotiating_change. discriminate.
  - apply setIsNegotiating_change. discriminate.
  - apply (scheduled _ _ _ StartAudioCapture 100); [lia | auto | reflexivity].
  - apply onmessage_change.
  - now apply unchanged.
  - apply unchanged. rewrite onclose_shape. reflexivity.
  - apply after_getUserMedia_change.
  - apply after_resume_change.
  - apply unchanged. unfold onaudioprocess.
    destruct (wsRef w); [|reflexivity].
    destruct (negb _); reflexivity.
Qed.

Lemma fire_change a w : loop_change true w (fire has_getUserMedia a w).
Proof.
  destruct a; cbn [fire].
  - apply startAudioCapture_change.
  - now apply (removed _ _ _ whisperId).
  - now apply setIsNegotiating_change.
Qed.

(** *** What a change preserves *)

Lemma loop_change_now timer w w' : loop_change timer w w' -> now w' = now w.
Proof.
  intros [P | a d Hd Ha P | Ht P | t Ht P | k Ht P]; unfold loop_state in P;
    now injection P.
Qed.

Lemma loop_change_counter timer w w' :
  loop_change timer w w' ->
  whisperIdCounter w' = whisperIdCounter w \/
  (timer = false /\ whisperIdCounter w' = whisperIdCounter w + 1).
Proof.
  intros [P | a d Hd Ha P | Ht P | t Ht P | k Ht P]; unfold loop_state in P;
    injection P; auto.
Qed.

Lemma loop_change_negotiating w w' :
  loop_change true w w' ->
  isNegotiating w' = isNegotiating w \/ isNegotiating w' = false.
Proof.
  intros [P | a d Hd Ha P | Ht P | t Ht P | k Ht P]; unfold loop_state in P;
    injection P; auto.
  intros _ _ _ _ ->. rewrite Ht by reflexivity. auto.
Qed.

Lemma loop_change_timers timer w w' :
  loop_change timer w w' ->
  exists added,
    timers w' = timers w ++ added /\
    Forall (fun tm => forall k, snd tm = RemoveWhisper k ->
                                timer = false /\
                                k = whisperIdCounter w /\
                                fst tm = now w + 10000) added.
Proof.
  intros [P | a d Hd Ha P | Ht P | t Ht P | k Ht P]; unfold loop_state in P;
    injection P as _ _ _ T _.
  - exists []. rewrite app_nil_r. repeat split; auto.
  - exists [(now w + d, a)]. repeat split; auto.
    constructor; [|constructor]. cbn. intros k E.
    destruct Ha as [-> | [_ ->]]; discriminate.
  - exists []. rewrite app_nil_r. repeat split; auto.
  - exists [(now w + 10000, RemoveWhisper (whisperIdCounter w))].
    repeat split; auto.
    constructor; [|constructor]. cbn. intros k E. injection E as <-. auto.
  - exists []. rewrite app_nil_r. repeat split; auto.
Qed.

(** What a change does to the live list: an annotation that is there
    afterwards was there before or has just been created; one that was
    there stays unless the list is cleared or its own timer runs. *)
Lemma loop_change_whispers timer w w' x :
  loop_change timer w w' ->
  (In x (whispers w') ->
     In x (whispers w) \/ (timer = false /\ id x = whisperIdCounter w)) /\
  (In x (whispers w) -> isNegotiating w' = isNegotiating w ->
     In x (whispers w') \/
     (timer = true /\
      whispers w' = filter (fun y => negb (id y =? id x)) (whispers w))).
Proof.
  intros [P | a d Hd Ha P | Ht P | t Ht P | k Ht P]; unfold loop_state in P;
    injection P as N W _ _ _; rewrite W.
  - auto.
  - auto.
  - split; [contradiction|]. intros _ E. rewrite N in E.
    destruct (isNegotiating w); discriminate.
  - split.
    + intros H. apply in_app_or in H as [H | [<- | []]]; auto.
    + intros H _. left. apply in_or_app. auto.
  - split.
    + intros H. apply filter_In in H as [H _]. auto.
    + intros H _. destruct (Z.eq_dec (id x) k) as [<- | D].
      * right. auto.
      * left. apply filter_In. split; [assumption|].
        apply negb_true_iff, Z.eqb_neq. assumption.
Qed.

Lemma StronglySorted_snoc {A} (R : A -> A -> Prop) l y :
  StronglySorted R l -> Forall (fun x => R x y) l ->
  StronglySorted R (l ++ [y]).
Proof.
  induction 1 as [|x l S IH F]; intros H; cbn.
  - repeat constructor.
  - inversion_clear H. constructor; [auto|].
    apply Forall_app. auto.
Qed.

Lemma StronglySorted_filter {A} (R : A -> A -> Prop) f l :
  StronglySorted R l -> StronglySorted R (filter f l).
Proof.
  induction 1 as [|x l S IH F]; cbn; [constructor|].
  destruct (f x); [|assumption].
  constructor; [assumption|].
  rewrite Forall_forall in *. intros y Hy. apply filter_In in Hy as [Hy _].
  auto.
Qed.

Lemma Forall_filter {A} (P : A -> Prop) f l :
  Forall P l -> Forall P (filter f l).
Proof.
  rewrite !Forall_forall. intros H x Hx. apply filter_In in Hx as [Hx _]. auto.
Qed.

Lemma removal_below_mono c c' tm :
  c <= c' -> removal_below c tm -> removal_below c' tm.
Proof. unfold removal_below. destruct (snd tm); auto. lia. Qed.

Lemma loop_change_ids timer w w' :
  loop_change timer w w' -> ids_invariant w -> ids_invariant w'.
Proof.
  intros C [B S R].
  destruct C as [P | a d Hd Ha P | Ht P | t Ht P | k Ht P];
    unfold loop_state in P; injection P as _ W N T _.
  - constructor; rewrite ?W, ?N, ?T; assumption.
  - constructor; rewrite ?W, ?N, ?T; try assumption.
    apply Forall_app. split; [assumption|].
    constructor; [|constructor]. unfold removal_below. cbn.
    destruct Ha as [-> | [_ ->]]; exact I.
  - constructor; rewrite ?W, ?N, ?T; try assumption; constructor.
  - constructor; rewrite ?W, ?N, ?T.
    + apply Forall_app. split.
      * eapply Forall_impl; [|exact B]. cbn. intros; lia.
      * constructor; [cbn; lia | constructor].
    + apply StronglySorted_snoc; [assumption|].
      eapply Forall_impl; [|exact B]. cbn. intros; lia.
    + apply Forall_app. split.
      * eapply Forall_impl; [|exact R]. intros tm.
        apply removal_below_mono. lia.
      * constructor; [|constructor]. unfold removal_below. cbn. lia.
  - constructor; rewrite ?W, ?N, ?T; try assumption.
    + now apply Forall_filter.
    + now apply StronglySorted_filter.
Qed.

(** *** The timer queue *)

Lemma earliest_none l : earliest l = None -> l = [].
Proof.
  destruct l as [|[d a] l]; [reflexivity|]. cbn.
  destruct (earliest l); discriminate.
Qed.

Lemma earliest_least l d :
  earliest l = Some d ->
  Forall (fun tm => d <= fst tm) l /\ exists a, In (d, a) l.
Proof.
  revert d. induction l as [|[d' a'] l IH]; intros d; cbn; [discriminate|].
  destruct (earliest l) as [m|] eqn:E.
  - intros H. injection H as <-.
    destruct (IH m eq_refl) as [F [a Ha]].
    split.
    + constructor; [cbn; lia|].
      eapply Forall_impl; [|exact F]. cbn. intros; lia.
    + destruct (Z.min_spec d' m) as [[_ ->] | [_ ->]]; eauto.
  - intros H. injection H as <-.
    apply earliest_none in E. subst.
    split; [repeat constructor; cbn; lia | eauto].
Qed.

Lemma take_timer_split d l a rest :
  take_timer d l = Some (a, rest) ->
  exists l1 l2, l = l1 ++ (d, a) :: l2 /\ rest = l1 ++ l2.
Proof.
  revert rest. induction l as [|[d' a'] l IH]; intros rest; cbn;
    [discriminate|].
  destruct (d' =? d) eqn:E.
  - apply Z.eqb_eq in E. subst. intros H. injection H as <- <-.
    exists [], l. auto.
  - destruct (take_timer d l) as [[b r]|]; [|discriminate].
    intros H. injection H as <- <-.
    destruct (IH r eq_refl) as (l1 & l2 & -> & ->).
    exists ((d', a') :: l1), l2. auto.
Qed.

Lemma take_timer_some d a l :
  In (d, a) l -> exists b rest, take_timer d l = Some (b, rest).
Proof.
  induction l as [|[d' a'] l IH]; cbn; [contradiction|].
  intros [E | H].
  - injection E as -> ->. rewrite Z.eqb_refl. eauto.
  - destruct (d' =? d); [eauto|].
    destruct (IH H) as (b & rest & ->). eauto.
Qed.

Lemma advance_step fuel t w :
  advance has_getUserMedia (S fuel) t w =
  match earliest (timers w) with
  | Some d =>
      if d <=? t then
        match take_timer d (timers w) with
        | Some (a, rest) =>
            advance has_getUserMedia fuel t (fire has_getUserMedia a (pop d rest w))
        | None => set_now (Z.max (now w) t) w
        end
      else set_now (Z.max (now w) t) w
  | None => set_now (Z.max (now w) t) w
  end.
Proof. reflexivity. Qed.

(** A property that holds at the start, survives every timer callback and
    the final clock update, holds after [advance]. *)
Lemma advance_preserves (P : World -> Prop) t :
  (forall w d a l1 l2,
     P w -> timers w = l1 ++ (d, a) :: l2 -> d <= t ->
     Forall (fun tm => d <= fst tm) (timers w) ->
     P (fire has_getUserMedia a (pop d (l1 ++ l2) w))) ->
  (forall w, P w -> P (set_now (Z.max (now w) t) w)) ->
  forall fuel w, P w -> P (advance has_getUserMedia fuel t w).
Proof.
  intros Hfire Hend. induction fuel as [|fuel IH]; intros w Hw.
  - cbn. auto.
  - rewrite advance_step.
    destruct (earliest (timers w)) as [d|] eqn:E; [|auto].
    destruct (d <=? t) eqn:L; [|auto].
    destruct (take_timer d (timers w)) as [[a rest]|] eqn:T; [|auto].
    apply Z.leb_le in L.
    destruct (take_timer_split _ _ _ _ T) as (l1 & l2 & E1 & ->).
    apply IH. eapply Hfire; eauto. apply earliest_least, E.
Qed.

Lemma pending_weight_app l1 l2 :
  list_sum (map timer_weight (l1 ++ l2)) =
  (list_sum (map timer_weight l1) + list_sum (map timer_weight l2))%nat.
Proof. now rewrite map_app, list_sum_app. Qed.

Lemma fire_weight a d l1 l2 w :
  timers w = l1 ++ (d, a) :: l2 ->
  (pending_weight (fire has_getUserMedia a (pop d (l1 ++ l2) w))
   < pending_weight w)%nat.
Proof.
  intros E. unfold pending_weight at 2. rewrite E.
  rewrite pending_weight_app. cbn [map list_sum].
  assert (T : exists added,
             timers (fire has_getUserMedia a (pop d (l1 ++ l2) w))
             = (l1 ++ l2) ++ added /\
             (list_sum (map timer_weight added) < timer_weight (d, a))%nat).
  { destruct a; cbn [fire].
    - unfold startAudioCapture. destruct has_getUserMedia.
      + exists []. split; [symmetry; apply app_nil_r | cbn; lia].
      + eexists. split; [reflexivity | cbn; lia].
    - exists []. split; [symmetry; apply app_nil_r | cbn; lia].
    - exists []. split; [|cbn; lia]. rewrite app_nil_r.
      destruct (setIsNegotiating_cases false (pop d (l1 ++ l2) w))
        as [[_ ->] | [_ L]]; [reflexivity|].
      unfold loop_state in L. now injection L. }
  destruct T as (added & T & W).
  unfold pending_weight. rewrite T, !pending_weight_app.
  change (list_sum (timer_weight (d, a) :: map timer_weight l2))
    with (timer_weight (d, a) + list_sum (map timer_weight l2))%nat.
  lia.
Qed.

(** With the fuel [elapse] gives it, [advance] runs every timer due by
    [t], also those scheduled on the way. *)
Lemma advance_complete t fuel w :
  (pending_weight w <= fuel)%nat ->
  Forall (fun tm => t < fst tm) (timers (advance has_getUserMedia fuel t w)).
Proof.
  revert w. induction fuel as [|fuel IH]; intros w Hf.
  - assert (E : timers w = []).
    { unfold pending_weight in Hf. destruct (timers w) as [|[d a] l];
        [reflexivity|]. cbn in Hf. destruct a; cbn in Hf; lia. }
    cbn. rewrite E. constructor.
  - rewrite advance_step.
    destruct (earliest (timers w)) as [d|] eqn:E.
    + destruct (earliest_least _ _ E) as [F [a Ha]].
      destruct (d <=? t) eqn:L.
      * destruct (take_timer_some _ _ _ Ha) as (b & rest & T). rewrite T.
        destruct (take_timer_split _ _ _ _ T) as (l1 & l2 & E1 & ->).
        apply IH. pose proof (fire_weight b d l1 l2 w E1). lia.
      * apply Z.leb_gt in L. cbn.
        eapply Forall_impl; [|exact F]. cbn. intros; lia.
    + apply earliest_none in E. cbn. rewrite E. constructor.
Qed.

Lemma advance_now t fuel w :
  now (advance has_getUserMedia fuel t w) = Z.max (now w) t.
Proof.
  revert w. induction fuel as [|fuel IH]; intros w; [reflexivity|].
  rewrite advance_step.
  destruct (earliest (timers w)) as [d|] eqn:E; [|reflexivity].
  destruct (d <=? t) eqn:L; [|reflexivity].
  destruct (take_timer d (timers w)) as [[a rest]|] eqn:T; [|reflexivity].
  rewrite IH. rewrite (loop_change_now _ _ _ (fire_change a _)).
  apply Z.leb_le in L. cbn. lia.
Qed.

Lemma elapse_complete dt w :
  Forall (fun tm => now w + Z.max 0 dt < fst tm)
    (timers (elapse has_getUserMedia dt w)) /\
  now (elapse has_getUserMedia dt w) = now w + Z.max 0 dt.
Proof.
  unfold elapse. split.
  - now apply advance_complete.
  - rewrite advance_now. lia.
Qed.

(** *** The id allocator along a run *)

#[local] Abbreviation elapse' := (elapse has_getUserMedia).
#[local] Abbreviation step' := (step JSON_parse ToString has_getUserMedia).
#[local] Abbreviation run' := (run JSON_parse ToString has_getUserMedia).

Lemma run_cons i inputs w : run' (i :: inputs) w = run' inputs (step' i w).
Proof. reflexivity. Qed.

Lemma pop_ids d a l1 l2 w :
  timers w = l1 ++ (d, a) :: l2 ->
  ids_invariant w -> ids_invariant (pop d (l1 ++ l2) w).
Proof.
  intros E [B S R]. constructor; cbn; try assumption.
  rewrite E in R. apply Forall_app in R as [R1 R2].
  inversion_clear R2. apply Forall_app. auto.
Qed.

Lemma elapse_ids dt w : ids_invariant w -> ids_invariant (elapse' dt w).
Proof.
  unfold elapse. apply advance_preserves.
  - intros x d a l1 l2 Hx E _ _.
    eapply loop_change_ids; [apply fire_change|].
    eapply pop_ids; eauto.
  - intros x [B S R]. constructor; assumption.
Qed.

Lemma step_ids i w : ids_invariant w -> ids_invariant (step' i w).
Proof.
  destruct i as [dt|e]; cbn [step].
  - apply elapse_ids.
  - apply loop_change_ids with (timer := false), handle_change.
Qed.

Lemma run_ids inputs w : ids_invariant w -> ids_invariant (run' inputs w).
Proof.
  revert w. induction inputs as [|i inputs IH]; intros w H; [exact H|].
  rewrite run_cons. apply IH, step_ids, H.
Qed.

Lemma booted_ids : ids_invariant booted.
Proof. constructor; cbn; constructor. Qed.

Lemma fire_counter a w :
  whisperIdCounter (fire has_getUserMedia a w) = whisperIdCounter w.
Proof.
  destruct (loop_change_counter _ _ _ (fire_change a w)) as [E | [E _]];
    [exact E | discriminate].
Qed.

Lemma elapse_counter dt w :
  whisperIdCounter (elapse' dt w) = whisperIdCounter w.
Proof.
  unfold elapse.
  apply (advance_preserves
           (fun x => whisperIdCounter x = whisperIdCounter w)).
  - intros x d a l1 l2 Hx _ _ _. now rewrite fire_counter.
  - auto.
  - reflexivity.
Qed.

Lemma handle_counter e w :
  whisperIdCounter (handle JSON_parse ToString e w) = whisperIdCounter w \/
  whisperIdCounter (handle JSON_parse ToString e w) = whisperIdCounter w + 1.
Proof.
  destruct (loop_change_counter _ _ _ (handle_change e w)) as [E | [_ E]];
    auto.
Qed.

Lemma step_counter i w : whisperIdCounter w <= whisperIdCounter (step' i w).
Proof.
  destruct i as [dt|e]; cbn [step].
  - rewrite elapse_counter. lia.
  - destruct (handle_counter e w); lia.
Qed.

Lemma run_counter inputs w :
  whisperIdCounter w <= whisperIdCounter (run' inputs w).
Proof.
  revert w. induction inputs as [|i inputs IH]; intros w; [cbn; lia|].
  rewrite run_cons. pose proof (step_counter i w). specialize (IH (step' i w)).
  lia.
Qed.

(** A message that creates an annotation: the loop state it leaves. *)
Lemma onmessage_creates raw data w :
  JSON_parse raw = Some data -> creates_whisper data = true ->
  exists t,
    prop data "text" = Some t /\
    loop_state (onmessage JSON_parse ToString raw w) =
      (isNegotiating w,
       whispers w ++ [mkWhisper (whisperIdCounter w) t (now w)],
       whisperIdCounter w + 1,
       timers w ++ [(now w + 10000, RemoveWhisper (whisperIdCounter w))],
       now w).
Proof.
  intros H C.
  assert (N : data <> JNull) by (intros ->; discriminate).
  rewrite (onmessage_parsed raw data w H N).
  destruct (route_whisper_cases data (route_volume data (preview raw w)))
    as [(_ & t & E & ->) | (C' & _)]; [|congruence].
  exists t. split; [exact E|].
  rewrite route_volume_shape. reflexivity.
Qed.

Lemma setIsNegotiating_counter b w :
  whisperIdCounter (setIsNegotiating b w) = whisperIdCounter w.
Proof.
  destruct (setIsNegotiating_cases b w) as [[_ ->] | [_ L]]; [reflexivity|].
  unfold loop_state in L. now injection L.
Qed.

(** C10: the id counter grows by one with each annotation and by nothing
    else; no teardown and no start resets it; so along any run, across
    sessions, ids in the live list are increasing and a later annotation
    has a larger id than an earlier one. *)
Theorem whisper_id_allocation :
  (forall raw data w,
     JSON_parse raw = Some data -> creates_whisper data = true ->
     whisperIdCounter (onmessage JSON_parse ToString raw w)
       = whisperIdCounter w + 1 /\
     exists t,
       whispers (onmessage JSON_parse ToString raw w)
         = whispers w ++ [mkWhisper (whisperIdCounter w) t (now w)]) /\
  (forall e w,
     whisperIdCounter (handle JSON_parse ToString e w) = whisperIdCounter w \/
     whisperIdCounter (handle JSON_parse ToString e w) = whisperIdCounter w + 1) /\
  (forall dt w, whisperIdCounter (elapse' dt w) = whisperIdCounter w) /\
  (forall w,
     whisperIdCounter (disconnectWebSocket w) = whisperIdCounter w /\
     whisperIdCounter (connectWebSocket w) = whisperIdCounter w /\
     forall b, whisperIdCounter (setIsNegotiating b w) = whisperIdCounter w) /\
  (forall inputs w, whisperIdCounter w <= whisperIdCounter (run' inputs w)) /\
  (forall inputs, ids_invariant (run' inputs booted)) /\
  (forall raw data w inputs,
     JSON_parse raw = Some data -> creates_whisper data = true ->
     whisperIdCounter w
     < whisperIdCounter (run' inputs (onmessage JSON_parse ToString raw w))).
Proof.
  split; [|split; [|split; [|split; [|split; [|split]]]]].
  - intros raw data w H C.
    destruct (onmessage_creates raw data w H C) as (t & _ & L).
    unfold loop_state in L. injection L as _ W N _ _. eauto.
  - apply handle_counter.
  - apply elapse_counter.
  - intros w. split; [|split].
    + apply disconnectWebSocket_fields.
    + reflexivity.
    + intros b. apply setIsNegotiating_counter.
  - apply run_counter.
  - intros inputs. apply run_ids, booted_ids.
  - intros raw data w inputs H C.
    destruct (onmessage_creates raw data w H C) as (t & _ & L).
    unfold loop_state in L. injection L as _ _ N _ _.
    pose proof (run_counter inputs (onmessage JSON_parse ToString raw w)).
    lia.
Qed.

(** *** Capture failure *)

Lemma setIsNegotiating_false w : isNegotiating (setIsNegotiating false w) = false.
Proof.
  destruct (setIsNegotiating_cases false w) as [[E ->] | [_ L]]; [exact E|].
  unfold loop_state in L. now injection L.
Qed.

Lemma failure_stops message w :
  isNegotiating (elapse' 2000 (capture_failed message w)) = false.
Proof.
  set (w0 := capture_failed message w).
  set (t := now w0 + Z.max 0 2000).
  set (P := fun x : World =>
              isNegotiating x = false \/
              exists d, d <= t /\ In (d, StopNegotiating) (timers x)).
  assert (H : P (elapse' 2000 w0)).
  { unfold elapse. fold t. apply advance_preserves.
    - intros x d0 a l1 l2 Hx E _ _.
      set (y := pop d0 (l1 ++ l2) x).
      destruct Hx as [F | (d & Hd & I)].
      + left.
        destruct (loop_change_negotiating _ _ (fire_change a y)) as [N | N];
          [rewrite N; exact F | exact N].
      + rewrite E in I. apply in_app_or in I as [I | [I | I]].
        * right. exists d. split; [exact Hd|].
          destruct (loop_change_timers _ _ _ (fire_change a y))
            as (added & -> & _).
          apply in_or_app. left. apply in_or_app. auto.
        * injection I as -> ->. left. apply setIsNegotiating_false.
        * right. exists d. split; [exact Hd|].
          destruct (loop_change_timers _ _ _ (fire_change a y))
            as (added & -> & _).
          apply in_or_app. left. apply in_or_app. auto.
    - intros x Hx. exact Hx.
    - right. exists (now w + 2000). split.
      + unfold t, w0. cbn. lia.
      + unfold w0. cbn. apply in_or_app. right. left. reflexivity. }
  destruct H as [H | (d & Hd & I)]; [exact H|].
  destruct (elapse_complete 2000 w0) as [F _]. fold t in F.
  rewrite Forall_forall in F. specialize (F _ I). cbn in F. lia.
Qed.

Lemma releases_no_request w : filter is_capture_request (releases w) = [].
Proof.
  unfold releases.
  destruct (processorRef w), (mediaStreamRef w), (audioContextRef w);
    reflexivity.
Qed.

Lemma disconnectWebSocket_requests w :
  capture_requests (disconnectWebSocket w) = capture_requests w.
Proof.
  unfold capture_requests. rewrite disconnectWebSocket_shape. cbn [effects].
  rewrite !filter_app, releases_no_request.
  destruct (wsRef w); cbn; now rewrite ?app_nil_r.
Qed.

Lemma setIsNegotiating_false_requests w :
  capture_requests (setIsNegotiating false w) = capture_requests w /\
  timers (setIsNegotiating false w) = timers w.
Proof.
  split.
  - unfold setIsNegotiating. destruct (Bool.eqb (isNegotiating w) false);
      [reflexivity|].
    cbv zeta iota. now rewrite !disconnectWebSocket_requests.
  - destruct (setIsNegotiating_cases false w) as [[_ ->] | [_ L]];
      [reflexivity|].
    unfold loop_state in L. now injection L.
Qed.

Lemma quiet_fire a d rest x :
  a <> StopNegotiating ->
  let y := fire has_getUserMedia a (pop d rest x) in
  (isNegotiating y = isNegotiating x /\ wsRef y = wsRef x /\
   processorRef y = processorRef x /\ mediaStreamRef y = mediaStreamRef x /\
   audioContextRef y = audioContextRef x /\ sockets y = sockets x) /\
  (audioLevel y = audioLevel x /\
   status (debugInfo y) = status (debugInfo x) /\
   (isConnected x = false -> isConnected y = false) /\
   (whispers x = [] -> whispers y = [])) /\
  (forall tm, In tm rest -> In tm (timers y)) /\
  exists calls, effects y = effects x ++ calls /\ only_requests calls.
Proof.
  intros N. cbv zeta. destruct a as [|k|]; [| |contradiction]; cbn [fire].
  - unfold startAudioCapture, capture_failed, pop.
    destruct has_getUserMedia; open_world x; wsimpl.
    + repeat split; auto.
      exists [getUserMedia_called]. split; [reflexivity|].
      constructor; [reflexivity | constructor].
    + repeat split; auto.
      * intros tm I. apply in_or_app. now left.
      * exists []. split; [now rewrite app_nil_r | constructor].
  - unfold pop. open_world x. wsimpl. repeat split; auto.
    + intros ->. reflexivity.
    + exists []. split; [now rewrite app_nil_r | constructor].
Qed.

Lemma pop_fields d rest x :
  isNegotiating (pop d rest x) = isNegotiating x /\
  closed_sockets (pop d rest x) = closed_sockets x /\
  stop_calls (pop d rest x) = stop_calls x /\
  effects (pop d rest x) = effects x.
Proof. open_world x. repeat split. Qed.

Lemma aborted_step w a d rest x :
  aborted w x -> aborted w (fire has_getUserMedia a (pop d rest x)).
Proof.
  intros (N & R & S & C & L & W & (P & M & A) & K & before & after & E & O).
  destruct a as [|k|].
  - destruct (quiet_fire StartAudioCapture d rest x)
      as ((N' & R' & P' & M' & A' & K') & (L' & S' & C' & W') & _
          & calls & E' & O'); [discriminate|].
    unfold aborted, capture_stopped.
    rewrite N', R', P', M', A', K', L', S', (C' C), (W' W).
    repeat split; try assumption.
    exists before, (after ++ calls). split.
    + rewrite E', E, <- !app_assoc. reflexivity.
    + unfold only_requests in *. rewrite app_assoc.
      apply Forall_app. now split.
  - destruct (quiet_fire (RemoveWhisper k) d rest x)
      as ((N' & R' & P' & M' & A' & K') & (L' & S' & C' & W') & _
          & calls & E' & O'); [discriminate|].
    unfold aborted, capture_stopped.
    rewrite N', R', P', M', A', K', L', S', (C' C), (W' W).
    repeat split; try assumption.
    exists before, (after ++ calls). split.
    + rewrite E', E, <- !app_assoc. reflexivity.
    + unfold only_requests in *. rewrite app_assoc.
      apply Forall_app. now split.
  - cbn [fire]. unfold setIsNegotiating.
    replace (isNegotiating (pop d rest x)) with false
      by (symmetry; exact N).
    cbn [Bool.eqb]. cbv iota.
    unfold aborted, capture_stopped.
    change (isNegotiating (pop d rest x)) with (isNegotiating x).
    change (wsRef (pop d rest x)) with (wsRef x).
    change (debugInfo (pop d rest x)) with (debugInfo x).
    change (isConnected (pop d rest x)) with (isConnected x).
    change (audioLevel (pop d rest x)) with (audioLevel x).
    change (whispers (pop d rest x)) with (whispers x).
    change (processorRef (pop d rest x)) with (processorRef x).
    change (mediaStreamRef (pop d rest x)) with (mediaStreamRef x).
    change (audioContextRef (pop d rest x)) with (audioContextRef x).
    change (sockets (pop d rest x)) with (sockets x).
    change (effects (pop d rest x)) with (effects x).
    repeat split; try assumption.
    exists before, after. now split.
Qed.

Lemma abort_step D w a d l1 l2 x :
  timers x = l1 ++ (d, a) :: l2 ->
  abort_pending D w x ->
  let y := fire has_getUserMedia a (pop d (l1 ++ l2) x) in
  abort_pending D w y \/ aborted w y.
Proof.
  intros T (N & R & P & M & A & K & I & before & E & O). cbv zeta.
  assert (Q : a <> StopNegotiating -> In (D, StopNegotiating) (l1 ++ l2)).
  { intros Na. rewrite T in I. apply in_app_or in I. apply in_or_app.
    destruct I as [I|[I|I]]; [now left | | now right].
    exfalso. apply Na. congruence. }
  assert (G : a <> StopNegotiating ->
              abort_pending D w (fire has_getUserMedia a (pop d (l1 ++ l2) x))).
  { intros Na.
    destruct (quiet_fire a d (l1 ++ l2) x Na)
      as ((N' & R' & P' & M' & A' & K') & _ & T' & calls & E' & O').
    unfold abort_pending. rewrite N', R', P', M', A', K'.
    repeat split; try assumption.
    - apply T'. now apply Q.
    - exists (before ++ calls). split.
      + rewrite E', E, <- app_assoc. reflexivity.
      + apply Forall_app. now split. }
  destruct a as [|k|]; [left; apply G; discriminate
                       |left; apply G; discriminate|].
  right. cbn [fire].
  destruct (pop_fields d (l1 ++ l2) x) as (Np & Cp & Sp & Ep).
  rewrite stop_shape by (now rewrite Np).
  unfold aborted, capture_stopped. cbn [isNegotiating wsRef debugInfo status
    isConnected audioLevel whispers processorRef mediaStreamRef
    audioContextRef sockets effects].
  rewrite Cp, Sp, Ep.
  assert (Cw : closed_sockets x = closed_sockets w)
    by (unfold closed_sockets; now rewrite R, K).
  assert (Sw : stop_calls x = stop_calls w)
    by (unfold stop_calls, releases; now rewrite R, P, M, A).
  repeat split; try assumption.
  exists before, []. split.
  - rewrite E, Sw, app_nil_r, <- app_assoc. reflexivity.
  - now rewrite app_nil_r.
Qed.

Lemma failure_aborts message w :
  isNegotiating w = true ->
  aborted w (elapse has_getUserMedia 2000 (capture_failed message w)).
Proof.
  intros H.
  set (w0 := capture_failed message w).
  set (D := now w + 2000).
  assert (N0 : now w0 = now w) by (unfold w0; open_world w; reflexivity).
  assert (P : abort_pending D w (elapse has_getUserMedia 2000 w0) \/
              aborted w (elapse has_getUserMedia 2000 w0)).
  { unfold elapse.
    apply (advance_preserves
             (fun x => abort_pending D w x \/ aborted w x)).
    - intros x d a l1 l2 [A|B] T _ _.
      + now apply abort_step.
      + right. now apply aborted_step.
    - intros x [A|B]; [left; exact A | right; exact B].
    - left. unfold w0, D. open_world w. unfold capture_failed.
      unfold abort_pending. wsimpl. cbn in H.
      repeat split; try assumption.
      + apply in_or_app. right. now left.
      + exists []. split; [now rewrite app_nil_r | constructor]. }
  destruct P as [(_ & _ & _ & _ & _ & _ & I & _)|B]; [|exact B].
  destruct (elapse_complete 2000 w0) as [F _].
  rewrite Forall_forall in F. specialize (F _ I). cbn [fst] in F.
  unfold D in F. lia.
Qed.

Lemma captures_due_app t l1 l2 :
  captures_due t (l1 ++ l2) = (captures_due t l1 + captures_due t l2)%nat.
Proof. unfold captures_due. now rewrite filter_app, length_app. Qed.

Lemma captures_due_future t l :
  Forall (fun tm => t < fst tm) l -> captures_due t l = 0%nat.
Proof.
  unfold captures_due. induction 1 as [|[d a] l H _ IH]; [reflexivity|].
  cbn [filter]. unfold capture_due at 1. cbn [fst snd] in *.
  destruct a; [|exact IH|exact IH].
  destruct (Z.leb_spec d t); [lia | exact IH].
Qed.

Lemma capture_requests_app w w' e :
  effects w' = effects w ++ e ->
  capture_requests w' =
  (capture_requests w + length (filter is_capture_request e))%nat.
Proof.
  intros H. unfold capture_requests. now rewrite H, filter_app, length_app.
Qed.

Lemma fire_requests a w :
  capture_requests (fire has_getUserMedia a w) =
  (capture_requests w +
   match a with
   | StartAudioCapture => if has_getUserMedia then 1 else 0
   | _ => 0
   end)%nat /\
  (has_getUserMedia = true ->
   timers (fire has_getUserMedia a w) = timers w).
Proof.
  destruct a as [|k|]; cbn [fire].
  - unfold startAudioCapture. destruct has_getUserMedia.
    + split; [|reflexivity].
      apply (capture_requests_app w _ [getUserMedia_called]).
      open_world w. wsimpl. reflexivity.
    + split; [|discriminate].
      rewrite (capture_requests_app w _ []); [reflexivity|].
      open_world w. unfold capture_failed. wsimpl. now rewrite app_nil_r.
  - split; [|reflexivity]. unfold capture_requests.
    change (effects (setWhispers (filter (fun x => negb (id x =? k))) w))
      with (effects w). lia.
  - destruct (setIsNegotiating_false_requests w) as [-> ->].
    split; [lia | reflexivity].
Qed.

Lemma elapse_requests dt w :
  capture_requests (elapse has_getUserMedia dt w) =
  (capture_requests w +
   if has_getUserMedia
   then captures_due (now w + Z.max 0 dt) (timers w) else 0)%nat.
Proof.
  set (t := now w + Z.max 0 dt).
  assert (P : (capture_requests (elapse has_getUserMedia dt w)
               + (if has_getUserMedia
                  then captures_due t (timers (elapse has_getUserMedia dt w))
                  else 0)
               = capture_requests w
                 + if has_getUserMedia
                   then captures_due t (timers w) else 0)%nat).
  { unfold elapse. fold t.
    apply (advance_preserves
             (fun x => (capture_requests x
                        + (if has_getUserMedia
                           then captures_due t (timers x) else 0)
                        = capture_requests w
                          + if has_getUserMedia
                            then captures_due t (timers w) else 0)%nat)).
    - intros x d a l1 l2 E T D _.
      destruct (fire_requests a (pop d (l1 ++ l2) x)) as [Q R].
      rewrite Q, <- E.
      change (capture_requests (pop d (l1 ++ l2) x))
        with (capture_requests x).
      revert R. destruct has_getUserMedia; intros R.
      + rewrite (R eq_refl).
        change (timers (pop d (l1 ++ l2) x)) with (l1 ++ l2).
        rewrite T, !captures_due_app.
        change ((d, a) :: l2) with ([(d, a)] ++ l2).
        rewrite captures_due_app. unfold captures_due at 4.
        cbn [filter]. unfold capture_due. cbn [fst snd].
        destruct a; cbn [length]; try lia.
        destruct (Z.leb_spec d t); cbn [length]; lia.
      + destruct a; lia.
    - intros x E. exact E.
    - reflexivity. }
  destruct (elapse_complete dt w) as [C _]. fold t in C.
  rewrite (captures_due_future _ _ C) in P.
  destruct has_getUserMedia; lia.
Qed.

Lemma failure_requests message w :
  capture_requests (elapse has_getUserMedia 2000 (capture_failed message w)) =
  (capture_requests w +
   if has_getUserMedia then captures_due (now w + 2000) (timers w) else 0)%nat.
Proof.
  rewrite elapse_requests.
  assert (T : timers (capture_failed message w)
              = timers w ++ [(now w + 2000, StopNegotiating)])
    by (open_world w; reflexivity).
  assert (N : now (capture_failed message w) = now w)
    by (open_world w; reflexivity).
  assert (R : capture_requests (capture_failed message w) = capture_requests w)
    by (open_world w; reflexivity).
  rewrite T, N, R, captures_due_app.
  change (Z.max 0 2000) with 2000.
  replace (captures_due (now w + 2000) [(now w + 2000, StopNegotiating)])
    with 0%nat by reflexivity.
  now rewrite Nat.add_0_r.
Qed.

(** *** Annotation expiry *)

Lemma not_live_live k w : not_live k w -> live k w = false.
Proof.
  unfold not_live, live. intros H.
  destruct (existsb _ _) eqn:E; [|reflexivity].
  apply existsb_exists in E as (y & Hy & Ey).
  rewrite Forall_forall in H. apply Z.eqb_eq in Ey. now apply H in Hy.
Qed.

Lemma change_expiring timer k D w w' :
  loop_change timer w w' -> expiring k D w -> expiring k D w'.
Proof.
  intros C [B H]. split.
  - destruct (loop_change_counter _ _ _ C) as [E | [_ E]]; lia.
  - destruct H as [H | H].
    + left. unfold not_live in *. rewrite Forall_forall in *.
      intros y Hy.
      destruct (proj1 (loop_change_whispers _ _ _ y C) Hy) as [I | [_ I]];
        [auto | lia].
    + right. destruct (loop_change_timers _ _ _ C) as (added & -> & _).
      apply in_or_app. auto.
Qed.

Lemma fire_expiring k D d a l1 l2 w :
  timers w = l1 ++ (d, a) :: l2 ->
  expiring k D w ->
  expiring k D (fire has_getUserMedia a (pop d (l1 ++ l2) w)).
Proof.
  intros E [B H].
  destruct H as [H | H].
  - apply (change_expiring true k D (pop d (l1 ++ l2) w));
      [apply fire_change|].
    split; [exact B | left; exact H].
  - rewrite E in H. apply in_app_or in H as [H | [H | H]].
    + apply (change_expiring true k D (pop d (l1 ++ l2) w));
        [apply fire_change|].
      split; [exact B | right; cbn; apply in_or_app; auto].
    + injection H as -> ->. split; [exact B|]. left.
      unfold not_live. cbn. apply Forall_forall. intros y Hy.
      apply filter_In in Hy as [_ Hy].
      apply negb_true_iff, Z.eqb_neq in Hy. exact Hy.
    + apply (change_expiring true k D (pop d (l1 ++ l2) w));
        [apply fire_change|].
      split; [exact B | right; cbn; apply in_or_app; auto].
Qed.

Lemma step_expires k D i w : expires_at k D w -> expires_at k D (step' i w).
Proof.
  intros [B H]. destruct i as [dt|e]; cbn [step].
  - assert (X : expiring k D (elapse' dt w)).
    { unfold elapse. apply advance_preserves.
      - intros x d a l1 l2 Hx E _ _. now apply fire_expiring.
      - intros x Hx. exact Hx.
      - split; [exact B|]. destruct H as [H | [_ H]]; auto. }
    destruct X as [B' [X | X]]; split; auto.
    right. split; [|exact X].
    destruct (elapse_complete dt w) as [F N]. rewrite N.
    rewrite Forall_forall in F. specialize (F _ X). exact F.
  - pose proof (handle_change e w) as C.
    destruct (change_expiring false k D _ _ C) as [B' X].
    { split; [exact B|]. destruct H as [H | [_ H]]; auto. }
    split; [exact B'|].
    destruct H as [H | [N H]].
    + left.
      destruct (change_expiring false k D _ _ C) as [_ [Y | Y]].
      { split; [exact B | left; exact H]. }
      * exact Y.
      * unfold not_live in *. rewrite Forall_forall in *.
        intros y Hy.
        destruct (proj1 (loop_change_whispers _ _ _ y C) Hy) as [I | [_ I]];
          [auto | lia].
    + right. rewrite (loop_change_now _ _ _ C). split; [exact N|].
      destruct (loop_change_timers _ _ _ C) as (added & -> & _).
      apply in_or_app. auto.
Qed.

Lemma run_expires k D inputs w :
  expires_at k D w -> expires_at k D (run' inputs w).
Proof.
  revert w. induction inputs as [|i inputs IH]; intros w H; [exact H|].
  rewrite run_cons. apply IH, step_expires, H.
Qed.

Lemma fire_keeps a x w :
  a <> RemoveWhisper (id x) ->
  isNegotiating (fire has_getUserMedia a w) = isNegotiating w ->
  In x (whispers w) -> In x (whispers (fire has_getUserMedia a w)).
Proof.
  intros Ha N H. destruct a as [|j|]; cbn [fire] in *.
  - unfold startAudioCapture. destruct has_getUserMedia; exact H.
  - cbn. apply filter_In. split; [exact H|].
    apply negb_true_iff, Z.eqb_neq. congruence.
  - destruct (setIsNegotiating_cases false w) as [[_ E] | [E L]].
    + now rewrite E.
    + unfold loop_state in L. injection L as L _ _ _ _.
      rewrite L, E in N. discriminate.
Qed.

Lemma handle_kept x D e w :
  kept x D w ->
  isNegotiating (handle JSON_parse ToString e w) = isNegotiating w ->
  kept x D (handle JSON_parse ToString e w).
Proof.
  intros (I & B & F) N. pose proof (handle_change e w) as C.
  split; [|split].
  - destruct (proj2 (loop_change_whispers _ _ _ x C) I N) as [H | [H _]];
      [exact H | discriminate].
  - destruct (loop_change_counter _ _ _ C) as [E | [_ E]]; lia.
  - destruct (loop_change_timers _ _ _ C) as (added & -> & A).
    apply Forall_app. split; [exact F|].
    eapply Forall_impl; [|exact A]. cbn. intros tm H E.
    destruct (H _ E) as (_ & K & _). lia.
Qed.

Lemma elapse_kept x D dt w :
  kept x D w ->
  isNegotiating (elapse' dt w) = isNegotiating w ->
  now (elapse' dt w) < D ->
  kept x D (elapse' dt w).
Proof.
  intros K N T.
  destruct (elapse_complete dt w) as [_ E]. rewrite E in T.
  set (P := fun y : World =>
              (isNegotiating w = false -> isNegotiating y = false) /\
              (isNegotiating y = isNegotiating w -> kept x D y)).
  assert (H : P (elapse' dt w)).
  { unfold elapse. apply advance_preserves.
    - intros y d a l1 l2 [P1 P2] Et Hd _.
      set (z := pop d (l1 ++ l2) y).
      pose proof (loop_change_negotiating _ _ (fire_change a z)) as Z.
      change (isNegotiating z) with (isNegotiating y) in Z.
      split.
      + intros F. destruct Z as [Z | Z]; [rewrite Z; auto | exact Z].
      + intros Q.
        assert (Y : isNegotiating y = isNegotiating w).
        { destruct Z as [Z | Z]; [congruence|].
          rewrite Z in Q. symmetry in Q. rewrite (P1 Q). congruence. }
        destruct (P2 Y) as (I & B & F).
        assert (Ha : a <> RemoveWhisper (id x)).
        { intros ->. rewrite Et in F. apply Forall_app in F as [_ F].
          inversion_clear F. cbn in H. specialize (H eq_refl). lia. }
        split; [|split].
        * apply fire_keeps; [exact Ha | | exact I].
          change (isNegotiating z) with (isNegotiating y). congruence.
        * rewrite fire_counter. exact B.
        * destruct (loop_change_timers _ _ _ (fire_change a z))
            as (added & -> & A).
          apply Forall_app. split.
          -- cbn. rewrite Et in F. apply Forall_app in F as [F1 F2].
             inversion_clear F2. apply Forall_app. auto.
          -- eapply Forall_impl; [|exact A]. cbn. intros tm H G.
             destruct (H _ G) as (G' & _). discriminate.
    - intros y Hy. exact Hy.
    - split; auto. }
  apply H, N.
Qed.

Lemma step_now i w : now w <= now (step' i w).
Proof.
  destruct i as [dt|e]; cbn [step].
  - destruct (elapse_complete dt w) as [_ ->]. lia.
  - rewrite (loop_change_now _ _ _ (handle_change e w)). lia.
Qed.

Lemma run_now inputs w : now w <= now (run' inputs w).
Proof.
  revert w. induction inputs as [|i inputs IH]; intros w; [cbn; lia|].
  rewrite run_cons. pose proof (step_now i w). specialize (IH (step' i w)).
  lia.
Qed.

Lemma run_kept x D inputs w :
  kept x D w ->
  (forall n, isNegotiating (run' (firstn n inputs) w) = isNegotiating w) ->
  now (run' inputs w) < D ->
  In x (whispers (run' inputs w)).
Proof.
  revert w. induction inputs as [|i inputs IH]; intros w K N T.
  - apply K.
  - rewrite run_cons in *.
    assert (N1 : isNegotiating (step' i w) = isNegotiating w)
      by exact (N 1%nat).
    assert (T1 : now (step' i w) < D).
    { pose proof (run_now inputs (step' i w)). lia. }
    apply IH; [| |exact T].
    + destruct i as [dt|e]; cbn [step] in *.
      * now apply elapse_kept.
      * now apply handle_kept.
    + intros n. rewrite N1. exact (N (S n)).
Qed.

(** C6 (amended): an annotation created at time T is in the live list at
    every later time before T + 10 s, as long as no stop or start has
    changed [isNegotiating] in between; from T + 10 s on it is absent,
    whatever happened; its timer removes the annotations with its id and
    no other, and touches no timer. *)
Theorem annotation_expiry (pre : list Input) raw data :
  let w := run' pre booted in
  let w1 := onmessage JSON_parse ToString raw w in
  JSON_parse raw = Some data ->
  creates_whisper data = true ->
  exists t,
    let x := mkWhisper (whisperIdCounter w) t (now w) in
    prop data "text" = Some t /\
    whispers w1 = whispers w ++ [x] /\
    live (id x) w = false /\
    (forall inputs,
       (forall n,
          isNegotiating (run' (firstn n inputs) w1) = isNegotiating w1) ->
       now (run' inputs w1) < now w + 10000 ->
       In x (whispers (run' inputs w1))) /\
    (forall inputs,
       now w + 10000 <= now (run' inputs w1) ->
       live (id x) (run' inputs w1) = false) /\
    (forall w',
       whispers (fire has_getUserMedia (RemoveWhisper (id x)) w')
         = filter (fun y => negb (id y =? id x)) (whispers w') /\
       timers (fire has_getUserMedia (RemoveWhisper (id x)) w') = timers w' /\
       forall y, In y (whispers w') -> id y <> id x ->
                 In y (whispers (fire has_getUserMedia (RemoveWhisper (id x)) w'))).
Proof.
  intros w w1 H C.
  destruct (onmessage_creates raw data w H C) as (t & Et & L).
  fold w1 in L. unfold loop_state in L. injection L as LN LW LC LT LT'.
  assert (I : ids_invariant w) by (apply run_ids, booted_ids).
  destruct I as [B S R].
  exists t. cbv zeta. cbn [id].
  split; [exact Et|]. split; [exact LW|].
  split; [|split; [|split]].
  - apply not_live_live. unfold not_live.
    eapply Forall_impl; [|exact B]. cbn. intros; lia.
  - intros inputs N T.
    apply (run_kept _ (now w + 10000)); [| exact N | exact T].
    split; [|split].
    + rewrite LW. apply in_or_app. right. left. reflexivity.
    + cbn. lia.
    + rewrite LT. apply Forall_app. split.
      * eapply Forall_impl; [|exact R]. unfold removal_below. cbn.
        intros tm Q E. rewrite E in Q. lia.
      * constructor; [|constructor]. cbn. lia.
  - intros inputs T.
    destruct (run_expires (whisperIdCounter w) (now w + 10000) inputs w1)
      as [_ [X | [X _]]].
    + split; [lia|]. right. split; [lia|].
      rewrite LT. apply in_or_app. right. left. reflexivity.
    + now apply not_live_live.
    + lia.
  - intros w'. split; [reflexivity|]. split; [reflexivity|].
    intros y Hy D. cbn. apply filter_In. split; [exact Hy|].
    apply negb_true_iff, Z.eqb_neq. exact D.
Qed.

End AppFacts.

(* ================================================================== *)
(** * The properties on the sample session *)
(* ================================================================== *)

Section Samples.
Import Js App.
Local Open Scope string_scope.
Local Open Scope list_scope.
Local Open Scope Z_scope.

(** C4 on the four sample messages, received by the session [connected]. *)
Lemma router_dispatch_witness :
  let receive raw := onmessage sample_parse sample_ToString raw connected in
  (whispers (receive msg_whisper) = [mkWhisper 0 (JString "hello") 100] /\
   playback_calls (receive msg_whisper) = playback_calls connected) /\
  (playback_calls (receive msg_audio) = S (playback_calls connected) /\
   whispers (receive msg_audio) = whispers connected) /\
  (playback_calls (receive msg_legacy_audio) = S (playback_calls connected) /\
   whispers (receive msg_legacy_audio) = whispers connected) /\
  whispers (receive msg_legacy_text) = whispers connected.
Proof.
  cbv zeta. split; [|split; [|split]].
  - destruct (router_dispatch sample_parse sample_ToString msg_whisper _
                connected eq_refl) as (H & _).
    destruct (H eq_refl) as ((t & Et & W) & P).
    injection Et as <-. split; [exact W | exact P].
  - destruct (router_dispatch sample_parse sample_ToString msg_audio _
                connected eq_refl) as (_ & H & _).
    exact (H eq_refl).
  - destruct (router_dispatch sample_parse sample_ToString msg_legacy_audio _
                connected eq_refl) as (_ & _ & H & _).
    exact (H eq_refl eq_refl).
  - destruct (router_dispatch sample_parse sample_ToString msg_legacy_text _
                connected eq_refl) as (_ & _ & _ & H).
    exact (H eq_refl eq_refl).
Defined.


Lemma quiet_inputs_quiet n :
  isNegotiating
    (run sample_parse sample_ToString true (firstn n quiet_inputs)
       (onmessage sample_parse sample_ToString msg_whisper
          (run sample_parse sample_ToString true session_start booted)))
  = isNegotiating
      (onmessage sample_parse sample_ToString msg_whisper
         (run sample_parse sample_ToString true session_start booted)).
Proof.
  do 3 (destruct n as [|n]; [vm_compute; reflexivity|]).
  unfold quiet_inputs. cbn [firstn]. rewrite firstn_nil.
  vm_compute. reflexivity.
Qed.

(** C6 on the annotation "hello", created 100 ms into the sample session:
    live 9999 ms later, gone after 10000 ms. *)
Lemma annotation_expiry_witness :
  let w := run sample_parse sample_ToString true session_start booted in
  let w1 := onmessage sample_parse sample_ToString msg_whisper w in
  let x := mkWhisper 0 (JString "hello") 100 in
  sample_parse msg_whisper
    = Some (JObject [("type", JString "whisper"); ("text", JString "hello")]) /\
  whispers w1 = [x] /\
  now (run sample_parse sample_ToString true quiet_inputs w1) = 10099 /\
  In x (whispers (run sample_parse sample_ToString true quiet_inputs w1)) /\
  live 0 (run sample_parse sample_ToString true [Elapse 10000] w1) = false.
Proof.
  cbv zeta.
  destruct (annotation_expiry sample_parse sample_ToString true session_start
              msg_whisper _ eq_refl eq_refl)
    as (t & Et & W & _ & P & A & _).
  injection Et as <-.
  split; [reflexivity|]. split; [exact W|]. split; [reflexivity|].
  split.
  - apply (P quiet_inputs quiet_inputs_quiet). reflexivity.
  - apply (A [Elapse 10000]). vm_compute. discriminate.
Defined.

(** C6 as stated fails: the annotation "hello" is created at 100 ms in the
    session [capturing]; "End Session" is clicked 1000 ms later, and at
    1100 ms, well before 10100 ms, the live list is empty. *)
Lemma annotation_cleared_by_stop :
  let w1 := onmessage sample_parse sample_ToString msg_whisper capturing in
  let w2 :=
    run sample_parse sample_ToString true [Elapse 1000; Deliver Click_End] w1 in
  now capturing = 100 /\
  whispers w1 = [mkWhisper 0 (JString "hello") 100] /\
  now w2 = 1100 /\
  whispers w2 = [] /\
  live 0 w2 = false.
Proof. cbv zeta. repeat split. Qed.

(** C7 on a block captured while the socket of a new session is still
    connecting. *)
Lemma closed_socket_drops_block_witness :
  let w :=
    run sample_parse sample_ToString true [Deliver Click_Start] booted in
  let block := [Num (1 # 2); Num (-1 # 4)] in
  readyState 0 w = Some CONNECTING /\
  socket_open w = false /\
  onaudioprocess block w = w /\
  run sample_parse sample_ToString true
    [Deliver (Socket_open 0); Elapse 1000] (onaudioprocess block w)
  = run sample_parse sample_ToString true
      [Deliver (Socket_open 0); Elapse 1000] w.
Proof.
  cbv zeta. split; [reflexivity|]. split; [reflexivity|].
  destruct (closed_socket_drops_block sample_parse sample_ToString true
              [Num (1 # 2); Num (-1 # 4)]
              (run sample_parse sample_ToString true [Deliver Click_Start]
                 booted) eq_refl) as (H & _ & R).
  split; [exact H | apply R].
Defined.

(** C10 on two annotations of two sessions: the second, created after a
    stop and a new start, has the larger id. *)
Lemma whisper_id_allocation_witness :
  let restart :=
    [Deliver Click_End; Elapse 500; Deliver Click_Start;
     Deliver (Socket_open 1)] in
  let w1 := onmessage sample_parse sample_ToString msg_whisper capturing in
  let w2 := run sample_parse sample_ToString true restart w1 in
  whisperIdCounter w1 = whisperIdCounter capturing + 1 /\
  whisperIdCounter capturing < whisperIdCounter w2 /\
  whispers (onmessage sample_parse sample_ToString msg_whisper w2)
    = [mkWhisper 1 (JString "hello") 600].
Proof.
  cbv zeta.
  pose proof (whisper_id_allocation sample_parse sample_ToString true) as
    (C & _ & _ & _ & _ & _ & L).
  split; [|split].
  - exact (proj1 (C msg_whisper _ capturing eq_refl eq_refl)).
  - exact (L msg_whisper _ capturing _ eq_refl eq_refl).
  - reflexivity.
Defined.

End Samples.

(* ================================================================== *)
(** * Further properties of the wire format *)
(* ================================================================== *)

Section WireFormat.
Import Js Base64 Pcm.

Lemma list_ind4 {A : Type} (P : list A -> Prop) :
  P [] -> (forall a, P [a]) -> (forall a b, P [a; b]) ->
  (forall a b c, P [a; b; c]) ->
  (forall a b c d l, P l -> P (a :: b :: c :: d :: l)) ->
  forall l, P l.
Proof.
  intros H0 H1 H2 H3 H4.
  fix IH 1.
  intros [|a [|b [|c [|d l]]]];
    [apply H0 | apply H1 | apply H2 | apply H3 | apply H4, IH].
Qed.

Lemma index_from_range l c n i :
  index_from n l c = Some i -> n <= i < n + Z.of_nat (length l).
Proof.
  revert n. induction l as [|d l IH]; intros n; cbn [index_from length];
    [discriminate|].
  destruct (Ascii.eqb c d).
  - intros H. injection H as <-. lia.
  - intros H. apply IH in H. lia.
Qed.

Lemma sextet_of_char_range c i : sextet_of_char c = Some i -> is_sextet i.
Proof.
  unfold sextet_of_char. intros H. apply index_from_range in H.
  change (Z.of_nat (length alphabet)) with 64 in H. unfold is_sextet. lia.
Qed.

Lemma all_sextets_range data ixs :
  all_sextets data = Some ixs -> Forall is_sextet ixs.
Proof.
  revert ixs. induction data as [|c data IH]; intros ixs; cbn [all_sextets].
  - intros H. injection H as <-. constructor.
  - destruct (sextet_of_char c) as [i|] eqn:E; [|discriminate].
    destruct (all_sextets data) as [l|]; [|discriminate].
    intros H. injection H as <-.
    constructor; [eapply sextet_of_char_range; eauto | auto].
Qed.

Lemma octets_range ixs : Forall is_sextet ixs -> Forall is_octet (octets ixs).
Proof.
  induction ixs as [| i | i j | i j k | i j k l rest IH] using list_ind4;
    intros H; cbn [octets].
  - constructor.
  - constructor.
  - inversion_clear H. inversion_clear H1. unfold is_sextet, is_octet in *.
    repeat constructor; Z.div_mod_to_equations; lia.
  - inversion_clear H. inversion_clear H1. inversion_clear H2.
    unfold is_sextet, is_octet in *.
    repeat constructor; Z.div_mod_to_equations; lia.
  - inversion_clear H. inversion_clear H1. inversion_clear H2.
    inversion_clear H3. unfold is_sextet, is_octet in *.
    repeat (constructor; [Z.div_mod_to_equations; lia|]). auto.
Qed.

(** Whatever [atob] returns is a sequence of bytes. *)
Lemma atob_octets s bytes : atob s = Some bytes -> Forall is_octet bytes.
Proof.
  unfold atob. cbv zeta.
  destruct (length _ mod 4 =? 1)%nat; [discriminate|].
  destruct (all_sextets _) as [ixs|] eqn:E; [|discriminate].
  cbn [option_map]. intros H. injection H as <-.
  eapply octets_range, all_sextets_range, E.
Qed.

Lemma wrap16_range z : -32768 <= wrap16 z <= 32767.
Proof.
  unfold wrap16.
  destruct (z mod 65536 >=? 32768) eqn:E;
    [apply Z.geb_le in E | rewrite Z.geb_leb in E; apply Z.leb_gt in E];
    Z.div_mod_to_equations; lia.
Qed.

Lemma length_decode_bytes bytes :
  length (decode_bytes bytes) = (length bytes / 2)%nat.
Proof. unfold decode_bytes. now rewrite length_map, length_seq. Qed.

Lemma played_unit n :
  -32768 <= n <= 32767 ->
  exists r, played n = Num r /\ (-1 # 1 <= r)%Q /\ (r < 1 # 1)%Q.
Proof.
  intros H. exists (inject_Z n * (1 # 32768))%Q.
  split; [reflexivity|].
  unfold Qle, Qlt, Qmult, inject_Z. cbn. lia.
Qed.

Lemma decode_bytes_unit bytes :
  Forall (fun y => exists r, y = Num r /\ (-1 # 1 <= r)%Q /\ (r < 1 # 1)%Q)
    (decode_bytes bytes).
Proof.
  unfold decode_bytes. apply Forall_map, Forall_forall. intros i _.
  apply (played_unit (getInt16 bytes (i * 2))), wrap16_range.
Qed.

(** X2 (lines 220-226): whatever bytes arrive, [playPcmChunk] plays one
    sample for every two bytes, an odd last byte left out, and every
    sample is a finite number in [-1, 1). *)
Theorem playback_samples_normalized (audioBytes : list Z) :
  length (decode_bytes audioBytes) = (length audioBytes / 2)%nat /\
  Forall (fun y => exists r, y = Num r /\ (-1 # 1 <= r)%Q /\ (r < 1 # 1)%Q)
    (decode_bytes audioBytes).
Proof. split; [apply length_decode_bytes | apply decode_bytes_unit]. Qed.

Lemma length_string_of_list_ascii l :
  String.length (string_of_list_ascii l) = length l.
Proof. induction l as [|c l IH]; cbn; [reflexivity | now rewrite IH]. Qed.

Lemma sextets_padded_length (bytes : list Z) :
  (length (sextets bytes) + padding (length bytes)
   = 4 * ((length bytes + 2) / 3))%nat.
Proof.
  induction bytes as [| a | a b | a b c l IH] using list_ind3;
    try reflexivity.
  change (length (sextets (a :: b :: c :: l)))
    with (4 + length (sextets l))%nat.
  change (length (a :: b :: c :: l)) with (3 + length l)%nat.
  unfold padding. rewrite mod3_step. fold (padding (length l)).
  replace (3 + length l + 2)%nat with (1 * 3 + (length l + 2))%nat by lia.
  rewrite Nat.div_add_l by discriminate. lia.
Qed.

Lemma length_btoa bytes :
  String.length (btoa bytes) = (4 * ((length bytes + 2) / 3))%nat.
Proof.
  unfold btoa.
  rewrite length_string_of_list_ascii, length_app, length_map, repeat_length.
  apply sextets_padded_length.
Qed.

Lemma length_Uint8Array pcmData :
  length (Uint8Array_of_Int16Array pcmData) = (2 * length pcmData)%nat.
Proof.
  unfold Uint8Array_of_Int16Array.
  induction pcmData as [|n l IH]; [reflexivity|].
  cbn [flat_map int16_bytes app length]. rewrite IH. lia.
Qed.

(** X1 (lines 160-168): the payload of an envelope is the base64 text of
    two bytes per captured sample, low byte first; [atob] gives these
    bytes back, and the text has four characters for every three bytes,
    padding included. *)
Theorem payload_wire_format (inputData : list float) :
  let bytes := Uint8Array_of_Int16Array (map pcm16_of_sample inputData) in
  atob (encode_block inputData) = Some bytes /\
  length bytes = (2 * length inputData)%nat /\
  String.length (encode_block inputData)
    = (4 * ((2 * length inputData + 2) / 3))%nat.
Proof.
  cbv zeta. split; [|split].
  - unfold encode_block. apply atob_btoa, Uint8Array_range.
  - now rewrite length_Uint8Array, length_map.
  - unfold encode_block. now rewrite length_btoa, length_Uint8Array, length_map.
Qed.

Lemma list_ind2 {A : Type} (P : list A -> Prop) :
  P [] -> (forall a, P [a]) -> (forall a b l, P l -> P (a :: b :: l)) ->
  forall l, P l.
Proof.
  intros H0 H1 H2. fix IH 1.
  intros [|a [|b l]]; [apply H0 | apply H1 | apply H2, IH].
Qed.

Lemma decode_bytes_app a b :
  Nat.even (length a) = true ->
  decode_bytes (a ++ b) = decode_bytes a ++ decode_bytes b.
Proof.
  induction a as [| x | x y l IH] using list_ind2; intros H.
  - reflexivity.
  - discriminate.
  - cbn [app]. rewrite !decode_bytes_pair. cbn [app]. f_equal.
    apply IH. exact H.
Qed.

(** X3 (lines 220-226): decoding commutes with the concatenation of
    byte sequences when the first one has an even length, and a single
    trailing byte is not played. *)
Theorem playback_chunks_compose (a b : list Z) :
  Nat.even (length a) = true ->
  decode_bytes (a ++ b) = decode_bytes a ++ decode_bytes b /\
  forall last, decode_bytes (a ++ [last]) = decode_bytes a.
Proof.
  intros H. split; [now apply decode_bytes_app|].
  intros last. rewrite decode_bytes_app by exact H. apply app_nil_r.
Qed.

Lemma playback_chunks_compose_witness :
  Nat.even (length [0; 64; 255; 127]) = true /\
  decode_bytes ([0; 64; 255; 127] ++ [0; 128])
    = decode_bytes [0; 64; 255; 127] ++ decode_bytes [0; 128] /\
  decode_bytes ([0; 64; 255; 127] ++ [9]) = decode_bytes [0; 64; 255; 127].
Proof.
  split; [reflexivity|].
  destruct (playback_chunks_compose [0; 64; 255; 127] [0; 128] eq_refl)
    as [H1 H2].
  split; [exact H1 | exact (H2 9)].
Defined.

(** The clamp and the scale on a played value. *)
Lemma pcm16_played n :
  -32768 <= n <= 32767 ->
  pcm16_of_sample (played n) = if 0 <? n then n - 1 else n.
Proof.
  intros H.
  change (played n) with (Num (inject_Z n * (1 # 32768))).
  rewrite pcm16_Num.
  set (q := (inject_Z n * (1 # 32768))%Q).
  assert (Hq : q = (n * 1 # 32768)%Q) by reflexivity.
  unfold spec_clamp.
  destruct (Qle_bool q (-1 # 1)) eqn:E1.
  - apply Qle_bool_iff in E1. rewrite Hq in E1. unfold Qle in E1. cbn in E1.
    assert (n = -32768) by lia. subst n. reflexivity.
  - destruct (Qle_bool (1 # 1) q) eqn:E2.
    + apply Qle_bool_iff in E2. rewrite Hq in E2. unfold Qle in E2.
      cbn in E2. lia.
    + rewrite Hq. unfold spec_scale, Qsign_neg, trunc. cbn.
      rewrite Z.mul_1_r. destruct (n <? 0) eqn:S.
      * apply Z.ltb_lt in S. destruct (0 <? n) eqn:P;
          [apply Z.ltb_lt in P; lia|].
        apply Z.quot_mul. lia.
      * apply Z.ltb_ge in S. destruct (0 <? n) eqn:P.
        -- apply Z.ltb_lt in P.
           rewrite Z.quot_div_nonneg by lia.
           symmetry. apply (Z.div_unique_pos _ _ _ (32768 - n)); lia.
        -- apply Z.ltb_ge in P. assert (n = 0) by lia. subst. reflexivity.
Qed.

(** X4 (lines 162-163 after lines 224-225): capturing a sample that was
    played from the 16-bit value [n] gives [n] back when [n] is not
    positive and [n - 1] when it is: the two scales, 32767 up and 32768
    down, lose one step on the positive side. *)
Theorem recapture_drift (n : Z) :
  -32768 <= n <= 32767 ->
  pcm16_of_sample (played n) = (if 0 <? n then n - 1 else n) /\
  (n <= 0 -> pcm16_of_sample (played n) = n) /\
  (0 < n -> pcm16_of_sample (played n) = n - 1).
Proof.
  intros H. pose proof (pcm16_played n H) as E. split; [exact E|].
  split; intros S; rewrite E.
  - destruct (0 <? n) eqn:P; [apply Z.ltb_lt in P; lia | reflexivity].
  - destruct (0 <? n) eqn:P; [reflexivity | apply Z.ltb_ge in P; lia].
Qed.

Lemma recapture_drift_witness :
  (-32768 <= 1000 <= 32767) /\
  pcm16_of_sample (played 1000) = 999 /\
  pcm16_of_sample (played (-1000)) = -1000.
Proof.
  split; [lia|]. split.
  - apply (proj2 (proj2 (recapture_drift 1000 ltac:(lia)))). lia.
  - apply (proj1 (proj2 (recapture_drift (-1000) ltac:(lia)))). lia.
Defined.

Lemma trunc_mono (p q : Q) : (p <= q)%Q -> trunc p <= trunc q.
Proof.
  intros H.
  destruct (trunc_bounds p) as [Pp Pn], (trunc_bounds q) as [Qp Qn].
  assert (C : (inject_Z (trunc p) < inject_Z (trunc q + 1))%Q).
  { rewrite inject_Z_plus. change (inject_Z 1) with (1 # 1)%Q.
    destruct (Qlt_le_dec p 0) as [N | N].
    - destruct Pn as [P1 P2]; [lra|].
      destruct (Qlt_le_dec q 0) as [M | M].
      + destruct Qn as [Q1 Q2]; [lra|]. lra.
      + destruct Qp as [Q1 Q2]; [lra|].
        assert (T : (inject_Z (trunc p) < 1)%Q) by lra.
        change (1 # 1)%Q with (inject_Z 1) in T. rewrite <- Zlt_Qlt in T.
        assert (U : (inject_Z (-1) < inject_Z (trunc q))%Q).
        { change (inject_Z (-1)) with (-1 # 1)%Q. lra. }
        rewrite <- Zlt_Qlt in U.
        assert (V : trunc p <= trunc q) by lia.
        rewrite Zle_Qle in V. lra.
    - destruct Pp as [P1 P2]; [lra|].
      destruct Qp as [Q1 Q2]; [lra|]. lra. }
  rewrite <- Zlt_Qlt in C. lia.
Qed.

Lemma spec_clamp_mono p q : (p <= q)%Q -> (spec_clamp p <= spec_clamp q)%Q.
Proof.
  intros H. unfold spec_clamp.
  destruct (Qle_bool p (-1 # 1)) eqn:P1, (Qle_bool q (-1 # 1)) eqn:Q1,
    (Qle_bool (1 # 1) p) eqn:P2, (Qle_bool (1 # 1) q) eqn:Q2;
    repeat match goal with
           | E : Qle_bool _ _ = true |- _ => apply Qle_bool_iff in E
           | E : Qle_bool ?a ?b = false |- _ =>
               assert (~ (a <= b)%Q) by (rewrite <- Qle_bool_iff; congruence);
               clear E
           end; lra.
Qed.

Lemma spec_scale_mono s t : (s <= t)%Q -> spec_scale s <= spec_scale t.
Proof.
  intros H. unfold spec_scale.
  destruct (Qsign_neg_spec s) as [Sn Sp], (Qsign_neg_spec t) as [Tn Tp].
  destruct (Qsign_neg s), (Qsign_neg t).
  - apply trunc_mono. lra.
  - specialize (Sn eq_refl). specialize (Tp eq_refl).
    transitivity (trunc (0 # 1)); apply trunc_mono; lra.
  - specialize (Sp eq_refl). specialize (Tn eq_refl). lra.
  - specialize (Sp eq_refl). specialize (Tp eq_refl). apply trunc_mono. lra.
Qed.

(** X5 (lines 162-163): the conversion of a finite sample to 16 bits is
    monotone. *)
Theorem encoder_monotone (p q : Q) :
  (p <= q)%Q -> pcm16_of_sample (Num p) <= pcm16_of_sample (Num q).
Proof.
  intros H. rewrite !pcm16_Num. now apply spec_scale_mono, spec_clamp_mono.
Qed.

Lemma encoder_monotone_witness :
  (1 # 4 <= 1 # 2)%Q /\
  pcm16_of_sample (Num (1 # 4)) <= pcm16_of_sample (Num (1 # 2)).
Proof.
  assert (H : (1 # 4 <= 1 # 2)%Q) by (unfold Qle; cbn; lia).
  split; [exact H | exact (encoder_monotone _ _ H)].
Defined.

End WireFormat.

(* ================================================================== *)
(** * Further properties of the session *)
(* ================================================================== *)

Section Coverage.
Import Js App.
Local Open Scope string_scope.
Local Open Scope list_scope.
Local Open Scope Z_scope.

Variable JSON_parse : string -> option json.
Variable ToString : json -> string.
Variable has_getUserMedia : bool.

Ltac destruct_world w :=
  destruct w as [neg lvl conn whs dbg wsr ctx str proc cnt socks tnow tms con eff].

Ltac wcbv :=
  cbv beta iota zeta delta
    [setIsNegotiating_state setAudioLevel setIsConnected setWhispers
     setDebugInfo set_wsRef set_audioContextRef set_mediaStreamRef
     set_processorRef set_whisperIdCounter set_sockets set_now set_timers
     console_log console_error emit setTimeout traced set_readyState
     readyState releases loop_state session socket_state preview
     isNegotiating audioLevel isConnected whispers debugInfo wsRef
     audioContextRef mediaStreamRef processorRef whisperIdCounter sockets
     now timers console effects status lastMessage].

(** *** Messages that enable no branch *)

Lemma setAudioLevel_same w : setAudioLevel (audioLevel w) w = w.
Proof. destruct_world w. reflexivity. Qed.

Lemma onmessage_idle raw data w :
  JSON_parse raw = Some data -> data <> JNull ->
  creates_whisper data = false ->
  typed_audio data = false -> legacy_audio data = false ->
  truthy (prop data "text") && negb (truthy (prop data "type")) = false ->
  onmessage JSON_parse ToString raw w = route_volume data (preview raw w).
Proof.
  intros H N C T L X.
  rewrite (onmessage_parsed JSON_parse ToString raw data w H N).
  assert (A : audio_lines ToString data = []).
  { unfold audio_lines. rewrite T, L. now destruct (prop data "audio"). }
  assert (B : audio_calls ToString data = []).
  { unfold audio_calls. rewrite T, L. now destruct (prop data "audio"). }
  assert (D : text_lines data = []) by (unfold text_lines; now rewrite X).
  rewrite A, B, D. cbn [app]. rewrite traced_nil.
  destruct (route_whisper_cases data (route_volume data (preview raw w)))
    as [(C' & _) | (_ & ->)]; [congruence | reflexivity].
Qed.

(** X6 (lines 44-91): a message that parses to [null] is reported as a
    parse error; one that parses to a value with none of the fields
    [vol], [type], [text], [audio], in particular to a number, a string, a
    boolean or an array, changes the preview of the debug panel and
    nothing else. *)
Theorem message_without_fields raw data w :
  JSON_parse raw = Some data ->
  (data = JNull ->
     onmessage JSON_parse ToString raw w
     = console_error "[WS] Error parsing message:" (preview raw w)) /\
  (data <> JNull ->
     prop data "vol" = None -> prop data "type" = None ->
     prop data "text" = None -> prop data "audio" = None ->
     onmessage JSON_parse ToString raw w = preview raw w) /\
  (data <> JNull -> (forall fields, data <> JObject fields) ->
     onmessage JSON_parse ToString raw w = preview raw w).
Proof.
  intros H.
  assert (K : data <> JNull ->
              prop data "vol" = None -> prop data "type" = None ->
              prop data "text" = None -> prop data "audio" = None ->
              onmessage JSON_parse ToString raw w = preview raw w).
  { intros N V Ty Tx A.
    rewrite (onmessage_idle raw data w H N).
    - unfold route_volume. now rewrite V.
    - unfold creates_whisper. now rewrite Ty.
    - unfold typed_audio. now rewrite Ty.
    - unfold legacy_audio. now rewrite A.
    - now rewrite Tx. }
  split; [|split].
  - intros ->. now apply onmessage_null.
  - exact K.
  - intros N O. apply K; try assumption;
      destruct data; try reflexivity; exfalso; eapply O; reflexivity.
Qed.

(** X7 (lines 51-87): a message whose [type] is truthy and is neither
    ["whisper"] nor ["audio"] enables no branch but the volume: no
    annotation, no timer, no playback, no console line, whatever [text]
    and [audio] it carries. *)
Theorem unrecognised_type raw data ty w :
  JSON_parse raw = Some data ->
  prop data "type" = Some ty ->
  truthy (Some ty) = true ->
  ty <> JString "whisper" -> ty <> JString "audio" ->
  let w' := onmessage JSON_parse ToString raw w in
  w' = route_volume data (preview raw w) /\
  whispers w' = whispers w /\
  timers w' = timers w /\
  console w' = console w /\
  effects w' = effects w /\
  audioLevel w' =
    match prop data "vol" with Some v => v | None => audioLevel w end.
Proof.
  intros H Ty Tr Nw Na. cbv zeta.
  assert (N : data <> JNull) by (intros ->; discriminate).
  assert (Sw : strict_eq_string (Some ty) "whisper" = false).
  { destruct ty; try reflexivity. cbn. apply String.eqb_neq. congruence. }
  assert (Sa : strict_eq_string (Some ty) "audio" = false).
  { destruct ty; try reflexivity. cbn. apply String.eqb_neq. congruence. }
  rewrite (onmessage_idle raw data w H N).
  - split; [reflexivity|]. rewrite route_volume_shape.
    destruct_world w. repeat split.
  - unfold creates_whisper. now rewrite Ty, Sw.
  - unfold typed_audio. now rewrite Ty, Sa.
  - unfold legacy_audio. rewrite Ty, Tr. apply andb_false_r.
  - rewrite Ty, Tr. apply andb_false_r.
Qed.

(** *** The start intent *)

Lemma length_list_set {A} i (x : A) l : length (list_set i x l) = length l.
Proof.
  revert i. induction l as [|y l IH]; intros [|i]; cbn; auto.
Qed.

Lemma length_after_close ws socks : length (after_close ws socks) = length socks.
Proof.
  unfold after_close.
  destruct (nth_error socks ws) as [[]|]; auto using length_list_set.
Qed.

Lemma start_shape w :
  connectWebSocket (disconnectWebSocket (setIsNegotiating_state true w)) =
  mkWorld true (JNumber (0 # 1)) false []
    (mkDebugInfo "Connecting..." EmptyString)
    (Some (length (sockets w))) None None None (whisperIdCounter w)
    (closed_sockets w ++ [CONNECTING])
    (now w) (timers w)
    (console w
     ++ match wsRef w with Some _ => ["[WS] Closing connection"] | None => [] end
     ++ ["[AUDIO] Stopping audio capture";
         "[WS] Connecting to ws://localhost:8000/ws"])
    (effects w
     ++ match wsRef w with Some ws => [WebSocket_close ws] | None => [] end
     ++ releases w ++ [WebSocket_new (length (sockets w))]).
Proof.
  rewrite disconnectWebSocket_shape. unfold connectWebSocket, closed_sockets.
  destruct_world w. wcbv.
  replace (length match wsr with
                  | Some ws => after_close ws socks
                  | None => socks
                  end) with (length socks)
    by (destruct wsr; now rewrite ?length_after_close).
  rewrite <- !app_assoc. reflexivity.
Qed.

(** X8 (lines 18-32, 247): the start intent.  During a session it does
    nothing; otherwise it leaves the status [Connecting...], no
    annotation, no capture resource, and a new socket, connecting, held
    by [wsRef], the previous socket closed and the held resources
    released first; the id counter and the timers are kept. *)
Theorem start_intent w :
  (isNegotiating w = true -> setIsNegotiating true w = w) /\
  (isNegotiating w = false ->
   let w' := setIsNegotiating true w in
   let ws := length (sockets w) in
   isNegotiating w' = true /\
   debugInfo w' = mkDebugInfo "Connecting..." EmptyString /\
   isConnected w' = false /\
   audioLevel w' = JNumber (0 # 1) /\
   whispers w' = [] /\
   capture_stopped w' /\
   wsRef w' = Some ws /\
   sockets w' = closed_sockets w ++ [CONNECTING] /\
   readyState ws w' = Some CONNECTING /\
   effects w' =
     effects w
     ++ match wsRef w with Some old => [WebSocket_close old] | None => [] end
     ++ releases w ++ [WebSocket_new ws] /\
   whisperIdCounter w' = whisperIdCounter w /\
   timers w' = timers w).
Proof.
  split.
  - intros H. unfold setIsNegotiating. now rewrite H.
  - intros H. cbv zeta. unfold setIsNegotiating. rewrite H. cbn [Bool.eqb].
    cbv zeta iota. rewrite start_shape. cbn.
    repeat split.
    unfold readyState. cbn.
    assert (L : length (closed_sockets w) = length (sockets w)).
    { unfold closed_sockets. destruct (wsRef w);
        now rewrite ?length_after_close. }
    rewrite nth_error_app2 by lia. rewrite L, Nat.sub_diag. reflexivity.
Qed.

(** *** Capture start and stop *)



(** X13 (lines 98-117, 119-151): a stop does not cancel a pending
    microphone request.  When the grant arrives after the stop, the
    three handles are stored in a session that is off and has no socket:
    every captured block is dropped and a second stop does nothing.  The
    handles are released by the cleanup of the next start, and by the
    close event of a socket, which the socket that was stopped while
    connecting or open can still deliver. *)
Theorem grant_after_stop stream context processor w :
  isNegotiating w = true ->
  let w0 := setIsNegotiating false w in
  let w1 := after_getUserMedia (Fulfilled stream) (Fulfilled (context, false))
              (Fulfilled processor) w0 in
  let held := [Processor_disconnect processor; Tracks_stop stream;
               AudioContext_close context] in
  torn_down w0 /\
  (mediaStreamRef w1 = Some stream /\ audioContextRef w1 = Some context /\
   processorRef w1 = Some processor) /\
  (isNegotiating w1 = false /\ wsRef w1 = None) /\
  effects w1 = effects w0 ++ [AudioContext_new context;
                              Pipeline_connected stream context processor] /\
  (forall inputData, onaudioprocess inputData w1 = w1) /\
  setIsNegotiating false w1 = w1 /\
  effects (setIsNegotiating true w1) =
    effects w1 ++ held ++ [WebSocket_new (length (sockets w1))] /\
  (forall ws code,
     deliverable (Socket_close ws code) w1 = true ->
     let w2 := handle JSON_parse ToString (Socket_close ws code) w1 in
     effects w2 = effects w1 ++ held /\
     capture_stopped w2 /\
     isNegotiating w2 = false) /\
  (forall ws code,
     wsRef w = Some ws ->
     readyState ws w = Some CONNECTING \/ readyState ws w = Some OPEN ->
     readyState ws w1 = Some CLOSING /\
     deliverable (Socket_close ws code) w1 = true).
Proof.
  intros H. cbv zeta.
  destruct (stop_tears_down w H) as [T N].
  assert (K : sockets (setIsNegotiating false w) = closed_sockets w)
    by now rewrite (stop_shape w H).
  set (w0 := setIsNegotiating false w) in *.
  assert (S : wsRef w0 = None) by apply T.
  rewrite capture_started_shape.
  split; [exact T|].
  split; [repeat split|].
  split; [split; [exact N | exact S]|].
  split; [reflexivity|].
  split; [|split; [|split; [|split]]].
  - intros inputData. unfold onaudioprocess. cbn [wsRef]. now rewrite S.
  - unfold setIsNegotiating. cbn [isNegotiating]. now rewrite N.
  - unfold setIsNegotiating. cbn [isNegotiating]. rewrite N. cbn [Bool.eqb].
    cbv zeta iota. rewrite start_shape. cbn. rewrite S. reflexivity.
  - intros ws code D. unfold handle. rewrite D. cbn [negb].
    rewrite onclose_shape. cbn. repeat split. exact N.
  - intros ws code R L.
    assert (C : nth_error (closed_sockets w) ws = Some CLOSING).
    { rewrite (closed_readyState ws w R). now destruct L as [-> | ->]. }
    unfold deliverable, readyState. cbn [sockets]. rewrite K, C.
    split; reflexivity.
Qed.

(** *** The message preview *)

Lemma length_substring n s :
  String.length (substring 0 n s) = Nat.min n (String.length s).
Proof.
  revert s. induction n as [|n IH]; intros [|c s]; cbn; auto.
Qed.

Lemma length_append s t :
  String.length (String.append s t) = (String.length s + String.length t)%nat.
Proof. induction s as [|c s IH]; cbn; auto. Qed.

Lemma substring_all n s :
  (String.length s <= n)%nat -> substring 0 n s = s.
Proof.
  revert s. induction n as [|n IH]; intros [|c s]; cbn; intros H; auto.
  - lia.
  - f_equal. apply IH. lia.
Qed.

Lemma substring_append n s t :
  (n <= String.length s)%nat ->
  substring 0 n (String.append s t) = substring 0 n s.
Proof.
  revert s. induction n as [|n IH]; intros [|c s]; cbn; intros H; auto.
  - now destruct t.
  - lia.
  - f_equal. apply IH. lia.
Qed.

(** X14 (line 45): the preview of a message has at most 53 characters
    and the first 50 characters of the message; a message of up to 50
    characters is shown whole, a longer one as its first 50 characters
    and three dots. *)
Theorem msgPreview_bounded (event_data : string) :
  (String.length (msgPreview event_data) <= 53)%nat /\
  substring 0 50 (msgPreview event_data) = substring 0 50 event_data /\
  ((String.length event_data <= 50)%nat -> msgPreview event_data = event_data) /\
  ((50 < String.length event_data)%nat ->
   msgPreview event_data = String.append (substring 0 50 event_data) "..." /\
   String.length (msgPreview event_data) = 53%nat).
Proof.
  unfold msgPreview.
  destruct (50 <? String.length event_data)%nat eqn:E.
  - apply Nat.ltb_lt in E.
    assert (L : String.length (substring 0 50 event_data) = 50%nat)
      by (rewrite length_substring; lia).
    split; [|split; [|split]].
    + rewrite length_append, L. cbn. lia.
    + rewrite substring_append by lia.
      apply substring_all. lia.
    + lia.
    + intros _. split; [reflexivity|]. now rewrite length_append, L.
  - apply Nat.ltb_ge in E. split; [|split; [|split]]; auto; lia.
Qed.

Lemma msgPreview_bounded_witness :
  (String.length msg_not_json <= 50)%nat /\
  msgPreview msg_not_json = msg_not_json.
Proof.
  assert (H : (String.length msg_not_json <= 50)%nat) by (cbn; lia).
  split; [exact H|].
  exact (proj1 (proj2 (proj2 (msgPreview_bounded msg_not_json))) H).
Defined.

(** *** The capture stream on an open socket *)

Lemma emit_traced e w : emit e w = traced [] [e] w.
Proof. destruct_world w. wcbv. now rewrite app_nil_r. Qed.

Lemma onaudioprocess_open inputData ws w :
  wsRef w = Some ws -> readyState ws w = Some OPEN ->
  onaudioprocess inputData w = traced [] [send_of ws inputData] w.
Proof.
  intros R O. unfold onaudioprocess. rewrite R, O. cbn [is_OPEN negb].
  apply emit_traced.
Qed.

(** X15 (lines 153-182): on an open socket, the blocks captured one after
    the other are sent one envelope each, in capture order, and nothing
    else changes. *)
Theorem capture_stream_in_order (blocks : list (list float)) ws w :
  wsRef w = Some ws -> readyState ws w = Some OPEN ->
  run JSON_parse ToString has_getUserMedia
    (map (fun b => Deliver (Audio_process b)) blocks) w
  = traced [] (map (send_of ws) blocks) w.
Proof.
  revert w. induction blocks as [|b blocks IH]; intros w R O.
  - cbn. now rewrite traced_nil.
  - cbn [map]. rewrite run_cons. cbn [step]. unfold handle.
    cbn [deliverable negb]. rewrite (onaudioprocess_open b ws w R O).
    rewrite IH by assumption.
    rewrite traced_traced. reflexivity.
Qed.

(** *** A captured block played back *)

Lemma atob_argument_string s : atob_argument ToString (JString s) = s.
Proof. reflexivity. Qed.

Lemma atob_encode_block inputData :
  exists audioBytes,
    Base64.atob (Pcm.encode_block inputData) = Some audioBytes /\
    Pcm.decode_bytes audioBytes =
      map (fun x => Pcm.played (Pcm.pcm16_of_sample x)) inputData.
Proof.
  pose proof (decode_encode_block inputData) as H.
  unfold Pcm.decode_payload in H.
  destruct (Base64.atob (Pcm.encode_block inputData)) as [bytes|];
    [|discriminate].
  exists bytes. split; [reflexivity|].
  cbn [option_map] in H. now injection H.
Qed.

(** X16 (lines 160-168, 215-238): the payload the capture side makes of a
    block, handed to [playPcmChunk], is played as one buffer whose
    samples are the captured ones within the error of the asymmetric
    scale; the payload of the empty block ends in the error branch,
    [createBuffer] refusing a length of 0. *)
Theorem captured_block_played_back (inputData : list float) w :
  let float32Data :=
    map (fun x => Pcm.played (Pcm.pcm16_of_sample x)) inputData in
  playPcmChunk ToString (JString (Pcm.encode_block inputData)) w =
    match inputData with
    | [] =>
        traced ["[AUDIO] Error playing audio:"]
          [playPcmChunk_called (JString (Pcm.encode_block inputData));
           Output_context_new] w
    | _ =>
        traced []
          [playPcmChunk_called (JString (Pcm.encode_block inputData));
           Output_context_new; Source_start float32Data] w
    end /\
  Forall2 Pcm.reconstructs_asym inputData float32Data.
Proof.
  cbv zeta. split.
  - rewrite playPcmChunk_shape. unfold play_lines, play_calls.
    rewrite atob_argument_string.
    destruct (atob_encode_block inputData) as (bytes & -> & ->).
    destruct inputData as [|x xs]; reflexivity.
  - induction inputData as [|x xs IH]; cbn [map]; constructor.
    + apply sample_error.
    + exact IH.
Qed.

(** *** Sockets: at most one is live, and it is the current one *)

Lemma socket_invariant_ext w w' :
  socket_state w' = socket_state w -> socket_invariant w -> socket_invariant w'.
Proof.
  unfold socket_state. intros E [C S].
  assert (E1 : isNegotiating w' = isNegotiating w) by congruence.
  assert (E2 : wsRef w' = wsRef w) by congruence.
  assert (E3 : sockets w' = sockets w) by congruence.
  constructor; rewrite ?E1, ?E2, ?E3; assumption.
Qed.

Lemma traced_sockets c e w : socket_state (traced c e w) = socket_state w.
Proof. reflexivity. Qed.

Lemma capture_failed_sockets message w :
  socket_state (capture_failed message w) = socket_state w.
Proof. destruct_world w. unfold capture_failed. wcbv. reflexivity. Qed.

Lemma startAudioCapture_sockets w :
  socket_state (startAudioCapture has_getUserMedia w) = socket_state w.
Proof.
  unfold startAudioCapture. destruct has_getUserMedia.
  - destruct_world w. wcbv. reflexivity.
  - rewrite capture_failed_sockets. destruct_world w. wcbv. reflexivity.
Qed.

Lemma connect_pipeline_sockets stream graph w :
  socket_state (connect_pipeline stream graph w) = socket_state w.
Proof.
  unfold connect_pipeline.
  destruct (audioContextRef w); [destruct graph|];
    try apply capture_failed_sockets.
  destruct_world w. wcbv. reflexivity.
Qed.

Lemma after_getUserMedia_sockets stream context graph w :
  socket_state (after_getUserMedia stream context graph w) = socket_state w.
Proof.
  unfold after_getUserMedia.
  destruct stream as [s|m]; [|apply capture_failed_sockets].
  destruct context as [[c [|]]|m]; cbv zeta.
  - destruct_world w. wcbv. reflexivity.
  - rewrite connect_pipeline_sockets. destruct_world w. wcbv. reflexivity.
  - rewrite capture_failed_sockets. destruct_world w. wcbv. reflexivity.
Qed.

Lemma after_resume_sockets stream resumed graph w :
  socket_state (after_resume stream resumed graph w) = socket_state w.
Proof.
  unfold after_resume. destruct resumed; [|apply capture_failed_sockets].
  cbv zeta. rewrite connect_pipeline_sockets. destruct_world w. wcbv.
  reflexivity.
Qed.

Lemma onopen_sockets w : socket_state (onopen w) = socket_state w.
Proof. destruct_world w. unfold onopen. wcbv. reflexivity. Qed.

Lemma onerror_sockets w : socket_state (onerror w) = socket_state w.
Proof. destruct_world w. unfold onerror. wcbv. reflexivity. Qed.

Lemma onclose_sockets code w : socket_state (onclose code w) = socket_state w.
Proof. rewrite onclose_shape. reflexivity. Qed.

Lemma onaudioprocess_sockets inputData w :
  socket_state (onaudioprocess inputData w) = socket_state w.
Proof.
  unfold onaudioprocess. destruct (wsRef w) as [ws|]; [|reflexivity].
  destruct (negb (is_OPEN (readyState ws w))); [reflexivity|].
  destruct_world w. wcbv. reflexivity.
Qed.

Lemma onmessage_sockets raw w :
  socket_state (onmessage JSON_parse ToString raw w) = socket_state w.
Proof.
  assert (P : socket_state (preview raw w) = socket_state w)
    by (destruct_world w; wcbv; reflexivity).
  assert (C : forall line x,
             socket_state (console_error line x) = socket_state x)
    by (intros line x; destruct_world x; wcbv; reflexivity).
  destruct (JSON_parse raw) as [data|] eqn:E.
  - assert (D : data = JNull \/ data <> JNull)
      by (destruct data; (now left) || (right; discriminate)).
    destruct D as [->|D].
    + rewrite (onmessage_null JSON_parse ToString raw w E). now rewrite C.
    + rewrite (onmessage_parsed JSON_parse ToString raw data w E D).
      rewrite traced_sockets.
      destruct (route_whisper_cases data
                  (route_volume data (preview raw w)))
        as [(_ & t & _ & ->)|(_ & ->)].
      * transitivity (socket_state (route_volume data (preview raw w)));
          [reflexivity|].
        rewrite route_volume_shape. rewrite <- P. reflexivity.
      * rewrite route_volume_shape. rewrite <- P. reflexivity.
  - rewrite (onmessage_not_json JSON_parse ToString raw w E). now rewrite C.
Qed.

Lemma set_readyState_sockets ws s w :
  socket_state (set_readyState ws s w) =
  (isNegotiating w, wsRef w, list_set ws s (sockets w)).
Proof. reflexivity. Qed.

Lemma stop_sockets w :
  isNegotiating w = true ->
  socket_state (setIsNegotiating false w) = (false, None, closed_sockets w).
Proof.
  intros H. unfold setIsNegotiating. rewrite H. cbn [Bool.eqb].
  cbv zeta iota. rewrite !disconnectWebSocket_shape.
  destruct_world w. unfold closed_sockets. wcbv. reflexivity.
Qed.

Lemma start_sockets w :
  isNegotiating w = false ->
  socket_state (setIsNegotiating true w) =
  (true, Some (length (sockets w)), closed_sockets w ++ [CONNECTING]).
Proof.
  intros H. unfold setIsNegotiating. rewrite H. cbn [Bool.eqb].
  cbv zeta iota. rewrite start_shape. reflexivity.
Qed.

Lemma nth_error_list_set_ne {A} i j (x : A) l :
  i <> j -> nth_error (list_set i x l) j = nth_error l j.
Proof.
  revert i j. induction l as [|y l IH]; intros [|i] [|j] H; cbn; auto.
  - congruence.
Qed.

Lemma nth_error_list_set_eq {A} i (x s : A) l :
  nth_error (list_set i x l) i = Some s -> s = x.
Proof.
  revert i. induction l as [|y l IH]; intros [|i]; cbn; try discriminate.
  - congruence.
  - apply IH.
Qed.

Lemma closed_sockets_stale w j s :
  socket_invariant w ->
  nth_error (closed_sockets w) j = Some s -> s = CLOSING \/ s = CLOSED.
Proof.
  intros [_ S]. unfold closed_sockets.
  destruct (wsRef w) as [ws|] eqn:R.
  - unfold after_close. intros H.
    destruct (Nat.eq_dec ws j) as [->|N].
    + destruct (nth_error (sockets w) j) as [[]|] eqn:E;
        [apply nth_error_list_set_eq in H; now left
        |apply nth_error_list_set_eq in H; now left
        |rewrite E in H; injection H as <-; now left
        |rewrite E in H; injection H as <-; now right
        |rewrite E in H; discriminate].
    + apply (S j s); [|congruence].
      destruct (nth_error (sockets w) ws) as [[]|];
        rewrite ?nth_error_list_set_ne in H by assumption; assumption.
  - intros H. apply (S j s H). discriminate.
Qed.

Lemma stop_invariant w :
  socket_invariant w -> socket_invariant (setIsNegotiating false w).
Proof.
  intros I. destruct (isNegotiating w) eqn:H.
  - pose proof (stop_sockets w H) as E. unfold socket_state in E.
    assert (E1 : isNegotiating (setIsNegotiating false w) = false)
      by congruence.
    assert (E2 : wsRef (setIsNegotiating false w) = None) by congruence.
    assert (E3 : sockets (setIsNegotiating false w) = closed_sockets w)
      by congruence.
    constructor; rewrite ?E2, ?E3.
    + exact E1.
    + intros j s G _. exact (closed_sockets_stale w j s I G).
  - unfold setIsNegotiating. rewrite H. exact I.
Qed.

Lemma start_invariant w :
  socket_invariant w -> socket_invariant (setIsNegotiating true w).
Proof.
  intros I. destruct (isNegotiating w) eqn:H.
  - unfold setIsNegotiating. rewrite H. exact I.
  - pose proof (start_sockets w H) as E. unfold socket_state in E.
    assert (E1 : isNegotiating (setIsNegotiating true w) = true)
      by congruence.
    assert (E2 : wsRef (setIsNegotiating true w) = Some (length (sockets w)))
      by congruence.
    assert (E3 : sockets (setIsNegotiating true w)
                 = closed_sockets w ++ [CONNECTING]) by congruence.
    assert (L : length (closed_sockets w) = length (sockets w)).
    { unfold closed_sockets. destruct (wsRef w);
        now rewrite ?length_after_close. }
    constructor; rewrite ?E2, ?E3.
    + split; [exact E1|]. rewrite length_app, L. cbn. lia.
    + intros j s G N.
      destruct (Nat.lt_ge_cases j (length (closed_sockets w))) as [Lt|Ge].
      * rewrite nth_error_app1 in G by assumption.
        exact (closed_sockets_stale w j s I G).
      * rewrite nth_error_app2 in G by assumption.
        destruct (j - length (closed_sockets w))%nat as [|k] eqn:K.
        -- exfalso. apply N. f_equal. lia.
        -- destruct k; discriminate.
Qed.

Lemma open_invariant ws w :
  readyState ws w = Some CONNECTING ->
  socket_invariant w -> socket_invariant (set_readyState ws OPEN w).
Proof.
  intros O [C S]. unfold readyState in O.
  constructor; cbn [set_readyState set_sockets wsRef isNegotiating sockets].
  - rewrite length_list_set. exact C.
  - intros j s G N. destruct (Nat.eq_dec ws j) as [->|D].
    + destruct (S j CONNECTING O N); discriminate.
    + rewrite nth_error_list_set_ne in G by assumption. exact (S j s G N).
Qed.

Lemma close_invariant ws w :
  socket_invariant w -> socket_invariant (set_readyState ws CLOSED w).
Proof.
  intros [C S].
  constructor; cbn [set_readyState set_sockets wsRef isNegotiating sockets].
  - rewrite length_list_set. exact C.
  - intros j s G N. destruct (Nat.eq_dec ws j) as [->|D].
    + apply nth_error_list_set_eq in G. now right.
    + rewrite nth_error_list_set_ne in G by assumption. exact (S j s G N).
Qed.

Lemma handle_invariant e w :
  socket_invariant w -> socket_invariant (handle JSON_parse ToString e w).
Proof.
  intros I. unfold handle.
  destruct (deliverable e w) eqn:D; cbn [negb]; [|exact I].
  destruct e.
  - now apply start_invariant.
  - now apply stop_invariant.
  - apply (socket_invariant_ext (set_readyState ws OPEN w));
      [apply onopen_sockets|].
    apply open_invariant; [|exact I].
    cbn [deliverable] in D. destruct (readyState ws w) as [[]|];
      try discriminate. reflexivity.
  - exact (socket_invariant_ext _ _ (onmessage_sockets _ _) I).
  - exact (socket_invariant_ext _ _ (onerror_sockets _) I).
  - apply (socket_invariant_ext (set_readyState ws CLOSED w));
      [apply onclose_sockets|].
    now apply close_invariant.
  - exact (socket_invariant_ext _ _ (after_getUserMedia_sockets _ _ _ _) I).
  - exact (socket_invariant_ext _ _ (after_resume_sockets _ _ _ _) I).
  - exact (socket_invariant_ext _ _ (onaudioprocess_sockets _ _) I).
Qed.

Lemma fire_invariant a w :
  socket_invariant w -> socket_invariant (fire has_getUserMedia a w).
Proof.
  intros I. destruct a; cbn [fire].
  - exact (socket_invariant_ext _ _ (startAudioCapture_sockets _) I).
  - now apply (socket_invariant_ext w).
  - now apply stop_invariant.
Qed.

Lemma elapse_invariant dt w :
  socket_invariant w -> socket_invariant (elapse has_getUserMedia dt w).
Proof.
  unfold elapse. apply advance_preserves.
  - intros x d a l1 l2 I _ _ _. apply fire_invariant.
    now apply (socket_invariant_ext x).
  - intros x I. now apply (socket_invariant_ext x).
Qed.

Lemma run_invariant inputs w :
  socket_invariant w ->
  socket_invariant (run JSON_parse ToString has_getUserMedia inputs w).
Proof.
  revert w. induction inputs as [|i inputs IH]; intros w I; [exact I|].
  rewrite run_cons. apply IH. destruct i; cbn [step].
  - now apply elapse_invariant.
  - now apply handle_invariant.
Qed.

Lemma booted_invariant : socket_invariant booted.
Proof.
  constructor.
  - reflexivity.
  - intros [|j] s G; discriminate.
Qed.

(** X9 (lines 18-32, 98-117): in every state the component reaches,
    [wsRef] is empty exactly when the session is off; the socket it holds
    is the newest one; a socket that is connecting or open is the one
    [wsRef] holds, so at most one socket is live; and while the session
    is off every captured block is dropped. *)
Theorem single_live_socket (inputs : list Input) :
  let w := run JSON_parse ToString has_getUserMedia inputs booted in
  (wsRef w = None <-> isNegotiating w = false) /\
  (forall ws, wsRef w = Some ws -> S ws = length (sockets w)) /\
  (forall j s,
     nth_error (sockets w) j = Some s -> s = CONNECTING \/ s = OPEN ->
     wsRef w = Some j) /\
  (isNegotiating w = false ->
   forall inputData, onaudioprocess inputData w = w).
Proof.
  cbv zeta.
  destruct (run_invariant inputs booted booted_invariant) as [C S].
  set (w := run JSON_parse ToString has_getUserMedia inputs booted) in *.
  assert (N : wsRef w = None <-> isNegotiating w = false).
  { destruct (wsRef w) as [ws|]; split; intros H;
      try reflexivity; try discriminate; try assumption.
    destruct C as [C _]. congruence. }
  split; [exact N|]. split; [|split].
  - intros ws R. rewrite R in C. apply C.
  - intros j s G L.
    destruct (wsRef w) as [ws|] eqn:R.
    + destruct (Nat.eq_dec ws j) as [->|D]; [reflexivity|].
      destruct (S j s G) as [->| ->];
        [congruence | destruct L; discriminate | destruct L; discriminate].
    + destruct (S j s G) as [->| ->];
        [discriminate | destruct L; discriminate | destruct L; discriminate].
  - intros H inputData. apply N in H. unfold onaudioprocess. now rewrite H.
Qed.

(** *** Annotations on screen are recent *)

Lemma loop_state_eq w a b c d e :
  loop_state w = (a, b, c, d, e) ->
  isNegotiating w = a /\ whispers w = b /\ whisperIdCounter w = c /\
  timers w = d /\ now w = e.
Proof. unfold loop_state. intros H. repeat split; congruence. Qed.

Lemma fresh_mono w w' x :
  now w <= now w' ->
  (forall tm, In tm (timers w) -> In tm (timers w')) ->
  fresh_annotation w x -> fresh_annotation w' x.
Proof.
  intros N T [A B]. split; [lia | now apply T].
Qed.

Lemma change_fresh timer w w' :
  loop_change timer w w' ->
  Forall (fresh_annotation w) (whispers w) ->
  Forall (fresh_annotation w') (whispers w').
Proof.
  intros C F.
  destruct C as [E|a delay Hd Ha E|Hn E|t Ht E|k Ht E];
    apply loop_state_eq in E; destruct E as (_ & E2 & _ & E4 & E5);
    rewrite E2.
  - eapply Forall_impl; [|exact F]. intros x.
    apply fresh_mono; [lia | now rewrite E4].
  - eapply Forall_impl; [|exact F]. intros x.
    apply fresh_mono; [lia|]. intros tm G. rewrite E4. apply in_or_app.
    now left.
  - constructor.
  - apply Forall_app. split.
    + eapply Forall_impl; [|exact F]. intros x.
      apply fresh_mono; [lia|]. intros tm G. rewrite E4. apply in_or_app.
      now left.
    + constructor; [|constructor]. split; cbn [timestamp id]; [lia|].
      rewrite E4. apply in_or_app. right. now left.
  - apply Forall_filter. eapply Forall_impl; [|exact F]. intros x.
    apply fresh_mono; [lia | now rewrite E4].
Qed.

Lemma change_future timer w w' :
  loop_change timer w w' ->
  Forall (fun tm => now w < fst tm) (timers w) ->
  Forall (fun tm => now w' < fst tm) (timers w').
Proof.
  intros C F.
  destruct C as [E|a delay Hd Ha E|Hn E|t Ht E|k Ht E];
    apply loop_state_eq in E; destruct E as (_ & _ & _ & E4 & E5);
    rewrite E4, E5; try exact F.
  - apply Forall_app. split; [exact F|].
    constructor; [cbn [fst]; lia | constructor].
  - apply Forall_app. split; [exact F|].
    constructor; [cbn [fst]; lia | constructor].
Qed.

Lemma fire_fresh d a l1 l2 w :
  timers w = l1 ++ (d, a) :: l2 ->
  Forall (fresh_annotation w) (whispers w) ->
  let w' := fire has_getUserMedia a (pop d (l1 ++ l2) w) in
  Forall (fresh_annotation w') (whispers w').
Proof.
  intros T F. cbv zeta.
  assert (G : (forall k, a <> RemoveWhisper k) ->
            Forall (fresh_annotation (pop d (l1 ++ l2) w))
                   (whispers (pop d (l1 ++ l2) w))).
  { intros N. change (whispers (pop d (l1 ++ l2) w)) with (whispers w).
    eapply Forall_impl; [|exact F]. intros x [A B]. split.
    - change (now (pop d (l1 ++ l2) w)) with (Z.max (now w) d). lia.
    - change (timers (pop d (l1 ++ l2) w)) with (l1 ++ l2).
      rewrite T in B. apply in_app_or in B. apply in_or_app.
      destruct B as [B|[B|B]]; [now left | | now right].
      exfalso. apply (N (id x)). congruence. }
  destruct a as [|k|].
  - apply (change_fresh true (pop d (l1 ++ l2) w));
      [apply fire_change | apply G; intros; discriminate].
  - cbn [fire].
    change (whispers (setWhispers (filter (fun x => negb (id x =? k)))
                        (pop d (l1 ++ l2) w)))
      with (filter (fun x => negb (id x =? k)) (whispers w)).
    apply Forall_forall. intros x I. apply filter_In in I.
    destruct I as [I K].
    destruct (proj1 (Forall_forall _ _) F x I) as [A B]. split.
    + change (timestamp x <= Z.max (now w) d). lia.
    + change (In (timestamp x + 10000, RemoveWhisper (id x)) (l1 ++ l2)).
      rewrite T in B. apply in_app_or in B. apply in_or_app.
      destruct B as [B|[B|B]]; [now left | | now right].
      exfalso. injection B as _ B. rewrite B, Z.eqb_refl in K. discriminate.
  - apply (change_fresh true (pop d (l1 ++ l2) w));
      [apply fire_change | apply G; intros; discriminate].
Qed.

Lemma elapse_fresh dt w :
  Forall (fresh_annotation w) (whispers w) ->
  Forall (fresh_annotation (elapse has_getUserMedia dt w))
         (whispers (elapse has_getUserMedia dt w)).
Proof.
  unfold elapse.
  apply (advance_preserves has_getUserMedia
           (fun x => Forall (fresh_annotation x) (whispers x))).
  - intros x d a l1 l2 F T _ _. now apply fire_fresh.
  - intros x F.
    change (whispers (set_now (Z.max (now x) (now w + Z.max 0 dt)) x))
      with (whispers x).
    eapply Forall_impl; [|exact F]. intros y [A B]. split; [|exact B].
    change (timestamp y <= Z.max (now x) (now w + Z.max 0 dt)). lia.
Qed.

Lemma step_recent i w :
  Forall (fun tm => now w < fst tm) (timers w) /\
  Forall (fresh_annotation w) (whispers w) ->
  let w' := step JSON_parse ToString has_getUserMedia i w in
  Forall (fun tm => now w' < fst tm) (timers w') /\
  Forall (fresh_annotation w') (whispers w').
Proof.
  intros [T F]. cbv zeta. destruct i as [dt|e]; cbn [step].
  - split; [|now apply elapse_fresh].
    destruct (elapse_complete has_getUserMedia dt w) as [C ->]. exact C.
  - pose proof (handle_change JSON_parse ToString e w) as C. split.
    + exact (change_future _ _ _ C T).
    + exact (change_fresh _ _ _ C F).
Qed.

Lemma run_recent inputs w :
  Forall (fun tm => now w < fst tm) (timers w) /\
  Forall (fresh_annotation w) (whispers w) ->
  let w' := run JSON_parse ToString has_getUserMedia inputs w in
  Forall (fun tm => now w' < fst tm) (timers w') /\
  Forall (fresh_annotation w') (whispers w').
Proof.
  revert w. induction inputs as [|i inputs IH]; intros w H; [exact H|].
  cbv zeta. rewrite run_cons. apply IH. now apply step_recent.
Qed.

(** X10 (lines 39-41, 60-71, 192): in every state the component reaches,
    each pending timer is due in the future, and each annotation of the
    list was created less than ten seconds ago and has its removal
    pending at ten seconds after its timestamp. *)
Theorem annotations_recent (inputs : list Input) :
  let w := run JSON_parse ToString has_getUserMedia inputs booted in
  Forall (fun tm => now w < fst tm) (timers w) /\
  Forall (fun x =>
            timestamp x <= now w < timestamp x + 10000 /\
            In (timestamp x + 10000, RemoveWhisper (id x)) (timers w))
         (whispers w).
Proof.
  cbv zeta.
  destruct (run_recent inputs booted) as [T F];
    [split; constructor|].
  split; [exact T|].
  eapply Forall_impl; [|exact F]. intros x [A B].
  pose proof (proj1 (Forall_forall _ _) T _ B) as L. cbn [fst] in L.
  repeat split; [lia | lia | exact B].
Qed.

(** *** Capture-start timers *)

(** X11 (lines 39-41, 119-127): letting time pass requests the
    microphone once for every capture-start timer that comes due, where
    [getUserMedia] exists, and never otherwise; so the timer of [onopen]
    adds one request from 100 ms on and none before. *)
Theorem capture_timers_request dt w :
  capture_requests (elapse has_getUserMedia dt w) =
  (capture_requests w +
   if has_getUserMedia
   then captures_due (now w + Z.max 0 dt) (timers w) else 0)%nat /\
  timers (onopen w) = timers w ++ [(now w + 100, StartAudioCapture)] /\
  capture_requests (elapse has_getUserMedia dt (onopen w)) =
  (capture_requests (elapse has_getUserMedia dt w) +
   if has_getUserMedia && (100 <=? dt)%Z then 1 else 0)%nat.
Proof.
  assert (T : timers (onopen w) = timers w ++ [(now w + 100, StartAudioCapture)])
    by (destruct_world w; unfold onopen; wcbv; reflexivity).
  assert (N : now (onopen w) = now w)
    by (destruct_world w; unfold onopen; wcbv; reflexivity).
  assert (R : capture_requests (onopen w) = capture_requests w)
    by (destruct_world w; unfold onopen, capture_requests; wcbv; reflexivity).
  split; [apply elapse_requests|]. split; [exact T|].
  rewrite !elapse_requests, T, N, R.
  destruct has_getUserMedia; cbn [andb]; [|lia].
  rewrite captures_due_app. unfold captures_due at 2. cbn [filter].
  unfold capture_due. cbn [fst snd].
  destruct (Z.leb_spec (now w + 100) (now w + Z.max 0 dt));
    destruct (Z.leb_spec 100 dt); cbn [length]; lia.
Qed.

Lemma elapse_stays_stopped dt w :
  isNegotiating w = false ->
  isNegotiating (elapse has_getUserMedia dt w) = false.
Proof.
  unfold elapse.
  apply (advance_preserves has_getUserMedia
           (fun x => isNegotiating x = false)).
  - intros x d a l1 l2 E _ _ _.
    destruct (loop_change_negotiating _ _
                (fire_change has_getUserMedia a (pop d (l1 ++ l2) x)))
      as [-> | ->]; [exact E | reflexivity].
  - intros x E. exact E.
Qed.

(** X17 (lines 39-41, 106-117): the capture start scheduled by [onopen]
    is not cancelled by the end of the session: ended within the 100 ms,
    the session stays off and the microphone is requested all the
    same. *)
Theorem start_timer_outlives_session ws w :
  has_getUserMedia = true ->
  readyState ws w = Some CONNECTING ->
  let w1 := handle JSON_parse ToString (Socket_open ws) w in
  let w2 := handle JSON_parse ToString Click_End w1 in
  let w3 := elapse has_getUserMedia 100 w2 in
  timers w2 = timers w ++ [(now w + 100, StartAudioCapture)] /\
  isNegotiating w3 = false /\
  capture_requests w3 =
    S (capture_requests w + captures_due (now w + 100) (timers w)).
Proof.
  intros G O. cbv zeta.
  assert (E1 : handle JSON_parse ToString (Socket_open ws) w
               = onopen (set_readyState ws OPEN w)).
  { unfold handle. cbn [deliverable]. now rewrite O. }
  rewrite E1. set (w1 := onopen (set_readyState ws OPEN w)).
  assert (T1 : timers w1 = timers w ++ [(now w + 100, StartAudioCapture)])
    by (unfold w1; destruct_world w; unfold onopen; wcbv; reflexivity).
  assert (N1 : now w1 = now w)
    by (unfold w1; destruct_world w; unfold onopen; wcbv; reflexivity).
  assert (R1 : capture_requests w1 = capture_requests w)
    by (unfold w1; destruct_world w; unfold onopen, capture_requests; wcbv;
        reflexivity).
  assert (E2 : handle JSON_parse ToString Click_End w1
               = setIsNegotiating false w1) by reflexivity.
  rewrite E2. set (w2 := setIsNegotiating false w1).
  destruct (setIsNegotiating_false_requests w1) as [R2 T2]. fold w2 in R2, T2.
  assert (N2 : now w2 = now w).
  { rewrite <- N1.
    apply (loop_change_now false w1 w2).
    apply setIsNegotiating_change. discriminate. }
  split; [now rewrite T2|]. split.
  - apply elapse_stays_stopped. apply setIsNegotiating_false.
  - rewrite elapse_requests, G, R2, R1, T2, T1, N2.
    rewrite captures_due_app. unfold captures_due at 2. cbn [filter].
    unfold capture_due. cbn [fst snd].
    change (Z.max 0 100) with 100.
    rewrite Z.leb_refl. cbn [length]. lia.
Qed.

End Coverage.

(* ================================================================== *)
(** * Capture failure: the abort *)
(* ================================================================== *)

Section CaptureFailure.
Import Js App.
Local Open Scope string_scope.
Local Open Scope list_scope.
Local Open Scope Z_scope.

Variable JSON_parse : string -> option json.
Variable ToString : json -> string.
Variable has_getUserMedia : bool.

Lemma failure_disconnects message w :
  socket_invariant w ->
  let w' := elapse has_getUserMedia 2000 (capture_failed message w) in
  isNegotiating w' = false /\
  wsRef w' = None /\
  forall ws s, nth_error (sockets w') ws = Some s -> s = CLOSING \/ s = CLOSED.
Proof.
  intros I. cbv zeta.
  pose proof (failure_stops has_getUserMedia message w) as N.
  assert (I' : socket_invariant
                 (elapse has_getUserMedia 2000 (capture_failed message w))).
  { apply elapse_invariant.
    exact (socket_invariant_ext _ _ (capture_failed_sockets message w) I). }
  destruct I' as [C S].
  set (w' := elapse has_getUserMedia 2000 (capture_failed message w)) in *.
  assert (R : wsRef w' = None).
  { destruct (wsRef w') as [ws|]; [|reflexivity].
    destruct C as [C _]. congruence. }
  split; [exact N|]. split; [exact R|].
  intros ws s G. apply (S ws s G). rewrite R. discriminate.
Qed.

(** C8: every failure of capture start runs the [catch] block, which
    surfaces the message, marks the session not connected and schedules
    [setIsNegotiating(false)] 2000 ms later; that callback is the stop
    intent: on a session that is on it calls [close()] on the socket
    held, which is then closing or closed, releases the handles the
    capture refs hold and tears the session down.  So 2000 ms after a
    failure the session that was on is aborted: off, no socket held,
    nothing captured, nothing displayed; and in every state the component
    reaches, 2000 ms after a failure the session is off, no socket is
    held and none is connecting or open.  Neither the [catch] block nor
    the stop requests the microphone again or schedules a capture start:
    the only requests made in the meantime are those of capture starts
    that were already scheduled. *)
Theorem capture_failure_aborts :
  (forall w,
     startAudioCapture false w =
     capture_failed "getUserMedia is not supported in this browser"
       (console_log "[AUDIO] Requesting microphone access..." w)) /\
  (forall message context graph w,
     after_getUserMedia (Rejected message) context graph w
     = capture_failed message w) /\
  (forall stream message graph w,
     after_getUserMedia (Fulfilled stream) (Rejected message) graph w
     = capture_failed message
         (set_mediaStreamRef (Some stream)
            (console_log "[AUDIO] ✅ Microphone access granted" w))) /\
  (forall stream message graph w,
     after_resume stream (Rejected message) graph w
     = capture_failed message w) /\
  (forall stream message w,
     exists reason,
       connect_pipeline stream (Rejected message) w = capture_failed reason w) /\
  (forall stream graph w,
     audioContextRef w = None ->
     exists reason,
       connect_pipeline stream graph w = capture_failed reason w) /\
  (forall message w,
     lastMessage (debugInfo (capture_failed message w))
       = String.append "Mic Error: " message /\
     isConnected (capture_failed message w) = false /\
     timers (capture_failed message w)
       = timers w ++ [(now w + 2000, StopNegotiating)] /\
     effects (capture_failed message w) = effects w) /\
  (forall w,
     fire has_getUserMedia StopNegotiating w = setIsNegotiating false w /\
     isNegotiating (fire has_getUserMedia StopNegotiating w) = false /\
     (isNegotiating w = true ->
      torn_down (fire has_getUserMedia StopNegotiating w)) /\
     capture_requests (fire has_getUserMedia StopNegotiating w)
       = capture_requests w /\
     timers (fire has_getUserMedia StopNegotiating w) = timers w) /\
  (forall message w,
     isNegotiating (elapse has_getUserMedia 2000 (capture_failed message w))
     = false) /\
  (forall w,
     isNegotiating w = true ->
     effects (fire has_getUserMedia StopNegotiating w)
       = effects w ++ stop_calls w /\
     sockets (fire has_getUserMedia StopNegotiating w) = closed_sockets w /\
     wsRef (fire has_getUserMedia StopNegotiating w) = None /\
     forall ws,
       wsRef w = Some ws ->
       readyState ws (fire has_getUserMedia StopNegotiating w) =
       match readyState ws w with
       | Some CONNECTING | Some OPEN => Some CLOSING
       | other => other
       end) /\
  (forall message w,
     isNegotiating w = true ->
     aborted w (elapse has_getUserMedia 2000 (capture_failed message w))) /\
  (forall message w,
     capture_requests
       (elapse has_getUserMedia 2000 (capture_failed message w)) =
     (capture_requests w +
      if has_getUserMedia
      then captures_due (now w + 2000) (timers w) else 0)%nat) /\
  (forall inputs message,
     let w := run JSON_parse ToString has_getUserMedia inputs booted in
     let w' := elapse has_getUserMedia 2000 (capture_failed message w) in
     isNegotiating w' = false /\
     wsRef w' = None /\
     forall ws s,
       nth_error (sockets w') ws = Some s -> s = CLOSING \/ s = CLOSED).
Proof.
  split; [|split; [|split; [|split; [|split; [|split; [|split; [|split;
    [|split; [|split; [|split; [|split]]]]]]]]]]].
  - reflexivity.
  - reflexivity.
  - reflexivity.
  - reflexivity.
  - intros stream message w. unfold connect_pipeline.
    destruct (audioContextRef w); eauto.
  - intros stream graph w H. unfold connect_pipeline. rewrite H. eauto.
  - intros message w. repeat split.
  - intros w. cbn [fire].
    split; [reflexivity|]. split; [apply setIsNegotiating_false|].
    split; [|apply setIsNegotiating_false_requests].
    intros H. apply (stop_tears_down w H).
  - apply failure_stops.
  - intros w H. cbn [fire]. rewrite (stop_shape w H).
    split; [reflexivity|]. split; [reflexivity|]. split; [reflexivity|].
    intros ws R. unfold readyState at 1. cbn [sockets].
    now apply closed_readyState.
  - apply failure_aborts.
  - apply failure_requests.
  - intros inputs message. cbv zeta. apply failure_disconnects.
    apply run_invariant. exact booted_invariant.
Qed.

End CaptureFailure.

Section CoverageSamples.
Import Js App.
Local Open Scope string_scope.
Local Open Scope list_scope.
Local Open Scope Z_scope.

(** X6 on [null], on the empty object and on a number. *)
Lemma message_without_fields_witness :
  let receive raw :=
    onmessage sample_parse_more sample_ToString raw connected in
  receive "null"
    = console_error "[WS] Error parsing message:" (preview "null" connected) /\
  receive "{}" = preview "{}" connected /\
  receive "42" = preview "42" connected.
Proof.
  cbv zeta. split; [|split].
  - destruct (message_without_fields sample_parse_more sample_ToString
                "null" JNull connected eq_refl) as (H & _).
    exact (H eq_refl).
  - destruct (message_without_fields sample_parse_more sample_ToString
                "{}" (JObject []) connected eq_refl) as (_ & H & _).
    apply H; [discriminate | reflexivity ..].
  - destruct (message_without_fields sample_parse_more sample_ToString
                "42" (JNumber (42 # 1)) connected eq_refl) as (_ & _ & H).
    apply H; [discriminate | intros fields; discriminate].
Defined.

(** X7 on a message of type [ping] that reports a volume. *)
Lemma unrecognised_type_witness :
  let w' := onmessage sample_parse_more sample_ToString msg_ping connected in
  audioLevel w' = JNumber (30 # 1) /\
  whispers w' = whispers connected /\
  effects w' = effects connected.
Proof.
  cbv zeta.
  destruct (unrecognised_type sample_parse_more sample_ToString msg_ping
              (JObject [("type", JString "ping"); ("vol", JNumber (30 # 1))])
              (JString "ping") connected eq_refl eq_refl eq_refl)
    as (_ & W & _ & _ & E & A); [discriminate | discriminate |].
  split; [exact A|]. split; [exact W | exact E].
Defined.

(** X8 on the first click and on a click during the session. *)
Lemma start_intent_witness :
  isNegotiating booted = false /\
  wsRef (setIsNegotiating true booted) = Some 0%nat /\
  readyState 0 (setIsNegotiating true booted) = Some CONNECTING /\
  isNegotiating connected = true /\
  setIsNegotiating true connected = connected.
Proof.
  split; [reflexivity|].
  destruct (start_intent booted) as (_ & H).
  destruct (H eq_refl) as (_ & _ & _ & _ & _ & _ & R & _ & O & _).
  split; [exact R|]. split; [exact O|].
  split; [reflexivity|].
  destruct (start_intent connected) as (K & _).
  exact (K eq_refl).
Defined.

(** X9 on the sample session. *)
Lemma single_live_socket_witness :
  wsRef connected = Some 0%nat /\
  isNegotiating connected = true /\
  length (sockets connected) = 1%nat.
Proof.
  destruct (single_live_socket sample_parse sample_ToString true
              session_start) as (_ & L & _).
  split; [reflexivity|]. split; [reflexivity|].
  symmetry. apply (L 0%nat). reflexivity.
Defined.

(** X13 on the sample session, stopped before the microphone is
    granted. *)
Lemma grant_after_stop_witness :
  let w1 := after_getUserMedia (Fulfilled 7%nat) (Fulfilled (8%nat, false))
              (Fulfilled 9%nat) (setIsNegotiating false connected) in
  isNegotiating connected = true /\
  isNegotiating w1 = false /\
  mediaStreamRef w1 = Some 7%nat /\
  setIsNegotiating false w1 = w1 /\
  readyState 0 w1 = Some CLOSING /\
  effects (handle sample_parse sample_ToString (Socket_close 0 1000) w1) =
    effects w1 ++ [Processor_disconnect 9; Tracks_stop 7;
                   AudioContext_close 8].
Proof.
  cbv zeta.
  assert (H : isNegotiating connected = true) by reflexivity.
  split; [exact H|].
  destruct (grant_after_stop sample_parse sample_ToString
              7%nat 8%nat 9%nat connected H)
    as (_ & (M & _) & (N & _) & _ & _ & S & _ & C & L).
  destruct (L 0%nat 1000%N eq_refl (or_intror eq_refl)) as [R D].
  split; [exact N|]. split; [exact M|]. split; [exact S|].
  split; [exact R|].
  exact (proj1 (C 0%nat 1000%N D)).
Defined.

(** X15 on two blocks captured by the sample session. *)
Lemma capture_stream_in_order_witness :
  wsRef capturing = Some 0%nat /\
  readyState 0 capturing = Some OPEN /\
  run sample_parse sample_ToString true
    (map (fun b => Deliver (Audio_process b)) sample_blocks) capturing
  = traced [] (map (send_of 0) sample_blocks) capturing.
Proof.
  assert (R : wsRef capturing = Some 0%nat) by reflexivity.
  assert (O : readyState 0 capturing = Some OPEN) by reflexivity.
  split; [exact R|]. split; [exact O|].
  exact (capture_stream_in_order sample_parse sample_ToString true
           sample_blocks 0%nat capturing R O).
Defined.

(** X17 on the sample session, ended right after the socket opened. *)
Lemma start_timer_outlives_session_witness :
  let w3 :=
    run sample_parse sample_ToString true
      [Deliver (Socket_open 0); Deliver Click_End; Elapse 100] connecting in
  readyState 0 connecting = Some CONNECTING /\
  isNegotiating w3 = false /\
  capture_requests w3 = 1%nat.
Proof.
  cbv zeta.
  assert (O : readyState 0 connecting = Some CONNECTING) by reflexivity.
  split; [exact O|].
  destruct (start_timer_outlives_session sample_parse sample_ToString true
              0%nat connecting eq_refl O) as (_ & N & C).
  split; [exact N | exact C].
Defined.

(** C8 on the session [connected]: the stop scheduled by a refused
    microphone, run on a negotiating session, closes its socket and
    tears it down; 2000 ms after the refusal the session is aborted. *)
Lemma capture_failure_aborts_witness :
  let w := after_getUserMedia (Rejected "Permission denied")
             (Rejected "unused") (Rejected "unused") connected in
  isNegotiating w = true /\
  audioContextRef w = None /\
  timers w = [(2100, StopNegotiating)] /\
  torn_down (fire true StopNegotiating w) /\
  (exists reason,
     connect_pipeline 7 (Fulfilled 9%nat) w = capture_failed reason w) /\
  isNegotiating (elapse true 2000 w) = false /\
  effects (fire true StopNegotiating w) = effects w ++ [WebSocket_close 0] /\
  readyState 0 (fire true StopNegotiating w) = Some CLOSING /\
  isNegotiating connected = true /\
  aborted connected (elapse true 2000 w) /\
  sockets (elapse true 2000 w) = [CLOSING].
Proof.
  cbv zeta.
  pose proof (capture_failure_aborts sample_parse sample_ToString true) as
    (_ & _ & _ & _ & _ & N & _ & S & E & F & A & _).
  split; [reflexivity|]. split; [reflexivity|]. split; [reflexivity|].
  split; [|split; [|split; [|split; [|split; [|split; [|split]]]]]].
  - apply S. reflexivity.
  - apply N. reflexivity.
  - apply (E "Permission denied" connected).
  - exact (proj1 (F (capture_failed "Permission denied" connected) eq_refl)).
  - destruct (F (capture_failed "Permission denied" connected) eq_refl)
      as (_ & _ & _ & R).
    exact (R 0%nat eq_refl).
  - reflexivity.
  - exact (A "Permission denied" connected eq_refl).
  - destruct (A "Permission denied" connected eq_refl)
      as (_ & _ & _ & _ & _ & _ & _ & K & _).
    exact K.
Defined.

End CoverageSamples.
